(** * AI text RPG backend: the response-parsing and state-reconciliation
      pipeline, embedded and verified.

    The development follows the sources
      - [ai-rpg-backend/utils/responseParser.js]   (module [ResponseParser]),
      - [ai-rpg-backend/controllers/gameController.js] (module [GameController]),
      - [services/worldGenerator.js]               (module [WorldGenerator]).

    Modelling conventions.
    - A JavaScript string is a [string]: a sequence of code units below 256
      (the Latin-1 part of UTF-16).  Whitespace, line terminators and case
      mapping are those of ECMAScript restricted to that alphabet.
    - A JavaScript number is a rational [Q]: arithmetic is exact, [NaN] is
      [None] at the places where the program coerces ([Number], [parseInt]);
      rounding, overflow and the infinities of IEEE doubles are not modelled.
      The two agree on whole numbers (integers from 0 to 2^53 - 1) whose sums,
      differences and products are whole; the statements that compute with
      experience, levels or elapsed time are made for such numbers.
    - An object is the list of its own entries; a lookup reads own entries
      only.  The members that every JavaScript object inherits
      ([constructor], [__proto__]) are kept out of the keys where a statement
      depends on the lookup.
    - A value produced by [JSON.parse] is a [json]; [undefined] is [None].
    - A thrown exception is the [Throw] outcome of a [completion]; [try/catch]
      is [try_catch].
    - The wall clock ([new Date().toISOString()]) and [Math.random()] are
      explicit arguments of the functions that read them. *)

From Stdlib Require Import Bool List Arith ZArith QArith Qround Qabs Ascii String Lia Lqa.
From Stdlib Require Import DecimalString.
Import ListNotations.
Close Scope Q_scope.
Open Scope string_scope.

Set Implicit Arguments.

(* ===================================================================== *)
(** * ECMAScript values and built-ins used by the program                 *)
(* ===================================================================== *)

Module Js.

(** ** Completions: normal return or exception *)

Inductive exn := TypeError | SyntaxError | Error (msg : string).

Inductive completion (A : Type) : Type :=
| Normal (a : A)
| Throw (e : exn).
Arguments Normal {A} a.
Arguments Throw {A} e.

Definition bind {A B} (c : completion A) (f : A -> completion B) : completion B :=
  match c with
  | Normal a => f a
  | Throw e => Throw e
  end.

Definition try_catch {A} (body : completion A) (handler : exn -> completion A)
  : completion A :=
  match body with
  | Normal a => Normal a
  | Throw e => handler e
  end.

Fixpoint mapM {A B} (f : A -> completion B) (l : list A) : completion (list B) :=
  match l with
  | [] => Normal []
  | x :: r => bind (f x) (fun y => bind (mapM f r) (fun ys => Normal (y :: ys)))
  end.

(** [filterM p l]: [Array.prototype.filter] with a callback that may throw. *)
Fixpoint filterM {A} (p : A -> completion bool) (l : list A) : completion (list A) :=
  match l with
  | [] => Normal []
  | x :: r =>
      bind (p x) (fun b =>
      bind (filterM p r) (fun ys => Normal (if b then x :: ys else ys)))
  end.

Declare Scope js_scope.
Delimit Scope js_scope with js.
Notation "x <- c ;; k" := (bind c (fun x => k))
  (at level 61, c at next level, right associativity) : js_scope.

(** ** Characters *)

Definition code (c : ascii) : nat := nat_of_ascii c.

Definition chr (n : nat) : ascii := ascii_of_nat n.

(** The double quote. *)
Definition quote : ascii := chr 34.

Definition in_range (lo hi : nat) (c : ascii) : bool :=
  Nat.leb lo (code c) && Nat.leb (code c) hi.

(** LineTerminator: LF and CR (U+2028 and U+2029 lie outside the alphabet). *)
Definition is_line_terminator (c : ascii) : bool :=
  Nat.eqb (code c) 10 || Nat.eqb (code c) 13.

(** WhiteSpace and LineTerminator, the class [\s] and what [trim] strips:
    TAB, LF, VT, FF, CR, SP and NBSP. *)
Definition is_space (c : ascii) : bool :=
  in_range 9 13 c || Nat.eqb (code c) 32 || Nat.eqb (code c) 160.

Definition is_digit (c : ascii) : bool := in_range 48 57 c.

Definition digit_val (c : ascii) : Z := Z.of_nat (code c - 48).

Definition lower_char (c : ascii) : ascii :=
  if in_range 65 90 c || in_range 192 214 c || in_range 216 222 c
  then chr (code c + 32) else c.

Definition upper_char (c : ascii) : ascii :=
  if in_range 97 122 c || in_range 224 246 c || in_range 248 254 c
  then chr (code c - 32) else c.

(** ** Strings *)

Fixpoint string_map (f : ascii -> ascii) (s : string) : string :=
  match s with
  | EmptyString => EmptyString
  | String c r => String (f c) (string_map f r)
  end.

Definition toLowerCase (s : string) : string := string_map lower_char s.

Fixpoint trimStart (s : string) : string :=
  match s with
  | String c r => if is_space c then trimStart r else s
  | EmptyString => EmptyString
  end.

Fixpoint trimEnd (s : string) : string :=
  match s with
  | EmptyString => EmptyString
  | String c r =>
      let r' := trimEnd r in
      if is_space c && (r' =? "")%string then EmptyString else String c r'
  end.

Definition trim (s : string) : string := trimEnd (trimStart s).

(** [s.split(sep)] for a one-character separator. *)
Fixpoint split_go (sep : ascii) (cur : string) (s : string) : list string :=
  match s with
  | EmptyString => [cur]
  | String c r =>
      if Ascii.eqb c sep then cur :: split_go sep EmptyString r
      else split_go sep (cur ++ String c EmptyString) r
  end.

Definition split (sep : ascii) (s : string) : list string :=
  split_go sep EmptyString s.

Fixpoint join (sep : string) (l : list string) : string :=
  match l with
  | [] => EmptyString
  | [x] => x
  | x :: r => x ++ sep ++ join sep r
  end.

Fixpoint take (n : nat) (s : string) : string :=
  match n, s with
  | S k, String c r => String c (take k r)
  | _, _ => EmptyString
  end.

(** [includes] on an array of strings: strict equality with some element. *)
Definition includes (l : list string) (x : string) : bool :=
  existsb (String.eqb x) l.

(** ** Numbers *)

Definition Qleb (a b : Q) : bool := Qle_bool a b.
Definition Qltb (a b : Q) : bool := negb (Qle_bool b a).
Definition Qeqb (a b : Q) : bool := Qeq_bool a b.

(** [Math.min] and [Math.max] on non-NaN arguments. *)
Definition Math_min (a b : Q) : Q := if Qleb a b then a else b.
Definition Math_max (a b : Q) : Q := if Qleb a b then b else a.

(** [Math.floor]. *)
Definition Math_floor (a : Q) : Q := inject_Z (Qfloor a).

(** The remainder operator [a % b]: the sign follows the dividend. *)
Definition Qtrunc (a : Q) : Z := Z.quot (Qnum a) (Zpos (Qden a)).
Definition rem (a b : Q) : Q := (a - b * inject_Z (Qtrunc (a / b)))%Q.

Definition Z_toString (z : Z) : string := NilZero.string_of_int (Z.to_int z).

(** Digits of the fractional part [r] (0 <= r < 1), at most [n] of them. *)
Fixpoint frac_digits (n : nat) (r : Q) : string :=
  match n with
  | O => EmptyString
  | S k =>
      if Qeqb r 0 then EmptyString
      else
        let d := Qfloor (r * 10)%Q in
        String (chr (48 + Z.to_nat d)) (frac_digits k (r * 10 - inject_Z d)%Q)
  end.

(** [Number::toString]: exact on integers (below 1e21, where JavaScript
    switches to exponent notation) and on short decimal fractions. *)
Definition Number_toString (q : Q) : string :=
  let q := Qred q in
  if (Zpos (Qden q) =? 1)%Z then Z_toString (Qnum q)
  else
    let a := Qabs q in
    let i := Qfloor a in
    (if Qltb q 0 then "-" else "") ++ Z_toString i ++ "."
      ++ frac_digits 20 (a - inject_Z i)%Q.

(** Decimal digits at the head of [s]: their value continuing [acc], how many
    there are, and the rest of the string. *)
Fixpoint take_digits (s : string) (acc : Z) (n : nat) : Z * nat * string :=
  match s with
  | String c r =>
      if is_digit c then take_digits r (acc * 10 + digit_val c)%Z (S n)
      else (acc, n, s)
  | EmptyString => (acc, n, s)
  end.

Definition pow10 (e : Z) : Q :=
  if (0 <=? e)%Z then inject_Z (10 ^ e) else (/ inject_Z (10 ^ (- e)))%Q.

(** ExponentPart, after the [e] or [E]: an optional sign and digits. *)
Definition parse_exponent (s : string) : option (Z * string) :=
  let '(neg, r) :=
    match s with
    | String "-" r => (true, r)
    | String "+" r => (false, r)
    | _ => (false, s)
    end in
  let '(v, n, r') := take_digits r 0 0 in
  match n with
  | O => None
  | _ => Some (if neg then (- v)%Z else v, r')
  end.

Definition opt_exponent (s : string) : option (Z * string) :=
  match s with
  | String "e" r | String "E" r => parse_exponent r
  | _ => Some (0%Z, s)
  end.

(** Digits of a literal in base [b] (2, 8 or 16); [None] on a foreign
    character or when there is no digit at all. *)
Definition hex_val (c : ascii) : option Z :=
  if is_digit c then Some (digit_val c)
  else if in_range 97 102 c then Some (Z.of_nat (code c - 87))
  else if in_range 65 70 c then Some (Z.of_nat (code c - 55))
  else None.

Fixpoint radix_digits (b : Z) (s : string) (acc : Z) : option Z :=
  match s with
  | EmptyString => Some acc
  | String c r =>
      match hex_val c with
      | Some d => if (d <? b)%Z then radix_digits b r (acc * b + d)%Z else None
      | None => None
      end
  end.

Definition radix_literal (b : Z) (s : string) : option Q :=
  match s with
  | EmptyString => None
  | _ => option_map inject_Z (radix_digits b s 0)
  end.

(** StrUnsignedDecimalLiteral, the literal [Infinity] apart (it has no image
    among the rationals and reads as NaN here). *)
Definition unsigned_decimal (s : string) : option Q :=
  let '(i, ni, r1) := take_digits s 0 0 in
  let '(f, nf, dot, r2) :=
    match r1 with
    | String "." r => let '(f, nf, r2) := take_digits r 0 0 in (f, nf, true, r2)
    | _ => (0%Z, O, false, r1)
    end in
  if Nat.eqb ni 0 && Nat.eqb nf 0 then None
  else
    match opt_exponent r2 with
    | Some (e, EmptyString) =>
        Some ((inject_Z i + inject_Z f * pow10 (- Z.of_nat nf)) * pow10 e)%Q
    | _ => None
    end.

(** StringToNumber: the value of a StringNumericLiteral, [None] for NaN. *)
Definition StringToNumber (s : string) : option Q :=
  match trim s with
  | EmptyString => Some 0%Q
  | String "0" (String "x" r) | String "0" (String "X" r) => radix_literal 16 r
  | String "0" (String "o" r) | String "0" (String "O" r) => radix_literal 8 r
  | String "0" (String "b" r) | String "0" (String "B" r) => radix_literal 2 r
  | String "-" r => option_map Qopp (unsigned_decimal r)
  | String "+" r => unsigned_decimal r
  | t => unsigned_decimal t
  end.

(** [parseInt(s, 10)] on a string of decimal digits (the only use made of
    it: the argument is a [\d+] capture). *)
Definition parseInt10 (s : string) : option Q :=
  let '(v, n, _) := take_digits (trimStart s) 0 0 in
  match n with
  | O => None
  | _ => Some (inject_Z v)
  end.

(** ** JSON values *)

#[warnings="-register-all"] Inductive json : Type :=
| JNull
| JBool (b : bool)
| JNum (q : Q)
| JStr (s : string)
| JArr (l : list json)
| JObj (m : list (string * json)).

(** Own properties of an object, in creation order. *)
Definition props := list (string * json).

Fixpoint obj_get {V} (m : list (string * V)) (k : string) : option V :=
  match m with
  | [] => None
  | (k', v) :: r => if String.eqb k k' then Some v else obj_get r k
  end.

(** [o[k] = v]: overwrite in place, or create the property last. *)
Fixpoint obj_set {V} (m : list (string * V)) (k : string) (v : V)
  : list (string * V) :=
  match m with
  | [] => [(k, v)]
  | (k', v') :: r =>
      if String.eqb k k' then (k, v) :: r else (k', v') :: obj_set r k v
  end.

(** An array index: the canonical decimal form of an integer below 2^32 - 1.
    Such keys are enumerated first, in ascending order. *)
Definition array_index (k : string) : option Z :=
  let '(v, n, r) := take_digits k 0 0 in
  match n, r with
  | S _, EmptyString =>
      if (String.eqb k "0" || negb (String.eqb (take 1 k) "0"))
         && (v <? 4294967295)%Z
      then Some v else None
  | _, _ => None
  end.

Fixpoint insert_index {V} (i : Z) (e : string * V) (l : list (Z * (string * V)))
  : list (Z * (string * V)) :=
  match l with
  | [] => [(i, e)]
  | (j, e') :: r =>
      if (i <? j)%Z then (i, e) :: l else (j, e') :: insert_index i e r
  end.

Fixpoint split_keys {V} (m : list (string * V))
  : list (Z * (string * V)) * list (string * V) :=
  match m with
  | [] => ([], [])
  | (k, v) :: r =>
      let '(ix, nm) := split_keys r in
      match array_index k with
      | Some i => (insert_index i (k, v) ix, nm)
      | None => (ix, (k, v) :: nm)
      end
  end.

(** OrdinaryOwnPropertyKeys order: array indices ascending, then the other
    keys in creation order. *)
Definition own_entries {V} (m : list (string * V)) : list (string * V) :=
  let '(ix, nm) := split_keys m in (map snd ix ++ nm)%list.

Fixpoint index_entries (i : nat) (l : list json) : props :=
  match l with
  | [] => []
  | x :: r => (Z_toString (Z.of_nat i), x) :: index_entries (S i) r
  end.

(** [Object.entries(v)] for an object or an array. *)
Definition Object_entries (v : json) : props :=
  match v with
  | JObj m => own_entries m
  | JArr l => index_entries 0 l
  | _ => []
  end.

(** ** Coercions and tests; [None] is [undefined] *)

Definition truthy (v : option json) : bool :=
  match v with
  | None | Some JNull => false
  | Some (JBool b) => b
  | Some (JNum q) => negb (Qeqb q 0)
  | Some (JStr s) => negb (String.eqb s "")
  | Some (JArr _) | Some (JObj _) => true
  end.

Definition typeof_string (v : option json) : bool :=
  match v with Some (JStr _) => true | _ => false end.

Definition typeof_number (v : option json) : bool :=
  match v with Some (JNum _) => true | _ => false end.

(** [typeof v === 'object']: objects, arrays and [null]. *)
Definition typeof_object (v : option json) : bool :=
  match v with
  | Some JNull | Some (JArr _) | Some (JObj _) => true
  | _ => false
  end.

Definition isArray (v : option json) : bool :=
  match v with Some (JArr _) => true | _ => false end.

(** [String(v)]. *)
Fixpoint ToString (v : json) : string :=
  match v with
  | JNull => "null"
  | JBool true => "true"
  | JBool false => "false"
  | JNum q => Number_toString q
  | JStr s => s
  | JArr l =>
      join "," (map (fun e => match e with JNull => "" | _ => ToString e end) l)
  | JObj _ => "[object Object]"
  end.

Definition ToString_opt (v : option json) : string :=
  match v with
  | None => "undefined"
  | Some x => ToString x
  end.

(** [Number(v)]; [None] is NaN. *)
Definition ToNumber (v : option json) : option Q :=
  match v with
  | None => None
  | Some JNull => Some 0%Q
  | Some (JBool b) => Some (if b then 1%Q else 0%Q)
  | Some (JNum q) => Some q
  | Some (JStr s) => StringToNumber s
  | Some (JArr l) => StringToNumber (ToString (JArr l))
  | Some (JObj _) => None
  end.

(** [v.k] for a property name [k] other than [length] and the array indices
    (the program reads no such name): an own property of an object,
    [undefined] on arrays and primitives, a TypeError on [null]. *)
Definition get (v : json) (k : string) : completion (option json) :=
  match v with
  | JNull => Throw TypeError
  | JObj m => Normal (obj_get m k)
  | _ => Normal None
  end.

(** [v.k] where [v] itself may be [undefined]. *)
Definition get_opt (v : option json) (k : string) : completion (option json) :=
  match v with
  | None => Throw TypeError
  | Some x => get x k
  end.

End Js.

(* ===================================================================== *)
(** * Regular expressions: the backtracking matcher of ECMAScript         *)
(* ===================================================================== *)

Module Regex.
Import Js.

(** A class atom: a character, [\s], [\S] or [\d]. *)
Inductive atom := AChar (c : ascii) | ASpace | ANotSpace | ADigit.

Inductive re :=
| Eps
| Lit (c : ascii)
| Dot                                   (* [.] *)
| Class (neg : bool) (items : list atom)   (* [[...]], [[^...]], [\s], [\d] *)
| Seq (a b : re)
| Alt (a b : re)                        (* [a|b] *)
| Star (greedy : bool) (a : re)         (* [a*] and [a*?] *)
| Group (i : nat) (a : re)              (* the [i]-th capturing group *)
| Ahead (a : re)                        (* [(?=a)] *)
| Bol                                   (* [^] *)
| Eol.                                  (* [$] *)

Record flags := { ignoreCase : bool; multiline : bool; dotAll : bool }.

Definition no_flags := {| ignoreCase := false; multiline := false; dotAll := false |}.
Definition flag_s := {| ignoreCase := false; multiline := false; dotAll := true |}.
Definition flag_m := {| ignoreCase := false; multiline := true; dotAll := false |}.
Definition flag_i := {| ignoreCase := true; multiline := false; dotAll := false |}.

(** The characters of [s] in sequence. *)
Fixpoint Str (s : string) : re :=
  match s with
  | EmptyString => Eps
  | String c EmptyString => Lit c
  | String c r => Seq (Lit c) (Str r)
  end.

Definition Plus (a : re) : re := Seq a (Star true a).     (* [a+] *)
Definition ws : re := Class false [ASpace].               (* [\s] *)
Definition digit : re := Class false [ADigit].            (* [\d] *)
Definition Not (cs : list ascii) : re := Class true (map AChar cs).

Declare Scope re_scope.
Delimit Scope re_scope with re.
Bind Scope re_scope with re.
Notation "a +++ b" := (Seq a b) (at level 60, right associativity) : re_scope.

(** Captures: group number and captured text. *)
Definition caps := list (nat * string).

Fixpoint cap_get (cs : caps) (i : nat) : option string :=
  match cs with
  | [] => None
  | (j, t) :: r => if Nat.eqb i j then Some t else cap_get r i
  end.

Definition cont := option ascii -> string -> caps -> option (string * caps).

Definition accept : cont := fun _ s cs => Some (s, cs).

Section Matcher.
Variable fl : flags.

Definition canon (c : ascii) : ascii :=
  if ignoreCase fl then upper_char c else c.

Definition atom_match (a : atom) (c : ascii) : bool :=
  match a with
  | AChar x => Ascii.eqb (canon x) (canon c)
  | ASpace => is_space c
  | ANotSpace => negb (is_space c)
  | ADigit => is_digit c
  end.

Definition at_bol (prev : option ascii) : bool :=
  match prev with
  | None => true
  | Some p => multiline fl && is_line_terminator p
  end.

Definition at_eol (s : string) : bool :=
  match s with
  | EmptyString => true
  | String x _ => multiline fl && is_line_terminator x
  end.

(** [star ma greedy k n prev s cs]: the star of a pattern whose matcher is
    [ma], followed by [k], with at most [n] iterations.  An iteration that
    consumes nothing is rejected, as RepeatMatcher does, so [length s]
    iterations are all a star can make on [s].  A greedy star tries one more
    iteration before it tries to leave; a lazy one the other way round. *)
Fixpoint star (ma : option ascii -> string -> caps -> cont -> option (string * caps))
  (greedy : bool) (k : cont) (n : nat) (prev : option ascii) (s : string)
  (cs : caps) {struct n} : option (string * caps) :=
  match n with
  | O => k prev s cs
  | S n' =>
      let iter (_ : unit) :=
        ma prev s cs (fun p s' cs' =>
          if Nat.ltb (length s') (length s) then star ma greedy k n' p s' cs'
          else None) in
      if greedy then
        match iter tt with
        | Some x => Some x
        | None => k prev s cs
        end
      else
        match k prev s cs with
        | Some x => Some x
        | None => iter tt
        end
  end.

(** [m r prev s cs k]: match [r] at the head of [s] ([prev] is the character
    before it), then continue with [k]; alternatives are tried in the order
    of the specification. *)
Fixpoint m (r : re) (prev : option ascii) (s : string) (cs : caps) (k : cont)
  {struct r} : option (string * caps) :=
  match r with
  | Eps => k prev s cs
  | Lit c =>
      match s with
      | String x s' =>
          if Ascii.eqb (canon c) (canon x) then k (Some x) s' cs else None
      | EmptyString => None
      end
  | Dot =>
      match s with
      | String x s' =>
          if dotAll fl || negb (is_line_terminator x) then k (Some x) s' cs
          else None
      | EmptyString => None
      end
  | Class neg items =>
      match s with
      | String x s' =>
          if xorb neg (existsb (fun a => atom_match a x) items)
          then k (Some x) s' cs else None
      | EmptyString => None
      end
  | Seq a b => m a prev s cs (fun p s' cs' => m b p s' cs' k)
  | Alt a b =>
      match m a prev s cs k with
      | Some x => Some x
      | None => m b prev s cs k
      end
  | Star greedy a => star (m a) greedy k (length s) prev s cs
  | Group i a =>
      m a prev s cs (fun p s' cs' =>
        k p s' ((i, take (length s - length s') s) :: cs'))
  | Ahead a =>
      match m a prev s cs accept with
      | Some (_, cs') => k prev s cs'
      | None => None
      end
  | Bol => if at_bol prev then k prev s cs else None
  | Eol => if at_eol s then k prev s cs else None
  end.

(** The result of [RegExp.prototype.exec]: where the match starts, the
    matched text and the captures. *)
Record match_result := { index : nat; matched : string; groups : caps }.

(** Leftmost match at or after the head of [s]. *)
Fixpoint search (r : re) (i : nat) (prev : option ascii) (s : string)
  : option match_result :=
  match m r prev s [] accept with
  | Some (rest, cs) =>
      Some {| index := i; matched := take (length s - length rest) s;
              groups := cs |}
  | None =>
      match s with
      | EmptyString => None
      | String c s' => search r (S i) (Some c) s'
      end
  end.

(** [s.match(r)] without the [g] flag. *)
Definition exec (r : re) (s : string) : option match_result :=
  search r 0 None s.

(** [s.replace(r, rep)] with the [g] flag; [rep] has no [$] pattern.  [skip]
    counts the characters of the current match still to be dropped. *)
Fixpoint replace_go (r : re) (rep : string) (skip : nat) (prev : option ascii)
  (s : string) : string :=
  match skip with
  | S k =>
      match s with
      | EmptyString => EmptyString
      | String c s' => replace_go r rep k (Some c) s'
      end
  | O =>
      match m r prev s [] accept with
      | Some (rest, _) =>
          match length s - length rest, s with
          | _, EmptyString => rep
          | O, String c s' => rep ++ String c (replace_go r rep 0 (Some c) s')
          | S k, String c s' => rep ++ replace_go r rep k (Some c) s'
          end
      | None =>
          match s with
          | EmptyString => EmptyString
          | String c s' => String c (replace_go r rep 0 (Some c) s')
          end
      end
  end.

Definition replace_all (r : re) (rep : string) (s : string) : string :=
  replace_go r rep 0 None s.

(** [s.match(r)] with the [g] flag: the matched texts, left to right. *)
Fixpoint match_go (r : re) (skip : nat) (prev : option ascii) (s : string)
  : list string :=
  match skip with
  | S k =>
      match s with
      | EmptyString => []
      | String c s' => match_go r k (Some c) s'
      end
  | O =>
      match m r prev s [] accept with
      | Some (rest, _) =>
          let n := length s - length rest in
          take n s ::
          match s with
          | EmptyString => []
          | String c s' => match_go r (n - 1) (Some c) s'
          end
      | None =>
          match s with
          | EmptyString => []
          | String c s' => match_go r 0 (Some c) s'
          end
      end
  end.

Definition match_all (r : re) (s : string) : option (list string) :=
  match match_go r 0 None s with
  | [] => None
  | l => Some l
  end.

End Matcher.

(** [match[i]] of a successful match: [None] when the group took no part. *)
Definition group (mr : match_result) (i : nat) : option string :=
  cap_get (groups mr) i.

End Regex.

(* ===================================================================== *)
(** * [JSON.parse]                                                        *)
(* ===================================================================== *)

Module JSON.
Import Js.

Inductive token :=
| TLBrace | TRBrace | TLBrack | TRBrack | TColon | TComma
| TStr (s : string)
| TWord (w : string).       (* a number or one of [true], [false], [null] *)

(** Lexer modes: between tokens, inside a string (with the text read so far,
    reversed), after a backslash, inside a [\u] escape (with the hexadecimal
    value and the number of digits read), inside a word. *)
Inductive mode :=
| Between
| InStr (acc : list ascii)
| InEsc (acc : list ascii)
| InUni (acc : list ascii) (v : Z) (n : nat)
| InWord (acc : list ascii).

Definition rev_string (acc : list ascii) : string :=
  string_of_list_ascii (rev acc).

(** JSON whitespace: TAB, LF, CR and SP. *)
Definition json_ws (c : ascii) : bool :=
  Nat.eqb (code c) 9 || Nat.eqb (code c) 10 || Nat.eqb (code c) 13
  || Nat.eqb (code c) 32.

(** Characters of numbers and literal names. *)
Definition word_char (c : ascii) : bool :=
  is_digit c || in_range 97 122 c || in_range 65 90 c
  || Ascii.eqb c "-" || Ascii.eqb c "+" || Ascii.eqb c ".".

Definition escape (c : ascii) : option ascii :=
  if Ascii.eqb c quote then Some quote
  else
    match c with
    | "\"%char => Some "\"%char
    | "/"%char => Some "/"%char
    | "b"%char => Some (chr 8)
    | "f"%char => Some (chr 12)
    | "n"%char => Some (chr 10)
    | "r"%char => Some (chr 13)
    | "t"%char => Some (chr 9)
    | _ => None
    end.

Definition punct (c : ascii) : option token :=
  match c with
  | "{"%char => Some TLBrace
  | "}"%char => Some TRBrace
  | "["%char => Some TLBrack
  | "]"%char => Some TRBrack
  | ":"%char => Some TColon
  | ","%char => Some TComma
  | _ => None
  end.

(** One character outside a string or word. *)
Definition lex_between (c : ascii) : option (mode * list token) :=
  if json_ws c then Some (Between, [])
  else if Ascii.eqb c quote then Some (InStr [], [])
  else if word_char c then Some (InWord [c], [])
  else option_map (fun t => (Between, [t])) (punct c).

(** The tokens of a JSON text; [None] when it has a lexical error.  An
    escape [\uXXXX] above U+00FF denotes a code unit outside the alphabet
    of the model and is refused. *)
Fixpoint lex (md : mode) (s : string) : option (list token) :=
  match s with
  | EmptyString =>
      match md with
      | Between => Some []
      | InWord acc => Some [TWord (rev_string acc)]
      | _ => None
      end
  | String c r =>
      match md with
      | Between =>
          match lex_between c with
          | Some (md', ts) => option_map (app ts) (lex md' r)
          | None => None
          end
      | InWord acc =>
          if word_char c then lex (InWord (c :: acc)) r
          else
            match lex_between c with
            | Some (md', ts) =>
                option_map (fun l => TWord (rev_string acc) :: ts ++ l)%list
                           (lex md' r)
            | None => None
            end
      | InStr acc =>
          if Ascii.eqb c quote then
            option_map (cons (TStr (rev_string acc))) (lex Between r)
          else if Ascii.eqb c "\" then lex (InEsc acc) r
          else if Nat.ltb (code c) 32 then None
          else lex (InStr (c :: acc)) r
      | InEsc acc =>
          if Ascii.eqb c "u" then lex (InUni acc 0 0) r
          else
            match escape c with
            | Some x => lex (InStr (x :: acc)) r
            | None => None
            end
      | InUni acc v n =>
          match hex_val c with
          | Some d =>
              let v' := (v * 16 + d)%Z in
              if Nat.eqb n 3 then
                if (v' <? 256)%Z then lex (InStr (chr (Z.to_nat v') :: acc)) r
                else None
              else lex (InUni acc v' (S n)) r
          | None => None
          end
      end
  end.

(** The JSON number grammar: an optional minus sign; an integer part that is
    0 or starts with a non-zero digit; an optional fraction (a dot and at
    least one digit); an optional exponent. *)
Definition number (w : string) : option Q :=
  let '(neg, u) :=
    match w with
    | String "-" r => (true, r)
    | _ => (false, w)
    end in
  let '(i, ni, r1) := take_digits u 0 0 in
  let int_ok :=
    match ni with
    | O => false
    | 1 => true
    | _ => negb (String.eqb (take 1 u) "0")
    end in
  let frac :=
    match r1 with
    | String "." r =>
        let '(f, nf, r2) := take_digits r 0 0 in
        match nf with
        | O => None
        | _ => Some (f, nf, r2)
        end
    | _ => Some (0%Z, O, r1)
    end in
  match int_ok, frac with
  | true, Some (f, nf, r2) =>
      match opt_exponent r2 with
      | Some (e, EmptyString) =>
          let a := ((inject_Z i + inject_Z f * pow10 (- Z.of_nat nf)) * pow10 e)%Q in
          Some (if neg then Qopp a else a)
      | _ => None
      end
  | _, _ => None
  end.

Definition word_value (w : string) : option json :=
  if String.eqb w "true" then Some (JBool true)
  else if String.eqb w "false" then Some (JBool false)
  else if String.eqb w "null" then Some JNull
  else option_map JNum (number w).

(** Containers under construction, innermost first: an array with its
    elements so far, or an object with its properties so far and the key
    whose value is being read. *)
Inductive frame :=
| FArr (done : list json)
| FObj (done : props) (key : string).

(** What the parser expects next. *)
Inductive expect :=
| Value                                   (* a value *)
| ValueOrClose                            (* after [[]: a value or []] *)
| KeyOrClose                              (* after [{]: a key or [}] *)
| Key (done : props)                      (* after [,] in an object *)
| Colon (done : props) (key : string)     (* after a key *)
| After (v : json).                       (* a value is complete *)

(** Properties are created in source order; a repeated key overwrites. *)
Definition close_obj (done : props) (k : string) (v : json) : props :=
  obj_set done k v.

Definition start_value (t : token) (st : list frame)
  : option (expect * list frame) :=
  match t with
  | TLBrack => Some (ValueOrClose, st)
  | TLBrace => Some (KeyOrClose, st)
  | TStr s => Some (After (JStr s), st)
  | TWord w => option_map (fun v => (After v, st)) (word_value w)
  | _ => None
  end.

Definition step (e : expect) (st : list frame) (t : token)
  : option (expect * list frame) :=
  match e with
  | Value => start_value t st
  | ValueOrClose =>
      match t with
      | TRBrack => Some (After (JArr []), st)
      | _ => start_value t (FArr [] :: st)
      end
  | KeyOrClose =>
      match t with
      | TRBrace => Some (After (JObj []), st)
      | TStr k => Some (Colon [] k, st)
      | _ => None
      end
  | Key done =>
      match t with
      | TStr k => Some (Colon done k, st)
      | _ => None
      end
  | Colon done k =>
      match t with
      | TColon => Some (Value, FObj done k :: st)
      | _ => None
      end
  | After v =>
      match st, t with
      | FArr done :: st', TComma => Some (Value, FArr (done ++ [v]) :: st')
      | FArr done :: st', TRBrack => Some (After (JArr (done ++ [v])), st')
      | FObj done k :: st', TComma => Some (Key (close_obj done k v), st')
      | FObj done k :: st', TRBrace =>
          Some (After (JObj (close_obj done k v)), st')
      | _, _ => None
      end
  end.

Fixpoint run (e : expect) (st : list frame) (ts : list token) : option json :=
  match ts with
  | [] =>
      match e, st with
      | After v, [] => Some v
      | _, _ => None
      end
  | t :: r =>
      match step e st t with
      | Some (e', st') => run e' st' r
      | None => None
      end
  end.

(** [JSON.parse(text)]: the value, or a SyntaxError. *)
Definition parse (text : string) : completion json :=
  match lex Between text with
  | Some ts =>
      match run Value [] ts with
      | Some v => Normal v
      | None => Throw SyntaxError
      end
  | None => Throw SyntaxError
  end.

End JSON.

(* ===================================================================== *)
(** * The data model: game state and validated change set                 *)
(* ===================================================================== *)

Module Model.
Import Js.

Record Location := {
  loc_id : string;
  loc_name : string;
  loc_description : string
}.

(** A quest is a string or an object [{title, description, objectives}]. *)
Inductive Quest :=
| QuestText (s : string)
| QuestObject (title description : string) (objectives : list json).

Record StatusEffect := {
  se_name : string;
  se_description : string;
  se_duration : Q;
  se_effect : json
}.

(** An NPC relationship is a number or a free text. *)
Inductive Relationship :=
| RelNumber (q : Q)
| RelText (s : string).

Inductive EntryType := Action | Narrative | System.

Record HistoryEntry := { entry_type : EntryType; entry_text : string }.

Record LastAction := { la_text : string; la_timestamp : string }.

(** [level] and [statusEffects] may be missing (the state served by
    [loadGame] for a player without a saved game has neither);
    [player_other] holds the properties the pipeline never reads ([name],
    [skills]). *)
Record Player := {
  health : Q;
  inventory : list string;
  quests : list Quest;
  experience : Q;
  level : option Q;
  statusEffects : option (list StatusEffect);
  player_other : props
}.

Record World := {
  world_name : string;
  world_type : string;
  world_description : string
}.

(** [gameOver] is [false] when the property is missing; [other] holds the
    properties the pipeline never reads ([created], [potentialPlotHooks],
    [nearbyLocations], [availableNpcs], [environment]). *)
Record GameState := {
  player : Player;
  world : World;
  currentLocation : Location;
  gameHistory : list HistoryEntry;
  discoveredLocations : list string;
  npcRelationships : list (string * Relationship);
  timeElapsed : Q;
  lastAction : option LastAction;
  gameOver : bool;
  other : props
}.

(** The validated change set: a missing property is [None]. *)
Record Changes := {
  c_health : option Q;
  c_addItems : option (list string);
  c_removeItems : option (list string);
  c_newLocation : option Location;
  c_addQuests : option (list Quest);
  c_npcRelationships : option (list (string * Relationship));
  c_experience : option Q;
  c_statusEffects : option (list StatusEffect)
}.

(** The object [{}]. *)
Definition no_changes : Changes :=
  {| c_health := None; c_addItems := None; c_removeItems := None;
     c_newLocation := None; c_addQuests := None; c_npcRelationships := None;
     c_experience := None; c_statusEffects := None |}.

(** Functional record updates. *)
Definition with_health (h : Q) (p : Player) : Player :=
  {| health := h; inventory := inventory p; quests := quests p;
     experience := experience p; level := level p;
     statusEffects := statusEffects p; player_other := player_other p |}.

Definition with_inventory (l : list string) (p : Player) : Player :=
  {| health := health p; inventory := l; quests := quests p;
     experience := experience p; level := level p;
     statusEffects := statusEffects p; player_other := player_other p |}.

Definition with_quests (l : list Quest) (p : Player) : Player :=
  {| health := health p; inventory := inventory p; quests := l;
     experience := experience p; level := level p;
     statusEffects := statusEffects p; player_other := player_other p |}.

Definition with_experience (x : Q) (p : Player) : Player :=
  {| health := health p; inventory := inventory p; quests := quests p;
     experience := x; level := level p;
     statusEffects := statusEffects p; player_other := player_other p |}.

Definition with_level (l : option Q) (p : Player) : Player :=
  {| health := health p; inventory := inventory p; quests := quests p;
     experience := experience p; level := l;
     statusEffects := statusEffects p; player_other := player_other p |}.

Definition with_statusEffects (l : option (list StatusEffect)) (p : Player)
  : Player :=
  {| health := health p; inventory := inventory p; quests := quests p;
     experience := experience p; level := level p;
     statusEffects := l; player_other := player_other p |}.

Definition with_player (f : Player -> Player) (s : GameState) : GameState :=
  {| player := f (player s); world := world s;
     currentLocation := currentLocation s; gameHistory := gameHistory s;
     discoveredLocations := discoveredLocations s;
     npcRelationships := npcRelationships s; timeElapsed := timeElapsed s;
     lastAction := lastAction s; gameOver := gameOver s; other := other s |}.

Definition with_currentLocation (l : Location) (s : GameState) : GameState :=
  {| player := player s; world := world s;
     currentLocation := l; gameHistory := gameHistory s;
     discoveredLocations := discoveredLocations s;
     npcRelationships := npcRelationships s; timeElapsed := timeElapsed s;
     lastAction := lastAction s; gameOver := gameOver s; other := other s |}.

Definition with_gameHistory (h : list HistoryEntry) (s : GameState) : GameState :=
  {| player := player s; world := world s;
     currentLocation := currentLocation s; gameHistory := h;
     discoveredLocations := discoveredLocations s;
     npcRelationships := npcRelationships s; timeElapsed := timeElapsed s;
     lastAction := lastAction s; gameOver := gameOver s; other := other s |}.

Definition with_discoveredLocations (l : list string) (s : GameState)
  : GameState :=
  {| player := player s; world := world s;
     currentLocation := currentLocation s; gameHistory := gameHistory s;
     discoveredLocations := l;
     npcRelationships := npcRelationships s; timeElapsed := timeElapsed s;
     lastAction := lastAction s; gameOver := gameOver s; other := other s |}.

Definition with_npcRelationships (m : list (string * Relationship))
  (s : GameState) : GameState :=
  {| player := player s; world := world s;
     currentLocation := currentLocation s; gameHistory := gameHistory s;
     discoveredLocations := discoveredLocations s;
     npcRelationships := m; timeElapsed := timeElapsed s;
     lastAction := lastAction s; gameOver := gameOver s; other := other s |}.

Definition with_timeElapsed (t : Q) (s : GameState) : GameState :=
  {| player := player s; world := world s;
     currentLocation := currentLocation s; gameHistory := gameHistory s;
     discoveredLocations := discoveredLocations s;
     npcRelationships := npcRelationships s; timeElapsed := t;
     lastAction := lastAction s; gameOver := gameOver s; other := other s |}.

Definition with_lastAction (a : option LastAction) (s : GameState) : GameState :=
  {| player := player s; world := world s;
     currentLocation := currentLocation s; gameHistory := gameHistory s;
     discoveredLocations := discoveredLocations s;
     npcRelationships := npcRelationships s; timeElapsed := timeElapsed s;
     lastAction := a; gameOver := gameOver s; other := other s |}.

Definition with_gameOver (b : bool) (s : GameState) : GameState :=
  {| player := player s; world := world s;
     currentLocation := currentLocation s; gameHistory := gameHistory s;
     discoveredLocations := discoveredLocations s;
     npcRelationships := npcRelationships s; timeElapsed := timeElapsed s;
     lastAction := lastAction s; gameOver := b; other := other s |}.

End Model.

(* ===================================================================== *)
(** * utils/responseParser.js                                             *)
(* ===================================================================== *)

Module ResponseParser.
Import Js Regex Model.
Local Open Scope js_scope.
Local Open Scope re_scope.

Definition nonempty (s : string) : bool := negb (String.eqb s "").

(** ** sanitizeNarrative *)

(** [/^#+\s+/gm] *)
Definition re_heading : re := Bol +++ Plus (Lit "#") +++ Plus ws.

(** [/```[^`]*```/g] *)
Definition re_fence : re := Str "```" +++ Star true (Not ["`"%char]) +++ Str "```".

(** [/NARRATIVE:/gi] and [/STATE_CHANGES:/gi] *)
Definition re_narrative_marker : re := Str "NARRATIVE:".
Definition re_changes_marker : re := Str "STATE_CHANGES:".

Definition sanitizeNarrative (narrative : string) : string :=
  (* Remove any markdown formatting that might have been added *)
  let sanitized := replace_all flag_m re_heading "" narrative in
  (* Remove any JSON or code blocks *)
  let sanitized := replace_all no_flags re_fence "" sanitized in
  (* Remove any remaining NARRATIVE: or STATE_CHANGES: markers *)
  let sanitized := replace_all flag_i re_narrative_marker "" sanitized in
  let sanitized := replace_all flag_i re_changes_marker "" sanitized in
  trim sanitized.

(** ** validateStateChanges *)

(** [Math.max(0, Math.min(100, x))] *)
Definition clamp_0_100 (x : Q) : Q := Math_max 0 (Math_min 100 x).

(** [.filter(item => typeof item === 'string').map(item => item.trim())] *)
Fixpoint trimmed_strings (l : list json) : list string :=
  match l with
  | [] => []
  | JStr s :: r => trim s :: trimmed_strings r
  | _ :: r => trimmed_strings r
  end.

(** [/\s+/g] *)
Definition re_spaces : re := Plus ws.

Definition normalize_id (s : string) : string :=
  replace_all no_flags re_spaces "_" (toLowerCase s).

(** [{ title: String(q.title).trim(),
       description: q.description ? String(q.description).trim() : '',
       objectives: Array.isArray(q.objectives) ? q.objectives : [] }] *)
Definition quest_object (q : json) : completion Quest :=
  title <- get q "title" ;;
  description <- get q "description" ;;
  objectives <- get q "objectives" ;;
  Normal (QuestObject
            (trim (ToString_opt title))
            (if truthy description then trim (ToString_opt description) else "")
            (match objectives with Some (JArr l) => l | _ => [] end)).

(** [typeof quest === 'string' || (typeof quest === 'object' && quest.title)] *)
Definition quest_ok (quest : json) : completion bool :=
  if typeof_string (Some quest) then Normal true
  else if typeof_object (Some quest) then
    title <- get quest "title" ;; Normal (truthy title)
  else Normal false.

Definition quest_normal (quest : json) : completion Quest :=
  match quest with
  | JStr s => Normal (QuestText (trim s))
  | _ => quest_object quest
  end.

(** One entry of [changes.npcRelationships] written into the validated
    mapping. *)
Definition npc_entry (acc : list (string * Relationship)) (e : string * json)
  : list (string * Relationship) :=
  let '(npc, value) := e in
  let npcName := trim npc in
  match value with
  | JNum q => obj_set acc npcName (RelNumber (clamp_0_100 q))
  | JStr t => obj_set acc npcName (RelText (trim t))
  | _ => acc
  end.

(** [effect && typeof effect === 'object' && effect.name] *)
Definition effect_ok (effect : json) : completion bool :=
  if truthy (Some effect) && typeof_object (Some effect) then
    name <- get effect "name" ;; Normal (truthy name)
  else Normal false.

(** [Number(effect.duration) || 5] *)
Definition duration_or_5 (d : option json) : Q :=
  match ToNumber d with
  | Some q => if Qeqb q 0 then 5%Q else q
  | None => 5%Q
  end.

Definition effect_normal (effect : json) : completion StatusEffect :=
  name <- get effect "name" ;;
  description <- get effect "description" ;;
  duration <- get effect "duration" ;;
  eff <- get effect "effect" ;;
  Normal {| se_name := trim (ToString_opt name);
            se_description :=
              if truthy description then trim (ToString_opt description) else "";
            se_duration := duration_or_5 duration;
            se_effect := match eff with
                         | Some e => if truthy eff then e else JObj []
                         | None => JObj []
                         end |}.

Definition validateStateChanges (changes : json) (currentState : GameState)
  : completion Changes :=
  (* Validate health (must be a number between 0-100) *)
  health <- get changes "health" ;;
  let v_health :=
    match health with
    | Some _ => option_map clamp_0_100 (ToNumber health)
    | None => None
    end in
  (* Validate items to add (must be an array of strings) *)
  addItems <- get changes "addItems" ;;
  let v_addItems :=
    if truthy addItems then
      match addItems with
      | Some (JArr l) => Some (trimmed_strings l)
      | Some (JStr s) => Some [trim s]
      | _ => None
      end
    else None in
  (* Validate items to remove (must be strings that exist in inventory) *)
  removeItems <- get changes "removeItems" ;;
  let held := includes (inventory (player currentState)) in
  let v_removeItems :=
    if truthy removeItems then
      match removeItems with
      | Some (JArr l) => Some (filter held (trimmed_strings l))
      | Some (JStr s) => if held (trim s) then Some [trim s] else None
      | _ => None
      end
    else None in
  (* Validate new location *)
  newLocation <- get changes "newLocation" ;;
  v_newLocation <-
    (if truthy newLocation then
       id <- get_opt newLocation "id" ;;
       name <- get_opt newLocation "name" ;;
       description <- get_opt newLocation "description" ;;
       if truthy id && truthy name && truthy description then
         Normal (Some {| loc_id := normalize_id (ToString_opt id);
                         loc_name := trim (ToString_opt name);
                         loc_description := trim (ToString_opt description) |})
       else Normal None
     else Normal None) ;;
  (* Validate quests to add *)
  addQuests <- get changes "addQuests" ;;
  v_addQuests <-
    (if truthy addQuests then
       match addQuests with
       | Some (JArr l) =>
           kept <- filterM quest_ok l ;;
           qs <- mapM quest_normal kept ;;
           Normal (Some qs)
       | Some (JStr s) => Normal (Some [QuestText (trim s)])
       | Some (JObj m) =>
           title <- get (JObj m) "title" ;;
           if truthy title then
             q <- quest_object (JObj m) ;; Normal (Some [q])
           else Normal None
       | _ => Normal None
       end
     else Normal None) ;;
  (* Validate NPC relationships *)
  npcs <- get changes "npcRelationships" ;;
  let v_npcRelationships :=
    if truthy npcs && typeof_object npcs then
      match npcs with
      | Some v => Some (fold_left npc_entry (Object_entries v) [])
      | None => None
      end
    else None in
  (* Validate experience *)
  exp <- get changes "experience" ;;
  let v_experience :=
    match exp with
    | Some _ => option_map (Math_max 0) (ToNumber exp)
    | None => None
    end in
  (* Validate status effects *)
  effects <- get changes "statusEffects" ;;
  v_statusEffects <-
    (match effects with
     | Some (JArr l) =>
         kept <- filterM effect_ok l ;;
         es <- mapM effect_normal kept ;;
         Normal (Some es)
     | _ => Normal None
     end) ;;
  Normal {| c_health := v_health;
            c_addItems := v_addItems;
            c_removeItems := v_removeItems;
            c_newLocation := v_newLocation;
            c_addQuests := v_addQuests;
            c_npcRelationships := v_npcRelationships;
            c_experience := v_experience;
            c_statusEffects := v_statusEffects |}.

(** ** extractAndFixStateChanges *)

Definition field (name : string) : re :=
  Lit quote +++ Str name +++ Lit quote +++ Lit ":" +++ Star true ws.

(** [/"health":\s*(\d+)/] and [/"experience":\s*(\d+)/] *)
Definition re_number_field (name : string) : re :=
  field name +++ Group 1 (Plus digit).

(** [/"addItems":\s*\[(.*?)\]/s], and the same for [removeItems] and
    [addQuests] *)
Definition re_array_field (name : string) : re :=
  field name +++ Lit "[" +++ Group 1 (Star false Dot) +++ Lit "]".

(** [/"newLocation":\s*\{(.*?)\}/s], and the same for [npcRelationships] *)
Definition re_object_field (name : string) : re :=
  field name +++ Lit "{" +++ Group 1 (Star false Dot) +++ Lit "}".

(** ["id":], whitespace, then a double-quoted run of characters other than
    the double quote, which is the group; the same for [name] and
    [description] *)
Definition re_string_field (name : string) : re :=
  field name +++ Lit quote +++ Group 1 (Star true (Not [quote])) +++ Lit quote.

(** A double-quoted key (group 1), a colon, whitespace, and a run of
    characters other than [,] and [}] (group 2); used with the [g] flag *)
Definition re_pair : re :=
  Lit quote +++ Group 1 (Star true (Not [quote])) +++ Lit quote +++ Lit ":"
  +++ Star true ws +++ Group 2 (Star true (Not [","%char; "}"%char])).

(** A double-quoted run of characters other than the double quote *)
Definition re_key : re :=
  Lit quote +++ Group 1 (Star true (Not [quote])) +++ Lit quote.

(** A colon, whitespace, and a run of characters other than [,] and [}] *)
Definition re_value : re :=
  Lit ":" +++ Star true ws +++ Group 1 (Star true (Not [","%char; "}"%char])).

(** [match && match[1]]: the first group when the pattern matches and the
    group is not empty. *)
Definition captured (fl : flags) (r : re) (text : string) : option string :=
  match exec fl r text with
  | Some mr =>
      match group mr 1 with
      | Some g => if nonempty g then Some g else None
      | None => None
      end
  | None => None
  end.

(** Every double quote removed: [replace] with the [g] flag *)
Definition strip_quotes (s : string) : string :=
  replace_all no_flags (Lit quote) "" s.

(** [text.split(',')], each item trimmed and stripped of its double quotes,
    the empty items dropped *)
Definition list_items (text : string) : list json :=
  map JStr
    (filter nonempty (map (fun item => strip_quotes (trim item)) (split "," text))).

Definition set_number_field (name text : string) (changes : props) : props :=
  match captured no_flags (re_number_field name) text with
  | Some digits =>
      match parseInt10 digits with
      | Some n => obj_set changes name (JNum n)
      | None => changes
      end
  | None => changes
  end.

Definition set_array_field (name text : string) (changes : props) : props :=
  match captured flag_s (re_array_field name) text with
  | Some items => obj_set changes name (JArr (list_items items))
  | None => changes
  end.

Definition set_newLocation (text : string) (changes : props) : props :=
  match captured flag_s (re_object_field "newLocation") text with
  | Some locationText =>
      match exec no_flags (re_string_field "id") locationText,
            exec no_flags (re_string_field "name") locationText,
            exec no_flags (re_string_field "description") locationText with
      | Some idMatch, Some nameMatch, Some descMatch =>
          match group idMatch 1, group nameMatch 1, group descMatch 1 with
          | Some i, Some n, Some d =>
              obj_set changes "newLocation"
                (JObj [("id", JStr i); ("name", JStr n); ("description", JStr d)])
          | _, _, _ => changes
          end
      | _, _, _ => changes
      end
  | None => changes
  end.

(** One [pair] of the relationship text written into the mapping. *)
Definition set_pair (rels : props) (pair : string) : props :=
  match exec no_flags re_key pair, exec no_flags re_value pair with
  | Some keyMatch, Some valueMatch =>
      match group keyMatch 1, group valueMatch 1 with
      | Some key, Some v =>
          let value := trim v in
          (* Try to convert to number if possible *)
          match StringToNumber value with
          | Some numValue => obj_set rels key (JNum numValue)
          | None => obj_set rels key (JStr (strip_quotes value))
          end
      | _, _ => rels
      end
  | _, _ => rels
  end.

Definition set_npcRelationships (text : string) (changes : props) : props :=
  match captured flag_s (re_object_field "npcRelationships") text with
  | Some body =>
      let rels :=
        match match_all no_flags re_pair body with
        | Some pairs => fold_left set_pair pairs []
        | None => []
        end in
      obj_set changes "npcRelationships" (JObj rels)
  | None => changes
  end.

Definition extractAndFixStateChanges (stateChangesText : string)
  : completion json :=
  try_catch
    (let changes := [] in
     let changes := set_number_field "health" stateChangesText changes in
     let changes := set_array_field "addItems" stateChangesText changes in
     let changes := set_array_field "removeItems" stateChangesText changes in
     let changes := set_newLocation stateChangesText changes in
     let changes := set_array_field "addQuests" stateChangesText changes in
     let changes := set_npcRelationships stateChangesText changes in
     let changes := set_number_field "experience" stateChangesText changes in
     Normal (JObj changes))
    (fun _ => Normal (JObj [])).

(** ** parseGameResponse *)

(** [/NARRATIVE:(.*?)(?=STATE_CHANGES:|$)/s] *)
Definition re_narrative : re :=
  Str "NARRATIVE:" +++ Group 1 (Star false Dot)
  +++ Ahead (Alt (Str "STATE_CHANGES:") Eol).

(** [STATE_CHANGES:] and, as the group, everything after it (a greedy
    [.] star under the [s] flag) *)
Definition re_stateChanges : re :=
  Str "STATE_CHANGES:" +++ Group 1 (Star true Dot).

(** [/,\s*}/g] and [/,\s*]/g] *)
Definition re_trailing_comma (close : ascii) : re :=
  Lit "," +++ Star true ws +++ Lit close.

(** Remove any trailing comma that might cause JSON parse errors. *)
Definition cleanJson (jsonString : string) : string :=
  replace_all no_flags (re_trailing_comma "]") "]"
    (replace_all no_flags (re_trailing_comma "}") "}" jsonString).

(** The narrative section: the text after [NARRATIVE:], or the whole
    response when the match fails or its group is empty. *)
Definition extractNarrative (rawResponse : string) : string :=
  match captured flag_s re_narrative rawResponse with
  | Some g => trim g
  | None => rawResponse   (* Fallback if format isn't followed *)
  end.

(** The state-changes section: [stateChangesMatch[1]] when it is there and
    not empty. *)
Definition stateChangesSection (rawResponse : string) : option string :=
  captured flag_s re_stateChanges rawResponse.

(** The decoder: strict parse of the repaired text, else field recovery. *)
Definition decodeStateChanges (section : option string) : completion json :=
  match section with
  | Some text =>
      try_catch
        (JSON.parse (cleanJson (trim text)))
        (fun _ => extractAndFixStateChanges text)
  | None => Normal (JObj [])
  end.

Definition generic_narrative : string :=
  "The magical forces seem confused. Please try another action.".

(** The body of the outer [try]. *)
Definition parseGameResponse_try (rawResponse : string)
  (currentGameState : GameState) : completion (string * Changes) :=
  let narrative := extractNarrative rawResponse in
  stateChanges <- decodeStateChanges (stateChangesSection rawResponse) ;;
  validatedChanges <- validateStateChanges stateChanges currentGameState ;;
  Normal (sanitizeNarrative narrative, validatedChanges).

Definition parseGameResponse (rawResponse : string)
  (currentGameState : GameState) : completion (string * Changes) :=
  try_catch
    (parseGameResponse_try rawResponse currentGameState)
    (fun _ => Normal (generic_narrative, no_changes)).

End ResponseParser.

(* ===================================================================== *)
(** * controllers/gameController.js                                       *)
(* ===================================================================== *)

Module GameController.
Import Js Model.

(** [newState.gameHistory.push({ type, text })] *)
Definition push (type : EntryType) (text : string) (s : GameState) : GameState :=
  with_gameHistory (gameHistory s ++ [{| entry_type := type; entry_text := text |}]) s.

(** ** The steps of updateGameState, in source order *)

(** Update health if provided; check for player death. *)
Definition applyHealth (c : Changes) (s : GameState) : GameState :=
  match c_health c with
  | Some h =>
      let s := with_player (with_health h) s in
      if Qleb (health (player s)) 0 then
        with_gameOver true (push System "You have died. Game over." s)
      else s
  | None => s
  end.

(** Add items to inventory; don't add duplicate items. *)
Definition addItem (s : GameState) (item : string) : GameState :=
  if negb (includes (inventory (player s)) item) then
    let s := with_player (with_inventory (inventory (player s) ++ [item])) s in
    push System ("Added to inventory: " ++ item) s
  else s.

Definition applyAddItems (c : Changes) (s : GameState) : GameState :=
  match c_addItems c with
  | Some items => fold_left addItem items s
  | None => s
  end.

(** [l.splice(l.indexOf(x), 1)] when [x] is in [l]: the first occurrence
    goes. *)
Fixpoint remove_first (x : string) (l : list string) : list string :=
  match l with
  | [] => []
  | y :: r => if String.eqb x y then r else y :: remove_first x r
  end.

(** Remove items from inventory. *)
Definition removeItem (s : GameState) (item : string) : GameState :=
  if includes (inventory (player s)) item then
    let s := with_player (with_inventory (remove_first item (inventory (player s)))) s in
    push System ("Removed from inventory: " ++ item) s
  else s.

Definition applyRemoveItems (c : Changes) (s : GameState) : GameState :=
  match c_removeItems c with
  | Some items => fold_left removeItem items s
  | None => s
  end.

(** Update location; add it to the discovered locations if not already
    present, with experience for discovering a new location. *)
Definition applyNewLocation (c : Changes) (s : GameState) : GameState :=
  match c_newLocation c with
  | Some newLocation =>
      let s := with_currentLocation newLocation s in
      if negb (String.eqb (loc_id newLocation) "")
         && negb (includes (discoveredLocations s) (loc_id newLocation))
      then
        let s := with_discoveredLocations
                   (discoveredLocations s ++ [loc_id newLocation]) s in
        let s := with_player (with_experience (experience (player s) + 10)%Q) s in
        push System ("Discovered new location: " ++ loc_name newLocation) s
      else s
  | None => s
  end.

(** [typeof quest === 'string' ? quests.includes(quest)
                               : quests.some(q => q.title === quest.title)] *)
Definition existingQuest (qs : list Quest) (quest : Quest) : bool :=
  match quest with
  | QuestText t =>
      existsb (fun q => match q with
                        | QuestText t' => String.eqb t' t
                        | QuestObject _ _ _ => false
                        end) qs
  | QuestObject title _ _ =>
      existsb (fun q => match q with
                        | QuestText _ => false
                        | QuestObject title' _ _ => String.eqb title' title
                        end) qs
  end.

Definition questName (quest : Quest) : string :=
  match quest with
  | QuestText t => t
  | QuestObject title _ _ => title
  end.

(** Add quests, with experience for accepting a new quest. *)
Definition addQuest (s : GameState) (quest : Quest) : GameState :=
  if negb (existingQuest (quests (player s)) quest) then
    let s := with_player (with_quests (quests (player s) ++ [quest])) s in
    let s := push System ("New quest: " ++ questName quest) s in
    with_player (with_experience (experience (player s) + 15)%Q) s
  else s.

Definition applyAddQuests (c : Changes) (s : GameState) : GameState :=
  match c_addQuests c with
  | Some l => fold_left addQuest l s
  | None => s
  end.

(** Update NPC relationships. *)
Definition applyNpcRelationships (c : Changes) (s : GameState) : GameState :=
  match c_npcRelationships c with
  | Some m =>
      fold_left
        (fun s e => with_npcRelationships (obj_set (npcRelationships s) (fst e) (snd e)) s)
        (own_entries m) s
  | None => s
  end.

Definition active (s : GameState) : list StatusEffect :=
  match statusEffects (player s) with
  | Some l => l
  | None => []
  end.

(** Add effect with duration if not already present. *)
Definition addEffect (s : GameState) (effect : StatusEffect) : GameState :=
  if negb (existsb (fun e => String.eqb (se_name e) (se_name effect)) (active s))
  then
    let e := {| se_name := se_name effect;
                se_description := se_description effect;
                se_duration := if Qeqb (se_duration effect) 0 then 5%Q
                               else se_duration effect;   (* [duration || 5] *)
                se_effect := se_effect effect |} in
    let s := with_player (with_statusEffects (Some (active s ++ [e])%list)) s in
    push System
      ("Status effect: " ++ se_name effect ++ " - " ++ se_description effect) s
  else s.

Definition applyStatusEffects (c : Changes) (s : GameState) : GameState :=
  match c_statusEffects c with
  | Some l =>
      let s :=
        match statusEffects (player s) with
        | Some _ => s
        | None => with_player (with_statusEffects (Some [])) s
        end in
      fold_left addEffect l s
  | None => s
  end.

(** Update experience points. *)
Definition applyExperience (c : Changes) (s : GameState) : GameState :=
  match c_experience c with
  | Some experienceGain =>
      if negb (Qeqb experienceGain 0) then
        let s := with_player
                   (with_experience (experience (player s) + experienceGain)%Q) s in
        if Qltb 0 experienceGain then
          push System ("Experience gained: " ++ Number_toString experienceGain) s
        else s
      else s
  | None => s
  end.

(** Decrement duration of status effects and remove expired ones. *)
Definition tick (e : StatusEffect) : StatusEffect :=
  {| se_name := se_name e; se_description := se_description e;
     se_duration := (se_duration e - 1)%Q; se_effect := se_effect e |}.

Definition decrementStatusEffects (s : GameState) : GameState :=
  match statusEffects (player s) with
  | Some (e :: l) =>
      with_player
        (with_statusEffects
           (Some (filter (fun e => Qltb 0 (se_duration e)) (map tick (e :: l)))))
        s
  | _ => s
  end.

(** Increment time; every 24 time units (1 day), apply day changes. *)
Definition advanceTime (s : GameState) : GameState :=
  let s := with_timeElapsed (timeElapsed s + 1)%Q s in
  if Qeqb (rem (timeElapsed s) 24) 0 then
    let s := with_player
               (with_health (Math_min 100 (health (player s) + 10)%Q)) s in
    push System
      ("Day " ++ Number_toString (Math_floor (timeElapsed s / 24)%Q)
       ++ " begins. You feel refreshed.") s
  else s.

(** [newState.player.level || 1] *)
Definition currentLevel (s : GameState) : Q :=
  match level (player s) with
  | Some l => if Qeqb l 0 then 1%Q else l
  | None => 1%Q
  end.

(** Level up if enough experience. *)
Definition levelUp (s : GameState) : GameState :=
  let currentLevel := currentLevel s in
  let experienceThreshold := (100 * currentLevel)%Q in
  if Qleb experienceThreshold (experience (player s)) then
    let s := with_player (with_level (Some (currentLevel + 1)%Q)) s in
    let s := with_player
               (with_experience (experience (player s) - experienceThreshold)%Q) s in
    let s := with_player (with_health 100%Q) s in
    push System
      ("Level Up! You are now level " ++ Number_toString (currentLevel + 1)%Q ++ ".") s
  else s.

(** [l.slice(-n)] *)
Definition slice_last {A} (n : nat) (l : list A) : list A :=
  skipn (List.length l - n) l.

(** Limit history to last 50 entries to prevent excessive growth. *)
Definition limitHistory (s : GameState) : GameState :=
  if Nat.ltb 50 (List.length (gameHistory s)) then
    with_gameHistory (slice_last 50 (gameHistory s)) s
  else s.

(** ** updateGameState

    [now] is the value of [new Date().toISOString()] read by this call.  The
    deep clone [JSON.parse(JSON.stringify(currentState))] of a state made of
    JSON data is the state itself; the previous state is a value and is
    never modified. *)
Definition updateGameState (currentState : GameState) (action narrative : string)
  (stateChanges : Changes) (now : string) : GameState :=
  let newState := currentState in
  (* Add the action and response to history *)
  let newState := push Action action newState in
  let newState := push Narrative narrative newState in
  (* Update last action timestamp *)
  let newState :=
    with_lastAction (Some {| la_text := action; la_timestamp := now |}) newState in
  (* Apply state changes from LLM *)
  let newState := applyHealth stateChanges newState in
  let newState := applyAddItems stateChanges newState in
  let newState := applyRemoveItems stateChanges newState in
  let newState := applyNewLocation stateChanges newState in
  let newState := applyAddQuests stateChanges newState in
  let newState := applyNpcRelationships stateChanges newState in
  let newState := applyStatusEffects stateChanges newState in
  let newState := applyExperience stateChanges newState in
  let newState := decrementStatusEffects newState in
  let newState := advanceTime newState in
  let newState := levelUp newState in
  limitHistory newState.

(** ** initializeGameState *)

(** What [initializeGameState] reads of the world the generator returned;
    the last four properties may be missing. *)
Record WorldSettings := {
  ws_name : string;
  ws_type : string;
  ws_description : string;
  ws_startingLocation : Location;
  ws_introText : string;
  ws_potentialPlotHooks : option json;
  ws_nearbyLocations : option json;
  ws_npcs : option json;
  ws_environment : option json
}.

(** [v || d] *)
Definition or_default (v : option json) (d : json) : json :=
  match v with
  | Some x => if truthy v then x else d
  | None => d
  end.

(** [now] is the value of [new Date().toISOString()] read by this call. *)
Definition initializeGameState (worldSettings : WorldSettings)
  (characterName : string) (now : string) : GameState :=
  {| player :=
       {| health := 100;
          inventory := ["torch"; "water flask"; "map"];
          quests := [];
          experience := 0;
          level := Some 1%Q;
          statusEffects := Some [];
          player_other := [("name", JStr characterName); ("skills", JObj [])] |};
     world :=
       {| world_name := ws_name worldSettings;
          world_type := ws_type worldSettings;
          world_description := ws_description worldSettings |};
     currentLocation := ws_startingLocation worldSettings;
     gameHistory :=
       [{| entry_type := Narrative; entry_text := ws_introText worldSettings |}];
     discoveredLocations := [loc_id (ws_startingLocation worldSettings)];
     npcRelationships := [];
     timeElapsed := 0;
     lastAction := None;
     gameOver := false;
     other :=
       [("created", JStr now);
        ("potentialPlotHooks",
          or_default (ws_potentialPlotHooks worldSettings) (JArr []));
        ("nearbyLocations",
          or_default (ws_nearbyLocations worldSettings) (JArr []));
        ("availableNpcs", or_default (ws_npcs worldSettings) (JArr []));
        ("environment",
          or_default (ws_environment worldSettings)
            (JObj [("time", JStr "day"); ("weather", JStr "clear");
                   ("season", JStr "summer")]))] |}.

(** ** processAction: the turn

    The request handler without its transport: the current state, the action
    and the text the model returned for it.  A game that is over is refused;
    otherwise the response is parsed and validated against the current state
    and the reducer applied. *)
Inductive Reply :=
| GameOverReply (gameState : GameState)                 (* status 400 *)
| Turn (narrative : string) (stateChanges : Changes) (gameState : GameState)
| Failed (e : exn).                                     (* status 500 *)

Definition applyTurn (currentState : GameState) (action rawResponse now : string)
  : completion (string * GameState) :=
  bind (ResponseParser.parseGameResponse rawResponse currentState) (fun r =>
  let '(narrative, stateChanges) := r in
  Normal (narrative,
          updateGameState currentState action narrative stateChanges now)).

Definition processAction (currentState : GameState) (action rawResponse now : string)
  : Reply :=
  (* Check if game is over *)
  if gameOver currentState then GameOverReply currentState
  else
    match ResponseParser.parseGameResponse rawResponse currentState with
    | Normal (narrative, stateChanges) =>
        Turn narrative stateChanges
             (updateGameState currentState action narrative stateChanges now)
    | Throw e => Failed e
    end.

End GameController.

(* ===================================================================== *)
(** * services/worldGenerator.js                                          *)
(* ===================================================================== *)

Module WorldGenerator.
Import Js Regex.
Local Open Scope js_scope.
Local Open Scope re_scope.

Definition obj3 (id name description : string) : json :=
  JObj [("id", JStr id); ("name", JStr name); ("description", JStr description)].

Definition npc (id name description : string) (relationship : Q) : json :=
  JObj [("id", JStr id); ("name", JStr name); ("description", JStr description);
        ("relationship", JNum relationship)].

Definition named (name description : string) : json :=
  JObj [("name", JStr name); ("description", JStr description)].

Definition strings (l : list string) : json := JArr (map JStr l).

(** ** getFallbackWorld *)

Definition getFallbackWorld : json :=
  JObj [
    ("type", JStr "fantasy");
    ("name", JStr "Eldoria");
    ("description", JStr "A realm of magic and mystery, where ancient forests hide forgotten secrets and mythical creatures roam the wilderness.");
    ("startingLocation",
      obj3 "forest_edge" "Forest Edge"
        "A dense, misty forest with ancient trees. A narrow path winds its way between massive trunks, disappearing into the shadows. The air is thick with the scent of moss and rain.");
    ("introText", JStr "You find yourself standing at the edge of a dense, misty forest. A narrow path winds its way between ancient trees, disappearing into the shadows. The air is thick with the scent of moss and rain. In the distance, you hear the faint sound of flowing water and what might be voices. Your journey in Eldoria begins here, at the threshold of the unknown.");
    ("potentialPlotHooks",
      strings ["Strange symbols carved into trees";
               "Rumors of a hidden temple";
               "Villagers disappearing in the night"]);
    ("factions",
      JArr [named "The Guardians of the Grove"
              "Protectors of the forest who follow ancient druidic traditions.";
            named "The Imperial Order"
              "Representatives of the distant empire, seeking to expand their influence."]);
    ("keyItems",
      JArr [named "Ancient Amulet"
              "A mysterious amulet that glows faintly in the presence of magic.";
            named "Forest Map"
              "A weathered map showing hidden paths through the dense woods."]);
    ("nearbyLocations",
      JArr [obj3 "village_clearing" "Village Clearing"
              "A small settlement at the edge of the forest where traders and travelers rest.";
            obj3 "ancient_ruins" "Ancient Ruins"
              "Crumbling stone structures covered in vines and moss, hinting at a civilization long gone.";
            obj3 "mystic_grove" "Mystic Grove"
              "A peaceful clearing where magical flora grows and strange lights float in the air."]);
    ("npcs",
      JArr [npc "village_elder" "Elder Thorne"
              "A wise village elder with knowledge of the forest and its secrets." 50;
            npc "wandering_merchant" "Trader Lyra"
              "A traveling merchant who deals in rare and unusual goods." 50;
            npc "mysterious_stranger" "The Hooded Figure"
              "A silent observer who seems to appear and disappear at will." 30]);
    ("environment",
      JObj [("time", JStr "dusk"); ("weather", JStr "misty");
            ("season", JStr "autumn")])
  ].

(** ** validateWorldData *)

(** [{ ...v }]: the own enumerable properties of [v]. *)
Definition spread (v : json) : props :=
  match v with
  | JObj m => m
  | JArr l => index_entries 0 l
  | JStr t => index_entries 0 (map (fun c => JStr (String c EmptyString))
                                   (list_ascii_of_string t))
  | _ => []
  end.

(** [v.k = x].  The file is not in strict mode: a write on a primitive is
    lost.  A property written on an array is not represented. *)
Definition set_prop (v : json) (k : string) (x : json) : json :=
  match v with
  | JObj m => JObj (obj_set m k x)
  | _ => v
  end.

(** [v.toLowerCase()]: a TypeError unless [v] is a string. *)
Definition call_toLowerCase (v : option json) : completion string :=
  match v with
  | Some (JStr t) => Normal (toLowerCase t)
  | _ => Throw TypeError
  end.

(** [if (!o.k) o.k = d] *)
Definition default_prop (k : string) (d : json) (m : props) : props :=
  if truthy (obj_get m k) then m else obj_set m k d.

(** [!v || !Array.isArray(v) || v.length === 0] *)
Definition missing_list (v : option json) : bool :=
  match v with
  | Some (JArr (_ :: _)) => false
  | _ => true
  end.

Definition default_list (k : string) (d : json) (m : props) : props :=
  if missing_list (obj_get m k) then obj_set m k d else m.

Definition default_startingLocation : json :=
  obj3 "starting_point" "Starting Point" "The beginning of your adventure.".

(** The starting location when one is given. *)
Definition validate_startingLocation (loc : json) : completion json :=
  id <- get loc "id" ;;
  loc <-
    (if truthy id then
       (* Convert location id to lowercase with underscores *)
       lowered <- call_toLowerCase id ;;
       Normal (set_prop loc "id"
                 (JStr (replace_all no_flags (Plus ws) "_" lowered)))
     else Normal (set_prop loc "id" (JStr "starting_point"))) ;;
  name <- get loc "name" ;;
  let loc := if truthy name then loc
             else set_prop loc "name" (JStr "Starting Point") in
  description <- get loc "description" ;;
  Normal (if truthy description then loc
          else set_prop loc "description"
                 (JStr "The beginning of your adventure.")).

Definition validateWorldData (worldData : json) : completion json :=
  let validated := spread worldData in
  (* Ensure required fields are present *)
  let validated := default_prop "type" (JStr "fantasy") validated in
  let validated := default_prop "name" (JStr "Unnamed Realm") validated in
  let validated :=
    default_prop "description"
      (JStr "A mysterious world awaiting exploration.") validated in
  (* Ensure starting location has all required fields *)
  validated <-
    (match obj_get validated "startingLocation" with
     | Some loc =>
         if truthy (Some loc) then
           loc' <- validate_startingLocation loc ;;
           Normal (obj_set validated "startingLocation" loc')
         else
           Normal (obj_set validated "startingLocation" default_startingLocation)
     | None =>
         Normal (obj_set validated "startingLocation" default_startingLocation)
     end) ;;
  (* Ensure intro text is present *)
  validated <-
    (if truthy (obj_get validated "introText") then Normal validated
     else
       startName <- get_opt (obj_get validated "startingLocation") "name" ;;
       Normal (obj_set validated "introText"
                 (JStr ("Welcome to " ++ ToString_opt (obj_get validated "name")
                        ++ ", a " ++ ToString_opt (obj_get validated "type")
                        ++ " world waiting to be explored. Your adventure begins at "
                        ++ ToString_opt startName ++ ".")))) ;;
  (* Ensure potential plot hooks are present *)
  let validated :=
    default_list "potentialPlotHooks"
      (strings ["Strange rumors of disappearances in the area";
                "A mysterious artifact that locals speak of in hushed tones";
                "Political tension between rival factions"]) validated in
  (* Ensure factions are present *)
  let validated :=
    default_list "factions"
      (JArr [named "The Guardians"
               "Protectors of the old ways and keepers of ancient knowledge.";
             named "The Seekers"
               "A group dedicated to uncovering lost treasures and forgotten magic."])
      validated in
  (* Ensure key items are present *)
  let validated :=
    default_list "keyItems"
      (JArr [named "Ancient Map"
               "A weathered map showing locations of mysterious significance.";
             named "Strange Amulet"
               "An amulet that seems to pulse with unknown energy."])
      validated in
  Normal (JObj validated).

(** ** parseWorldGeneration *)

(** [/{[\s\S]*}/] *)
Definition re_json : re :=
  Lit "{" +++ Star true (Class false [ASpace; ANotSpace]) +++ Lit "}".

Definition parseWorldGeneration (response : string) : completion json :=
  try_catch
    (match exec no_flags re_json response with
     | Some jsonMatch =>
         worldData <- JSON.parse (matched jsonMatch) ;;
         validateWorldData worldData
     | None =>
         Throw (Error "Could not extract valid JSON from world generation response")
     end)
    (fun _ => Normal getFallbackWorld).

(** ** generateNearbyLocations, generateBasicNPCs, generateEnvironment *)

(** [sets[key] || sets.fantasy] for a table whose first entry is [fantasy].
    (The keys [constructor] and [__proto__], which a JavaScript object
    inherits, are no world type of the model.) *)
Definition lookup_or_fantasy {A} (sets : list (string * A)) (fantasy : A)
  (key : string) : A :=
  match obj_get sets key with
  | Some x => x
  | None => fantasy
  end.

Definition fantasy_locations : json :=
  JArr [obj3 "village_square" "Village Square"
          "The bustling center of the nearby settlement, filled with merchants and townsfolk.";
        obj3 "ancient_ruins" "Ancient Ruins"
          "Crumbling stone structures covered in vines and moss, hinting at a civilization long gone.";
        obj3 "dark_forest" "Dark Forest"
          "A dense forest where sunlight barely penetrates the thick canopy of leaves overhead."].

Definition locationSets : list (string * json) :=
  [("fantasy", fantasy_locations);
   ("sci-fi",
     JArr [obj3 "space_port" "Space Port"
             "A busy docking area for interstellar vessels, filled with travelers from distant worlds.";
           obj3 "research_lab" "Research Laboratory"
             "A sterile facility where scientists conduct experiments with advanced technology.";
           obj3 "alien_market" "Xenomarket"
             "A crowded market where traders sell exotic goods from across the galaxy."]);
   ("post-apocalyptic",
     JArr [obj3 "ruined_city" "Ruined City"
             "The hollow shell of a once-thriving metropolis, now home to scavengers and dangers.";
           obj3 "survivor_camp" "Survivor Camp"
             "A fortified encampment where the remaining humans have banded together for safety.";
           obj3 "toxic_wastes" "Toxic Wastes"
             "A hazardous area where chemicals have contaminated the landscape, creating mutated flora and fauna."]);
   ("steampunk",
     JArr [obj3 "clockwork_district" "Clockwork District"
             "A section of the city filled with whirring gears and steam-powered machinery.";
           obj3 "airship_docks" "Airship Docks"
             "Massive platforms where airships dock, loading and unloading passengers and cargo.";
           obj3 "inventors_guild" "Inventors' Guild"
             "A prestigious building where brilliant minds develop new mechanical wonders."]);
   ("cyberpunk",
     JArr [obj3 "neon_market" "Neon Market"
             "A chaotic marketplace illuminated by colorful holographic advertisements.";
           obj3 "corporate_sector" "Corporate Sector"
             "Towering skyscrapers where megacorporations control the fate of millions.";
           obj3 "underground_club" "Underground Club"
             "A hidden nightclub where hackers and rebels gather away from prying eyes."])].

Definition generateNearbyLocations (worldData : json) : completion json :=
  type <- get worldData "type" ;;
  locationType <- call_toLowerCase type ;;
  (* Get the appropriate location set or use fantasy as default *)
  Normal (lookup_or_fantasy locationSets fantasy_locations locationType).

Definition fantasy_npcs : json :=
  JArr [npc "village_elder" "Elder Thorne"
          "A wise village elder with knowledge of the land." 50;
        npc "mysterious_stranger" "The Hooded Figure"
          "A traveler who speaks little but seems to know much about recent events." 30;
        npc "tavern_keeper" "Innkeeper Mira"
          "The cheerful proprietor of the local tavern, a hub of gossip and information." 60].

Definition npcSets : list (string * json) :=
  [("fantasy", fantasy_npcs);
   ("sci-fi",
     JArr [npc "station_ai" "ARIA"
             "The artificial intelligence that manages the station systems." 50;
           npc "smuggler" "Captain Rax"
             "A ship captain who transports goods of questionable legality across systems." 40;
           npc "scientist" "Dr. Elara Vex"
             "A brilliant xenobiologist studying alien lifeforms." 55]);
   ("post-apocalyptic",
     JArr [npc "wasteland_guide" "Scrapper Jones"
             "A seasoned survivor who knows how to navigate the dangerous wastes." 45;
           npc "trade_merchant" "Barter"
             "A resourceful merchant who deals in salvaged goods and vital supplies." 50;
           npc "doctor" "Doc Myers"
             "One of the few remaining medical professionals, treating injuries and radiation sickness." 60]);
   ("steampunk",
     JArr [npc "inventor" "Professor Cogsworth"
             "An eccentric inventor always working on the next revolutionary device." 55;
           npc "airship_captain" "Captain Victoria Wells"
             "The stern but fair captain of an airship that travels between major cities." 50;
           npc "aristocrat" "Lord Pemberton"
             "A wealthy nobleman with connections throughout high society." 40]);
   ("cyberpunk",
     JArr [npc "hacker" "Glitch"
             "A skilled netrunner who can breach almost any security system for the right price." 45;
           npc "fixer" "Jax"
             "A well-connected middleman who arranges jobs and deals in the shadows." 50;
           npc "street_doc" "Dr. Circuit"
             "An underground surgeon specializing in cybernetic implants and modifications." 55])].

Definition generateBasicNPCs (worldData : json) : completion json :=
  type <- get worldData "type" ;;
  worldType <- call_toLowerCase type ;;
  (* Get the appropriate NPC set or use fantasy as default *)
  Normal (lookup_or_fantasy npcSets fantasy_npcs worldType).

(** The three values [Math.random()] returns to one call of
    [generateEnvironment], each in the interval from 0 (included) to 1
    (excluded). *)
Record Draws := { r_time : Q; r_weather : Q; r_season : Q }.

(** [options[Math.floor(r * options.length)]] *)
Definition pick (options : list string) (r : Q) : option json :=
  let i := Qfloor (r * inject_Z (Z.of_nat (List.length options)))%Q in
  if (i <? 0)%Z then None
  else option_map JStr (nth_error options (Z.to_nat i)).

Definition timeOptions : list string :=
  ["dawn"; "morning"; "midday"; "afternoon"; "dusk"; "evening"; "night"; "midnight"].

Definition fantasy_weather : list string :=
  ["clear"; "cloudy"; "rainy"; "foggy"; "stormy"; "windy"].

Definition weatherSets : list (string * list string) :=
  [("fantasy", fantasy_weather);
   ("sci-fi", ["clear"; "meteor shower"; "solar flare"; "artificial weather";
               "atmosphere fluctuation"]);
   ("post-apocalyptic", ["toxic haze"; "acid rain"; "radiation storm";
                         "dust storm"; "nuclear winter"]);
   ("steampunk", ["smoggy"; "foggy"; "rainy"; "clear with airship traffic";
                  "coal dust clouds"]);
   ("cyberpunk", ["acid rain"; "smog"; "neon-lit darkness"; "pollution haze";
                  "artificial weather"])].

(** An object literal; a property whose value is [undefined] is left out
    (it has no JSON image). *)
Definition object_of (l : list (string * option json)) : props :=
  fold_left (fun m kv => match snd kv with
                         | Some v => obj_set m (fst kv) v
                         | None => m
                         end) l [].

Definition generateEnvironment (worldData : json) (rnd : Draws)
  : completion json :=
  type <- get worldData "type" ;;
  worldType <- call_toLowerCase type ;;
  let weatherOptions := lookup_or_fantasy weatherSets fantasy_weather worldType in
  Normal (JObj (object_of
    [("time", pick timeOptions (r_time rnd));
     ("weather", pick weatherOptions (r_weather rnd));
     ("season", pick ["spring"; "summer"; "autumn"; "winter"] (r_season rnd))])).

(** ** enhanceWorldData *)

Definition enhanceWorldData (worldData : json) (rnd : Draws) : completion json :=
  (* Generate nearby locations based on the starting location *)
  nearbyLocations <- generateNearbyLocations worldData ;;
  (* Generate some basic NPCs *)
  npcs <- generateBasicNPCs worldData ;;
  (* Add weather and time of day *)
  environment <- generateEnvironment worldData rnd ;;
  (* Return the enhanced world *)
  let w := spread worldData in
  let w := obj_set w "nearbyLocations" nearbyLocations in
  let w := obj_set w "npcs" npcs in
  let w := obj_set w "environment" environment in
  Normal (JObj w).

(** ** generateWorld

    [openai] is the model call: the completion text for the prompt built
    from the requested world type, or the failure of the call. *)
Definition generateWorld (openai : option string -> completion string)
  (worldType : option string) (rnd : Draws) : completion json :=
  try_catch
    (content <- openai worldType ;;
     (* Parse the response *)
     worldData <- parseWorldGeneration content ;;
     (* Add additional content elements to the world *)
     enhanceWorldData worldData rnd)
    (* Return fallback world in case of errors *)
    (fun _ => Normal getFallbackWorld).

End WorldGenerator.

(* ===================================================================== *)
(** * The turn pipeline, sample data and the notions of the claims        *)
(* ===================================================================== *)

Module Pipeline.
Import Js Regex Model ResponseParser GameController WorldGenerator.

(** What [parseGameResponse] hands to the reducer once the response is
    split and decoded: the sanitized narrative with the validated change
    set, or the generic narrative with [{}] when validation throws. *)
Definition validated (changes : json) (narrative : string) (s : GameState)
  : string * Changes :=
  match validateStateChanges changes s with
  | Normal ch => (narrative, ch)
  | Throw _ => (generic_narrative, no_changes)
  end.

(** validateStateChanges, then updateGameState. *)
Definition turnPipeline (s : GameState) (changes : json)
  (action narrative now : string) : GameState :=
  let '(n, ch) := validated changes narrative s in
  updateGameState s action n ch now.

(** One turn of a play: a decoded change set with the action, the narrative
    and the clock reading. *)
Record TurnInput := {
  t_changes : json;
  t_action : string;
  t_narrative : string;
  t_now : string
}.

Definition play (s : GameState) (turns : list TurnInput) : GameState :=
  fold_left
    (fun s t => turnPipeline s (t_changes t) (t_action t) (t_narrative t) (t_now t))
    turns s.

(** A text in which each apostrophe stands for a double quote. *)
Definition dq (s : string) : string :=
  string_map (fun c => if Ascii.eqb c "'" then quote else c) s.

(** A change set with one property. *)
Definition only_health (h : Q) : Changes :=
  {| c_health := Some h; c_addItems := None; c_removeItems := None;
     c_newLocation := None; c_addQuests := None; c_npcRelationships := None;
     c_experience := None; c_statusEffects := None |}.

Definition only_experience (x : Q) : Changes :=
  {| c_health := None; c_addItems := None; c_removeItems := None;
     c_newLocation := None; c_addQuests := None; c_npcRelationships := None;
     c_experience := Some x; c_statusEffects := None |}.

Definition only_newLocation (l : Location) : Changes :=
  {| c_health := None; c_addItems := None; c_removeItems := None;
     c_newLocation := Some l; c_addQuests := None; c_npcRelationships := None;
     c_experience := None; c_statusEffects := None |}.

(** The change set without its [newLocation]. *)
Definition without_newLocation (c : Changes) : Changes :=
  {| c_health := c_health c; c_addItems := c_addItems c;
     c_removeItems := c_removeItems c; c_newLocation := None;
     c_addQuests := c_addQuests c; c_npcRelationships := c_npcRelationships c;
     c_experience := c_experience c; c_statusEffects := c_statusEffects c |}.

Definition forest_edge : Location :=
  {| loc_id := "forest_edge"; loc_name := "Forest Edge";
     loc_description := "A dense, misty forest with ancient trees." |}.

(** A player of level [lvl] with [xp] experience and [hp] health, in a
    fresh game. *)
Definition sample_state (hp xp lvl : Q) (effects : list StatusEffect)
  : GameState :=
  {| player :=
       {| health := hp;
          inventory := ["torch"; "water flask"; "map"];
          quests := [];
          experience := xp;
          level := Some lvl;
          statusEffects := Some effects;
          player_other := [] |};
     world := {| world_name := "Eldoria"; world_type := "fantasy";
                 world_description := "A realm of magic and mystery." |};
     currentLocation := forest_edge;
     gameHistory := [];
     discoveredLocations := ["forest_edge"];
     npcRelationships := [];
     timeElapsed := 0;
     lastAction := None;
     gameOver := false;
     other := [] |}.

Definition newline : string := String (chr 10) EmptyString.





(** What only grows: a game that is over stays over, the history and the
    discovered locations are extended at the end. *)
Definition grows (s s' : GameState) : Prop :=
  (gameOver s = true -> gameOver s' = true)
  /\ (exists l, gameHistory s' = gameHistory s ++ l)%list
  /\ (exists l, discoveredLocations s' = discoveredLocations s ++ l)%list.

(** What the middle steps leave alone. *)
Definition same_vitals (s s' : GameState) : Prop :=
  health (player s') = health (player s)
  /\ level (player s') = level (player s)
  /\ timeElapsed s' = timeElapsed s.

(** The reducer in four parts: the opening (history and last action), the
    health change, the steps that leave health, level and time alone, and
    the closing steps (time, leveling, history cap). *)
Definition opening (s : GameState) (action narrative now : string) : GameState :=
  with_lastAction (Some {| la_text := action; la_timestamp := now |})
    (push Narrative narrative (push Action action s)).

Definition middle (c : Changes) (s : GameState) : GameState :=
  decrementStatusEffects
    (applyExperience c
      (applyStatusEffects c
        (applyNpcRelationships c
          (applyAddQuests c
            (applyNewLocation c
              (applyRemoveItems c
                (applyAddItems c s))))))).

(** The state the leveling step receives. *)
Definition beforeLevelUp (s : GameState) (action narrative : string)
  (c : Changes) (now : string) : GameState :=
  advanceTime (middle c (applyHealth c (opening s action narrative now))).

(** A change set whose health, when present, lies between 0 and 100. *)
Definition health_in_range (c : Changes) : Prop :=
  forall h, c_health c = Some h -> (0 <= h <= 100)%Q.


(** A history entry. *)
Definition entry (t : EntryType) (x : string) : HistoryEntry :=
  {| entry_type := t; entry_text := x |}.

(** The state with its current location and last action replaced (each
    when given): the two properties no later step of the reducer reads. *)
Definition retag (loc : option Location) (la : option (option LastAction))
  (s : GameState) : GameState :=
  {| player := player s; world := world s;
     currentLocation := match loc with Some l => l | None => currentLocation s end;
     gameHistory := gameHistory s;
     discoveredLocations := discoveredLocations s;
     npcRelationships := npcRelationships s; timeElapsed := timeElapsed s;
     lastAction := match la with Some a => a | None => lastAction s end;
     gameOver := gameOver s; other := other s |}.

(** The steps before and after the location change. *)
Definition early (c : Changes) (s : GameState) : GameState :=
  applyRemoveItems c (applyAddItems c (applyHealth c s)).

Definition late (c : Changes) (s : GameState) : GameState :=
  limitHistory
    (levelUp
      (advanceTime
        (decrementStatusEffects
          (applyExperience c
            (applyStatusEffects c
              (applyNpcRelationships c
                (applyAddQuests c s))))))).

(** The malformed state-changes section, as it follows the marker. *)
Definition malformed_section : string :=
  dq " {'health': 50, 'addItems': [oops}".

Definition malformed_response : string :=
  "NARRATIVE: You walk." ++ newline ++ "STATE_CHANGES:" ++ malformed_section.

(** No field pattern of the fallback decoder matches [text]. *)
Definition no_field_matches (text : string) : Prop :=
  exec no_flags (re_number_field "health") text = None
  /\ exec flag_s (re_array_field "addItems") text = None
  /\ exec flag_s (re_array_field "removeItems") text = None
  /\ exec flag_s (re_object_field "newLocation") text = None
  /\ exec flag_s (re_array_field "addQuests") text = None
  /\ exec flag_s (re_object_field "npcRelationships") text = None
  /\ exec no_flags (re_number_field "experience") text = None.

(** A response whose narrative section is empty: the two markers follow
    each other. *)
Definition empty_narrative_response : string :=
  dq "NARRATIVE:STATE_CHANGES: {'health': 40}".

(** What follows a run of whitespace closed by [close], when [s] starts
    with one. *)
Fixpoint after_ws (close : ascii) (s : string) : option string :=
  match s with
  | String c r =>
      if is_space c then after_ws close r
      else if Ascii.eqb close c then Some r else None
  | EmptyString => None
  end.

Fixpoint all_space (s : string) : bool :=
  match s with
  | String c r => is_space c && all_space r
  | EmptyString => true
  end.

(** Valid JSON whose string value holds a comma followed by a closing
    brace (bracket). *)
Definition string_literal_with_brace : string :=
  dq "{'addItems': ['rope, }knife']}".

Definition string_literal_with_bracket : string :=
  dq "{'addItems': ['rope,]knife']}".

(** No JSON object can be parsed from [content]: the pattern finds no
    braces, or JSON.parse throws on what it finds. *)
Definition unparseable (content : string) : Prop :=
  match exec no_flags re_json content with
  | Some jsonMatch => exists e, JSON.parse (matched jsonMatch) = Throw e
  | None => True
  end.

(** The properties of the fallback world. *)
Definition fallback_props : props :=
  match getFallbackWorld with
  | JObj m => m
  | _ => []
  end.

(** The fallback world after enhanceWorldData. *)
Definition enhanced_fallback (environment : json) : json :=
  JObj (obj_set (obj_set (obj_set fallback_props
                            "nearbyLocations" fantasy_locations)
                   "npcs" fantasy_npcs)
          "environment" environment).

(** The environment drawn for a fantasy world. *)
Definition drawn_environment (rnd : Draws) : json :=
  JObj (object_of
    [("time", pick timeOptions (r_time rnd));
     ("weather", pick fantasy_weather (r_weather rnd));
     ("season", pick ["spring"; "summer"; "autumn"; "winter"] (r_season rnd))]).

(** A model reply without any JSON, and three draws. *)
Definition no_json_reply : option string -> completion string :=
  fun _ => Normal "I cannot do that".

Definition sample_draws : Draws :=
  {| r_time := 0; r_weather := 0; r_season := 0 |}.

End Pipeline.

(* ===================================================================== *)
(** * Notions used to state what the rest of the code does              *)
(* ===================================================================== *)

(** The reducer [updateGameState] seen field by field. *)
Module ReducerNotions.
Import Js Regex Model ResponseParser GameController WorldGenerator Pipeline.

(** [inventory.push(item)] unless the item is there. *)
Definition add_item (l : list string) (item : string) : list string :=
  if includes l item then l else (l ++ [item])%list.

Definition or_nil {A} (o : option (list A)) : list A :=
  match o with Some l => l | None => [] end.

(** The inventory a turn leaves: the additions, then the removals. *)
Definition inventory_after (c : Changes) (l : list string) : list string :=
  fold_left (fun l x => remove_first x l) (or_nil (c_removeItems c))
    (fold_left add_item (or_nil (c_addItems c)) l).

(** How many entries a list has, as a number. *)
Definition count {A} (l : list A) : Q := inject_Z (Z.of_nat (List.length l)).

(** The experience a player has earned in all: what is in hand plus the
    thresholds 100, 200, ... paid for the levels reached. *)
Definition cumulativeExperience (s : GameState) : Q :=
  (experience (player s) + 50 * currentLevel s * (currentLevel s - 1))%Q.

(** The experience the change set awards. *)
Definition award (c : Changes) : Q :=
  match c_experience c with Some x => x | None => 0%Q end.

(** Experience in hand, less what the discovered locations and the quests
    were worth: only an award changes it before the leveling step. *)
Definition ledger (s : GameState) : Q :=
  (experience (player s) - 10 * count (discoveredLocations s)
   - 15 * count (quests (player s)))%Q.




(** The entries of [l] written into [r] one after the other. *)
Definition write_all {V} (l r : list (string * V)) : list (string * V) :=
  fold_left (fun r e => obj_set r (fst e) (snd e)) l r.

(** What the reducer may rely on in a change set validated against [s]. *)
Definition well_formed (s : GameState) (ch : Changes) : Prop :=
  (forall h, c_health ch = Some h -> (0 <= h <= 100)%Q)
  /\ (forall x, c_experience ch = Some x -> (0 <= x)%Q)
  /\ (forall item, In item (or_nil (c_removeItems ch)) ->
                   In item (inventory (player s)))
  /\ NoDup (map fst (or_nil (c_npcRelationships ch)))
  /\ (forall npc q, In (npc, RelNumber q) (or_nil (c_npcRelationships ch)) ->
                    (0 <= q <= 100)%Q)
  /\ (forall e, In e (or_nil (c_statusEffects ch)) -> ~ (se_duration e == 0)%Q).

(** [quests.push(quest)] unless the quest is there. *)
Definition add_quest (qs : list Quest) (quest : Quest) : list Quest :=
  if existingQuest qs quest then qs else (qs ++ [quest])%list.

(** The quests a turn leaves. *)
Definition quests_after (c : Changes) (qs : list Quest) : list Quest :=
  fold_left add_quest (or_nil (c_addQuests c)) qs.

(** Two quests the reducer takes for the same: two strings that are equal,
    or two objects with the same title. *)
Definition same_quest (a b : Quest) : Prop :=
  match a, b with
  | QuestText t, QuestText t' => t = t'
  | QuestObject t _ _, QuestObject t' _ _ => t = t'
  | _, _ => False
  end.

(** No two entries of the list are the same quest. *)
Inductive distinct_quests : list Quest -> Prop :=
| distinct_nil : distinct_quests []
| distinct_snoc qs q :
    distinct_quests qs -> (forall q', In q' qs -> ~ same_quest q' q) ->
    distinct_quests (qs ++ [q]).

End ReducerNotions.

(** Trimmed texts and location ids. *)
Module TextNotions.
Import Js Regex Model ResponseParser GameController WorldGenerator Pipeline.
Import ReducerNotions.

(** Every character of the string passes the test. *)
Fixpoint string_forallb (p : ascii -> bool) (s : string) : bool :=
  match s with
  | EmptyString => true
  | String c r => p c && string_forallb p r
  end.

(** Each run of whitespace replaced by one underscore; [in_run] tells that
    the character before was whitespace. *)
Fixpoint collapse_go (in_run : bool) (s : string) : string :=
  match s with
  | EmptyString => EmptyString
  | String c r =>
      if is_space c then
        if in_run then collapse_go true r else String "_" (collapse_go true r)
      else String c (collapse_go false r)
  end.

(** How many whitespace characters the string starts with. *)
Definition leading (s : string) : nat := length s - length (trimStart s).

(** A text without whitespace at either end. *)
Definition trimmed (x : string) : Prop := trim x = x.

(** The texts of a parsed response are trimmed: the narrative, the items,
    the name and description of the location, the names of the quests, of
    the NPCs and of the status effects. *)
Definition texts_trimmed (narrative : string) (ch : Changes) : Prop :=
  trimmed narrative
  /\ (forall x, In x (or_nil (c_addItems ch)) -> trimmed x)
  /\ (forall x, In x (or_nil (c_removeItems ch)) -> trimmed x)
  /\ (forall loc, c_newLocation ch = Some loc ->
        trimmed (loc_name loc) /\ trimmed (loc_description loc))
  /\ (forall q, In q (or_nil (c_addQuests ch)) -> trimmed (questName q))
  /\ (forall npc, In npc (map fst (or_nil (c_npcRelationships ch))) -> trimmed npc)
  /\ (forall e, In e (or_nil (c_statusEffects ch)) -> trimmed (se_name e)).

End TextNotions.

(** The two markers of a response, without the regular expressions. *)
Module SplitNotions.
Import Js Regex Model ResponseParser GameController WorldGenerator Pipeline.

(** [s.indexOf(k)]: where [k] first occurs in [s]; [None] is -1. *)
Fixpoint indexOf_from (i : nat) (k s : string) : option nat :=
  if prefix k s then Some i
  else
    match s with
    | EmptyString => None
    | String _ r => indexOf_from (S i) k r
    end.

Definition indexOf (s k : string) : option nat := indexOf_from 0 k s.

(** [s.slice(n)] *)
Fixpoint drop (n : nat) (s : string) : string :=
  match n, s with
  | S k, String _ r => drop k r
  | _, _ => s
  end.

(** The first suffix of [s] at which [k] succeeds, going right. *)
Fixpoint first_success (k : cont) (prev : option ascii) (s : string) (cs : caps)
  : option (string * caps) :=
  match k prev s cs with
  | Some x => Some x
  | None =>
      match s with
      | EmptyString => None
      | String c r => first_success k (Some c) r cs
      end
  end.

(** The last character of [lit], or [prev] when [lit] is empty. *)
Fixpoint last_char (prev : option ascii) (lit : string) : option ascii :=
  match lit with
  | EmptyString => prev
  | String c r => last_char (Some c) r
  end.

(** The text that opens the state-changes section. *)
Definition changes_marker : string := "STATE_CHANGES:".

End SplitNotions.

(** [getActionType] and the statistics of [getGameStats]
    (controllers/gameController.js). *)
Module Handlers.
Import Js Regex Model ResponseParser GameController WorldGenerator Pipeline.
Import SplitNotions.

(** [s.includes(k)] on strings: [k] occurs in [s]. *)
Definition str_includes (s k : string) : bool :=
  match indexOf s k with
  | Some _ => true
  | None => false
  end.

(** ** getActionType *)

Definition getActionType (action : string) : string :=
  let action := toLowerCase action in
  if str_includes action "attack" || str_includes action "fight"
     || str_includes action "kill" then "combat"
  else if str_includes action "talk" || str_includes action "speak"
          || str_includes action "ask" then "dialogue"
  else if str_includes action "take" || str_includes action "grab"
          || str_includes action "pick up" then "item"
  else if str_includes action "go" || str_includes action "move"
          || str_includes action "walk" then "movement"
  else if str_includes action "look" || str_includes action "examine"
          || str_includes action "inspect" then "observation"
  else if str_includes action "use" || str_includes action "activate"
          || str_includes action "open" then "interaction"
  else "other".

(** One test of getActionType: one of three keywords occurs. *)
Definition keyword_test (x k1 k2 k3 : string) : bool :=
  str_includes x k1 || str_includes x k2 || str_includes x k3.

(** The type decided by the outcomes of the six tests, in their order. *)
Definition decide_type (t1 t2 t3 t4 t5 t6 : bool) : string :=
  if t1 then "combat"
  else if t2 then "dialogue"
  else if t3 then "item"
  else if t4 then "movement"
  else if t5 then "observation"
  else if t6 then "interaction"
  else "other".

(** The action types in the order the tests are made. *)
Definition actionTypes : list string :=
  ["combat"; "dialogue"; "item"; "movement"; "observation"; "interaction";
   "other"].

(** The place of a type in that order. *)
Fixpoint position (t : string) (l : list string) : nat :=
  match l with
  | [] => 0
  | x :: r => if String.eqb t x then 0 else S (position t r)
  end.

Definition rank (t : string) : nat := position t actionTypes.

(** ** getGameStats: the statistics extracted from a game state *)

Record Stats := {
  (* player *)
  st_health : Q;
  st_level : Q;
  st_experience : Q;
  st_inventory_size : nat;
  st_inventory_items : list string;
  st_quests_active : nat;
  st_quests_details : list Quest;
  (* world *)
  st_world_name : string;
  st_world_type : string;
  st_currentLocation : string;
  st_discoveredLocations : nat;
  st_npcRelationships : list (string * Relationship);   (* [{ name, value }] *)
  (* game *)
  st_actionsTaken : nat;
  st_daysElapsed : Q;
  st_timeElapsed : Q;
  st_gameStarted : option json;
  st_lastAction : option LastAction
}.

Definition is_action (e : HistoryEntry) : bool :=
  match entry_type e with
  | Action => true
  | _ => false
  end.

Definition gameStats (gameState : GameState) : Stats :=
  {| st_health := health (player gameState);
     st_level := currentLevel gameState;                 (* [level || 1] *)
     st_experience := experience (player gameState);     (* [experience || 0] *)
     st_inventory_size := List.length (inventory (player gameState));
     st_inventory_items := inventory (player gameState);
     st_quests_active := List.length (quests (player gameState));
     st_quests_details := quests (player gameState);
     st_world_name := world_name (world gameState);
     st_world_type := world_type (world gameState);
     st_currentLocation := loc_name (currentLocation gameState);
     st_discoveredLocations := List.length (discoveredLocations gameState);
     st_npcRelationships := own_entries (npcRelationships gameState);
     st_actionsTaken := List.length (filter is_action (gameHistory gameState));
     st_daysElapsed := Math_floor (timeElapsed gameState / 24)%Q;
     st_timeElapsed := timeElapsed gameState;
     st_gameStarted := obj_get (other gameState) "created";
     st_lastAction := lastAction gameState |}.

End Handlers.

(** [parseWorldGeneration] of utils/responseParser.js. *)
Module WorldResponse.
Import Js Regex Model ResponseParser GameController WorldGenerator Pipeline.

Local Open Scope js_scope.

(** ** parseWorldGeneration of utils/responseParser.js *)

(** Return fallback world data *)
Definition fallbackWorld : json :=
  JObj [
    ("type", JStr "fantasy");
    ("name", JStr "Eldoria");
    ("description", JStr "A realm of magic and mystery, where ancient forests hide forgotten secrets.");
    ("startingLocation",
      obj3 "forest_edge" "Forest Edge" "A dense, misty forest with ancient trees.");
    ("introText", JStr "You find yourself standing at the edge of a dense, misty forest. A narrow path winds its way between ancient trees, disappearing into the shadows. The air is thick with the scent of moss and rain.");
    ("potentialPlotHooks",
      strings ["Strange symbols carved into trees";
               "Rumors of a hidden temple";
               "Villagers disappearing in the night"])
  ].

Definition parseWorldGeneration (rawResponse : string) : completion json :=
  try_catch
    (* Try to extract JSON from the response *)
    (match exec no_flags re_json rawResponse with
     | Some jsonMatch =>
         worldData <- JSON.parse (matched jsonMatch) ;;
         (* Validate required fields *)
         type <- get worldData "type" ;;
         name <- get worldData "name" ;;
         startingLocation <- get worldData "startingLocation" ;;
         introText <- get worldData "introText" ;;
         if negb (truthy type) || negb (truthy name)
            || negb (truthy startingLocation) || negb (truthy introText)
         then Throw (Error "Missing required fields in world generation response")
         else
           (* Ensure starting location has all required fields *)
           id <- get_opt startingLocation "id" ;;
           locName <- get_opt startingLocation "name" ;;
           description <- get_opt startingLocation "description" ;;
           if negb (truthy id) || negb (truthy locName) || negb (truthy description)
           then Throw (Error "Missing required fields in starting location")
           else Normal worldData
     | None =>
         Throw (Error "Could not extract valid JSON from world generation response")
     end)
    (fun _ => Normal fallbackWorld).

(** The property [k] of [v] is there and truthy. *)
Definition has (v : json) (k : string) : bool :=
  match v with
  | JObj m => truthy (obj_get m k)
  | _ => false
  end.

(** The world has what a new game reads of it. *)
Definition usable (w : json) : bool :=
  has w "type" && has w "name" && has w "introText"
  && match w with
     | JObj m =>
         match obj_get m "startingLocation" with
         | Some loc => has loc "id" && has loc "name" && has loc "description"
         | None => false
         end
     | _ => false
     end.

End WorldResponse.

(** What a complete world holds. *)
Module WorldNotions.
Import Js Regex Model ResponseParser GameController WorldGenerator Pipeline.
Import TextNotions.

(** A non-empty array. *)
Definition filled (v : option json) : bool :=
  match v with
  | Some (JArr (_ :: _)) => true
  | _ => false
  end.

(** A non-empty string. *)
Definition is_text (v : option json) : bool :=
  match v with
  | Some (JStr t) => negb (String.eqb t "")
  | _ => false
  end.

(** A starting location that is an object has a textual id without
    whitespace, a name and a description; nothing is said of one that is
    not an object. *)
Definition startingLocation_ok (v : option json) : bool :=
  match v with
  | Some (JObj l) =>
      match obj_get l "id" with
      | Some (JStr id) =>
          negb (String.eqb id "")
          && string_forallb (fun c => negb (is_space c)) id
      | _ => false
      end
      && truthy (obj_get l "name") && truthy (obj_get l "description")
  | Some _ => truthy v
  | None => false
  end.

(** What the world generator promises of a world. *)
Definition complete_world (w : json) : bool :=
  match w with
  | JObj m =>
      is_text (obj_get m "type")
      && truthy (obj_get m "name")
      && truthy (obj_get m "description")
      && truthy (obj_get m "introText")
      && startingLocation_ok (obj_get m "startingLocation")
      && filled (obj_get m "potentialPlotHooks")
      && filled (obj_get m "factions")
      && filled (obj_get m "keyItems")
      && filled (obj_get m "nearbyLocations")
      && filled (obj_get m "npcs")
      && match obj_get m "environment" with
         | Some (JObj e) =>
             is_text (obj_get e "time") && is_text (obj_get e "weather")
             && is_text (obj_get e "season")
         | _ => false
         end
  | _ => false
  end.

(** A value [Math.random()] can return. *)
Definition unit_interval (r : Q) : Prop := (0 <= r < 1)%Q.

(** What validation promises before the world is enhanced. *)
Definition validated_world (m : props) : Prop :=
  truthy (obj_get m "type") = true
  /\ truthy (obj_get m "name") = true
  /\ truthy (obj_get m "description") = true
  /\ truthy (obj_get m "introText") = true
  /\ startingLocation_ok (obj_get m "startingLocation") = true
  /\ filled (obj_get m "potentialPlotHooks") = true
  /\ filled (obj_get m "factions") = true
  /\ filled (obj_get m "keyItems") = true.

(** An answer of the model that names no inherited member of a table.  The
    tables of the source are plain objects, read as [table[type] ||
    table.fantasy] at the lower-cased type: a type that lower-cases to
    [constructor] or [__proto__] would find a member every object inherits,
    where [lookup_or_fantasy] finds no entry.  An answer without a
    backslash that holds neither name in any letter case has no such
    type. *)
Definition plain_reply (content : string) : bool :=
  negb (Handlers.str_includes content "\")
  && negb (Handlers.str_includes (toLowerCase content) "constructor")
  && negb (Handlers.str_includes (toLowerCase content) "__proto__").

End WorldNotions.

(** [JSON.stringify] and the deep clone [JSON.parse(JSON.stringify(v))]. *)
Module JsonText.
Import Js Regex Model ResponseParser GameController WorldGenerator Pipeline.
Import JSON.


(** ** [JSON.stringify] on JSON values *)

(** A hexadecimal digit, in lower case. *)
Definition hex_digit (n : nat) : ascii :=
  chr (if Nat.ltb n 10 then 48 + n else 87 + n).

(** QuoteJSONString, one character: the double quote and the backslash are
    escaped, the control characters are written as their short escape or as
    [\u00XX]. *)
Definition quote_char (c : ascii) : string :=
  if Ascii.eqb c quote then String "\" (String quote EmptyString)
  else if Ascii.eqb c "\" then "\\"
  else if Nat.eqb (code c) 8 then "\b"
  else if Nat.eqb (code c) 12 then "\f"
  else if Nat.eqb (code c) 10 then "\n"
  else if Nat.eqb (code c) 13 then "\r"
  else if Nat.eqb (code c) 9 then "\t"
  else if Nat.ltb (code c) 32 then
    "\u00" ++ String (hex_digit (code c / 16))
                (String (hex_digit (code c mod 16)) EmptyString)
  else String c EmptyString.

Fixpoint quote_body (s : string) : string :=
  match s with
  | EmptyString => EmptyString
  | String c r => quote_char c ++ quote_body r
  end.

Definition quoteJSONString (s : string) : string :=
  String quote (quote_body s ++ String quote EmptyString).

(** One member of an object: the quoted key, a colon, the text of the
    value. *)
Definition member (kv : string * string) : string :=
  quoteJSONString (fst kv) ++ ":" ++ snd kv.

(** [JSON.stringify(v)] without indentation.  The members of an object come
    in the order of its own property keys. *)
Fixpoint stringify (v : json) : string :=
  match v with
  | JNull => "null"
  | JBool true => "true"
  | JBool false => "false"
  | JNum q => Number_toString q
  | JStr s => quoteJSONString s
  | JArr l => "[" ++ join "," (map stringify l) ++ "]"
  | JObj m =>
      "{" ++ join "," (map member
                         (own_entries
                            (map (fun kv => (fst kv, stringify (snd kv))) m)))
          ++ "}"
  end.

(** [JSON.parse(JSON.stringify(v))]: the deep clone the program makes. *)
Definition clone (v : json) : completion json := parse (stringify v).

(** A safe integer: at most 2^53 - 1 in absolute value, which [toString]
    writes with all its digits. *)
Definition safe_integer (q : Q) : bool :=
  Pos.eqb (Qden q) 1 && (Z.abs (Qnum q) <=? 9007199254740991)%Z.

(** No string occurs twice. *)
Fixpoint distinct (l : list string) : bool :=
  match l with
  | [] => true
  | x :: r => negb (existsb (String.eqb x) r) && distinct r
  end.

(** Keys that are distinct and of which none is an array index, so that
    they are enumerated in creation order. *)
Definition plain_keys (ks : list string) : bool :=
  distinct ks
  && forallb (fun k => match array_index k with None => true | Some _ => false end) ks.

(** JSON data as the program holds it: every number is a safe integer and
    every object has plain keys. *)
Fixpoint plain (v : json) : bool :=
  match v with
  | JNum q => safe_integer q
  | JArr l => forallb plain l
  | JObj m =>
      plain_keys (map fst m) && forallb (fun kv => plain (snd kv)) m
  | _ => true
  end.

End JsonText.

(** The tokens of the text of a value. *)
Module JsonNotions.
Import Js Regex Model ResponseParser GameController WorldGenerator Pipeline.
Import JSON TextNotions JsonText.


(** Token lists joined by commas. *)
Fixpoint sep_tokens (l : list (list token)) : list token :=
  match l with
  | [] => []
  | [x] => x
  | x :: r => (x ++ TComma :: sep_tokens r)%list
  end.

(** The tokens of the text of a value. *)
Fixpoint tokens (v : json) : list token :=
  match v with
  | JArr l => (TLBrack :: sep_tokens (map tokens l) ++ [TRBrack])%list
  | JObj m =>
      (TLBrace
       :: sep_tokens (map (fun kv => TStr (fst kv) :: TColon :: tokens (snd kv)) m)
       ++ [TRBrace])%list
  | JStr s => [TStr s]
  | _ => [TWord (stringify v)]
  end.

(** What may follow a value in a JSON text: nothing, a comma or a closing
    bracket or brace. *)
Definition delimited (rest : string) : bool :=
  match rest with
  | EmptyString => true
  | String c _ => Ascii.eqb c "," || Ascii.eqb c "]" || Ascii.eqb c "}"
  end.

(** The text of a value is read as its tokens. *)
Definition lexes (v : json) : Prop :=
  plain v = true ->
  forall rest, delimited rest = true ->
    lex Between (stringify v ++ rest)
    = option_map (app (tokens v)) (lex Between rest).

(** The tokens of a value are parsed as the value. *)
Definition parses (v : json) : Prop :=
  plain v = true ->
  forall st ts, run Value st (tokens v ++ ts) = run (After v) st ts.

End JsonNotions.

(** The player controller on its in-memory store. *)
Module PlayerStore.
Import Js Regex Model ResponseParser GameController WorldGenerator Pipeline.
Import ReducerNotions.

(** ** The player controller on its in-memory store

    The controller reads [mongoConnected] once, when it is loaded, and every
    handler branches on it.  What follows is each handler on the branch
    where it is false: the profiles are kept in the Map [playerProfiles].
    The request body is the object [express.json] parsed (its own
    properties); a route parameter is a string.  Each reading of the clock
    is an argument. *)

(** The Map [playerProfiles], in insertion order.  A key is the player id
    as the request gave it. *)
Definition Profiles := list (json * props).

(** SameValueZero on keys.  An object or an array is never the same as the
    one another request was parsed into. *)
Definition same_key (a b : json) : bool :=
  match a, b with
  | JNull, JNull => true
  | JBool x, JBool y => Bool.eqb x y
  | JNum p, JNum q => Qeqb p q
  | JStr s, JStr t => String.eqb s t
  | _, _ => false
  end.

Fixpoint Map_get (m : Profiles) (k : json) : option props :=
  match m with
  | [] => None
  | (k', v) :: r => if same_key k k' then Some v else Map_get r k
  end.

Fixpoint Map_set (m : Profiles) (k : json) (v : props) : Profiles :=
  match m with
  | [] => [(k, v)]
  | (k', v') :: r =>
      if same_key k k' then (k', v) :: r else (k', v') :: Map_set r k v
  end.

(** [res.status(status).json(body)] *)
Record Response := { status : nat; body : props }.

Definition respond (status : nat) (body : props) : Response :=
  {| status := status; body := body |}.

(** [a || b] *)
Definition or_else (a : option json) (b : json) : json :=
  match a with
  | Some x => if truthy a then x else b
  | None => b
  end.

(** [{ ...target, ...source }] continued: the own properties of [source]
    copied onto [target]. *)
Definition assign (target source : props) : props :=
  write_all (own_entries source) target.

(** [{ ...v }] for any value. *)
Definition copy (v : json) : props := assign [] (spread v).

(** [v.length], where it is defined. *)
Definition length_of (v : json) : option json :=
  match v with
  | JArr l => Some (JNum (inject_Z (Z.of_nat (List.length l))))
  | JStr s => Some (JNum (inject_Z (Z.of_nat (String.length s))))
  | JObj m => obj_get m "length"
  | _ => None
  end.

(** A property whose value may be [undefined]: [res.json] leaves it out. *)
Definition with_opt (k : string) (v : option json) (m : props) : props :=
  match v with
  | Some x => (m ++ [(k, x)])%list
  | None => m
  end.

Definition missing_player_id : Response :=
  respond 400 [("error", JStr "Missing player ID")].

Definition player_not_found : Response :=
  respond 404 [("error", JStr "Player not found")].

(** *** updatePlayerProfile *)

Definition updatePlayerProfile (req_body : props) (now created : string)
  (playerProfiles : Profiles) : Response * Profiles :=
  let playerId := obj_get req_body "playerId" in
  let name := obj_get req_body "name" in
  let email := obj_get req_body "email" in
  let preferences := obj_get req_body "preferences" in
  match playerId with
  | Some id =>
      if negb (truthy playerId) then
        (respond 400 [("error", JStr "Missing player ID");
                      ("message", JStr "A valid player ID is required")],
         playerProfiles)
      else
        (* Create player data object *)
        let playerData :=
          [("playerId", id);
           ("name", or_else name (JStr "Adventurer"));
           ("lastActive", JStr now)] in
        (* Add email if provided *)
        let playerData :=
          match email with
          | Some e => if truthy email then obj_set playerData "email" e
                      else playerData
          | None => playerData
          end in
        (* Add preferences if provided *)
        let playerData :=
          match preferences with
          | Some p => if truthy preferences && typeof_object preferences
                      then obj_set playerData "preferences" p
                      else playerData
          | None => playerData
          end in
        (* Save to in-memory map *)
        let existingProfile :=
          match Map_get playerProfiles id with
          | Some p => p
          | None => []
          end in
        let player :=
          obj_set (assign (assign [] existingProfile) playerData) "createdAt"
                  (or_else (obj_get existingProfile "createdAt") (JStr created)) in
        (respond 200 [("success", JBool true);
                      ("message", JStr "Player profile updated");
                      ("player", JObj player)],
         Map_set playerProfiles id player)
  | None =>
      (respond 400 [("error", JStr "Missing player ID");
                    ("message", JStr "A valid player ID is required")],
       playerProfiles)
  end.

(** *** getPlayerProfile *)

Definition getPlayerProfile (playerId : string) (playerProfiles : Profiles)
  : Response :=
  if String.eqb playerId "" then missing_player_id
  else
    match Map_get playerProfiles (JStr playerId) with
    | None =>
        respond 404 [("error", JStr "Player not found");
                     ("message", JStr "No player found with this ID")]
    | Some player => respond 200 [("player", JObj player)]
    end.

(** *** updatePreferences *)

Definition updatePreferences (playerId : string) (req_body : props)
  (now : string) (playerProfiles : Profiles) : Response * Profiles :=
  let preferences := obj_get req_body "preferences" in
  if String.eqb playerId "" then (missing_player_id, playerProfiles)
  else
    match preferences with
    | Some p =>
        if negb (truthy preferences) || negb (typeof_object preferences) then
          (respond 400 [("error", JStr "Invalid preferences");
                        ("message", JStr "Preferences must be a valid object")],
           playerProfiles)
        else
          match Map_get playerProfiles (JStr playerId) with
          | None => (player_not_found, playerProfiles)
          | Some existingProfile =>
              let player :=
                obj_set (obj_set (assign [] existingProfile) "preferences" p)
                        "lastActive" (JStr now) in
              (respond 200
                 (with_opt "preferences" (obj_get player "preferences")
                    [("success", JBool true);
                     ("message", JStr "Preferences updated")]),
               Map_set playerProfiles (JStr playerId) player)
          end
    | None =>
        (respond 400 [("error", JStr "Invalid preferences");
                      ("message", JStr "Preferences must be a valid object")],
         playerProfiles)
    end.

(** *** getAchievements *)

Definition getAchievements (playerId : string) (playerProfiles : Profiles)
  : Response :=
  if String.eqb playerId "" then missing_player_id
  else
    match Map_get playerProfiles (JStr playerId) with
    | None => player_not_found
    | Some player =>
        let achievements := or_else (obj_get player "achievements") (JArr []) in
        respond 200
          (with_opt "totalAchievements" (length_of achievements)
             [("playerId", JStr playerId); ("achievements", achievements)])
    end.

(** *** updateStatistics *)

(** The validation of the values: the entries with their numbers, or the
    first key whose value is no number. *)
Fixpoint numbers (entries : props) : string + list (string * Q) :=
  match entries with
  | [] => inr []
  | (key, JNum value) :: r =>
      match numbers r with
      | inr l => inr ((key, value) :: l)
      | inl k => inl k
      end
  | (key, _) :: _ => inl key
  end.


(** [a + value] for a number [value]. *)
Definition plus (a : json) (value : Q) : json :=
  match a with
  | JNum x => JNum (x + value)%Q
  | JBool b => JNum ((if b then 1 else 0) + value)%Q
  | JNull => JNum (0 + value)%Q
  | JStr s => JStr (s ++ Number_toString value)
  | JArr _ | JObj _ => JStr (ToString a ++ Number_toString value)
  end.

(** [newStats[key] = (newStats[key] || 0) + value] *)
Definition add_statistic (newStats : props) (e : string * Q) : props :=
  obj_set newStats (fst e)
          (plus (or_else (obj_get newStats (fst e)) (JNum 0)) (snd e)).

Definition updateStatistics (playerId : string) (req_body : props)
  (now : string) (playerProfiles : Profiles) : Response * Profiles :=
  let statistics := obj_get req_body "statistics" in
  if String.eqb playerId "" then (missing_player_id, playerProfiles)
  else
    match statistics with
    | Some s =>
        if negb (truthy statistics) || negb (typeof_object statistics) then
          (respond 400 [("error", JStr "Invalid statistics");
                        ("message", JStr "Statistics must be a valid object")],
           playerProfiles)
        else
          (* Validate statistics values (ensure they're numbers) *)
          match numbers (Object_entries s) with
          | inl key =>
              (respond 400
                 [("error", JStr "Invalid statistics");
                  ("message", JStr ("Value for " ++ key ++ " must be a number"))],
               playerProfiles)
          | inr entries =>
              (* Update in-memory map *)
              match Map_get playerProfiles (JStr playerId) with
              | None => (player_not_found, playerProfiles)
              | Some existingProfile =>
                  let currentStats :=
                    or_else (obj_get existingProfile "statistics") (JObj []) in
                  let newStats := copy currentStats in
                  (* For each statistic, increment the current value *)
                  let newStats := fold_left add_statistic entries newStats in
                  let player :=
                    obj_set (obj_set (assign [] existingProfile)
                                     "statistics" (JObj newStats))
                            "lastActive" (JStr now) in
                  (respond 200 [("success", JBool true);
                                ("message", JStr "Statistics updated");
                                ("statistics", JObj newStats)],
                   Map_set playerProfiles (JStr playerId) player)
              end
          end
    | None =>
        (respond 400 [("error", JStr "Invalid statistics");
                      ("message", JStr "Statistics must be a valid object")],
         playerProfiles)
    end.

(** *** The requests the controller serves *)

Inductive Request :=
| UpdatePlayerProfile (req_body : props) (now created : string)
| GetPlayerProfile (playerId : string)
| UpdatePreferences (playerId : string) (req_body : props) (now : string)
| GetAchievements (playerId : string)
| UpdateStatistics (playerId : string) (req_body : props) (now : string).

Definition serve (r : Request) (playerProfiles : Profiles)
  : Response * Profiles :=
  match r with
  | UpdatePlayerProfile b now created =>
      updatePlayerProfile b now created playerProfiles
  | GetPlayerProfile id => (getPlayerProfile id playerProfiles, playerProfiles)
  | UpdatePreferences id b now => updatePreferences id b now playerProfiles
  | GetAchievements id => (getAchievements id playerProfiles, playerProfiles)
  | UpdateStatistics id b now => updateStatistics id b now playerProfiles
  end.

(** The store after a run of requests, from the empty Map of a fresh
    process. *)
Definition served (requests : list Request) : Profiles :=
  fold_left (fun m r => snd (serve r m)) requests [].

(** What every stored profile satisfies: its keys are distinct, it has no
    [achievements], and its [statistics], when it has some, are an object
    with distinct keys. *)
Definition sound_profile (p : props) : Prop :=
  NoDup (map fst p)
  /\ obj_get p "achievements" = None
  /\ (forall s, obj_get p "statistics" = Some s ->
                exists m, s = JObj m /\ NoDup (map fst m)).

Definition sound (playerProfiles : Profiles) : Prop :=
  forall key p, In (key, p) playerProfiles -> sound_profile p.



End PlayerStore.

(** Whole numbers, on which the program's arithmetic is exact. *)
Module Doubles.
Import Js Model GameController.

(** A whole number: an integer from 0 to 2^53 - 1.  The program's numbers
    are IEEE doubles; on whole numbers whose result is whole, its [+], [-]
    and [*] are the exact ones of this development, and the deep clone
    through JSON returns them as they are. *)
Definition whole (q : Q) : bool :=
  Qeqb q (inject_Z (Qfloor q)) && Qleb 0 q && Qleb q 9007199254740991.

(** The experience award of a change set is whole, or there is none. *)
Definition whole_award (c : Changes) : bool :=
  match c_experience c with
  | Some x => whole x
  | None => true
  end.

(** The numbers of a change set that reach health and experience. *)
Definition whole_changes (c : Changes) : bool :=
  match c_health c with
  | Some h => whole h
  | None => true
  end
  && whole_award c.

(** The numbers of a state that a turn computes with. *)
Definition whole_state (s : GameState) : bool :=
  whole (health (player s)) && whole (experience (player s))
  && whole (currentLevel s) && whole (timeElapsed s).

End Doubles.

(** What a turn does to the history before the cap. *)
Module HistoryNotions.
Import Js Model GameController Pipeline.

(** The history of [s'] is that of [s] followed by system entries. *)
Definition notes (s s' : GameState) : Prop :=
  exists l,
    gameHistory s' = (gameHistory s ++ l)%list
    /\ Forall (fun e => entry_type e = System) l.

End HistoryNotions.

(** Texts in which sanitizeNarrative finds nothing to remove. *)
Module FallbackNotions.
Import Js Regex Model ResponseParser GameController WorldGenerator Pipeline.





End FallbackNotions.

(** Sample inputs of the turns and replies worked out below. *)
Module Samples.
Import Js Regex Model ResponseParser GameController WorldGenerator Pipeline.

(** A turn that discovers a location, takes a quest and is awarded 10. *)
Definition eventful_changes : Changes :=
  {| c_health := None; c_addItems := None; c_removeItems := None;
     c_newLocation :=
       Some {| loc_id := "old_mill"; loc_name := "Old Mill";
               loc_description := "A mill by the river." |};
     c_addQuests := Some [QuestText "Find the miller"];
     c_npcRelationships := None;
     c_experience := Some 10%Q; c_statusEffects := None |}.


(** A turn whose decoded change set is [{}]. *)
Definition quiet_turn (action : string) : TurnInput :=
  {| t_changes := JObj []; t_action := action;
     t_narrative := "Nothing happens."; t_now := "t1" |}.

(** A model call that answers with a world in JSON. *)
Definition world_reply : option string -> completion string :=
  fun _ => Normal (dq "Here it is: {'type': 'Sci-Fi', 'name': 'Kepler Station'}").

End Samples.


Import Js Regex Model ResponseParser GameController WorldGenerator Pipeline.
Import Doubles HistoryNotions FallbackNotions Samples.

(* ===================================================================== *)
(** * Facts about the reducer                                             *)
(* ===================================================================== *)

Section Arithmetic.

Lemma Qleb_true (a b : Q) : Qleb a b = true <-> (a <= b)%Q.
Proof. apply Qle_bool_iff. Qed.

Lemma Qleb_false (a b : Q) : Qleb a b = false -> (b < a)%Q.
Proof.
  intros H. apply Qnot_le_lt. intros L.
  apply Qleb_true in L. congruence.
Qed.

Lemma Math_min_spec (a b : Q) :
  (Math_min a b <= a /\ Math_min a b <= b
   /\ (Math_min a b = a \/ Math_min a b = b))%Q.
Proof.
  unfold Math_min. destruct (Qleb a b) eqn:E.
  - apply Qleb_true in E. split; [lra | split; [lra | now left]].
  - apply Qleb_false in E. split; [lra | split; [lra | now right]].
Qed.

Lemma Math_max_spec (a b : Q) :
  (a <= Math_max a b /\ b <= Math_max a b
   /\ (Math_max a b = a \/ Math_max a b = b))%Q.
Proof.
  unfold Math_max. destruct (Qleb a b) eqn:E.
  - apply Qleb_true in E. split; [lra | split; [lra | now right]].
  - apply Qleb_false in E. split; [lra | split; [lra | now left]].
Qed.

Lemma clamp_range (x : Q) : (0 <= clamp_0_100 x <= 100)%Q.
Proof.
  unfold clamp_0_100.
  destruct (Math_max_spec 0 (Math_min 100 x)) as (A & B & [C | C]);
    destruct (Math_min_spec 100 x) as (D & E & F); rewrite C in *; lra.
Qed.

Lemma heal_range (h : Q) :
  (0 <= h <= 100 -> 0 <= Math_min 100 (h + 10) <= 100)%Q.
Proof.
  intros H. destruct (Math_min_spec 100 (h + 10)) as (A & B & [C | C]);
    rewrite C in *; lra.
Qed.

End Arithmetic.

Section Folds.
Context {A B : Type}.

Lemma fold_left_inv (P : A -> Prop) (f : A -> B -> A) :
  (forall a b, P a -> P (f a b)) ->
  forall l a, P a -> P (fold_left f l a).
Proof.
  intros step l. induction l as [| x l IH]; simpl; auto.
Qed.

(** A relation between the state before and after, kept by every step, is
    kept by the fold. *)
Lemma fold_left_rel (R : A -> A -> Prop) (f : A -> B -> A) :
  (forall a, R a a) ->
  (forall a b c, R a b -> R b c -> R a c) ->
  (forall a b, R a (f a b)) ->
  forall l a, R a (fold_left f l a).
Proof.
  intros rfl trans step l a.
  apply (fold_left_inv (R a)); auto.
  intros a' b H. eapply trans; eauto.
Qed.

(** A map that commutes with every step commutes with the fold. *)
Lemma fold_left_commute (g : A -> A) (f : A -> B -> A) :
  (forall a b, f (g a) b = g (f a b)) ->
  forall l a, fold_left f l (g a) = g (fold_left f l a).
Proof.
  intros H l. induction l as [| x l IH]; simpl; intros a; auto.
  rewrite H. apply IH.
Qed.

End Folds.

Section Frames.

Lemma grows_refl s : grows s s.
Proof.
  repeat split; auto; exists []; symmetry; apply app_nil_r.
Qed.

Lemma grows_trans s1 s2 s3 : grows s1 s2 -> grows s2 s3 -> grows s1 s3.
Proof.
  intros (A1 & [h1 B1] & [d1 C1]) (A2 & [h2 B2] & [d2 C2]).
  repeat split; auto.
  - exists (h1 ++ h2)%list. rewrite B2, B1, app_assoc. reflexivity.
  - exists (d1 ++ d2)%list. rewrite C2, C1, app_assoc. reflexivity.
Qed.

Lemma same_vitals_refl s : same_vitals s s.
Proof. repeat split. Qed.

Lemma same_vitals_trans s1 s2 s3 :
  same_vitals s1 s2 -> same_vitals s2 s3 -> same_vitals s1 s3.
Proof.
  intros (A1 & B1 & C1) (A2 & B2 & C2).
  repeat split; congruence.
Qed.

Lemma grows_push t x s : grows s (push t x s).
Proof.
  repeat split; auto; simpl; eauto.
  exists []; symmetry; apply app_nil_r.
Qed.

(** Closes a [grows] or [same_vitals] goal about one step once its tests
    are decided. *)
Ltac frame :=
  repeat split; simpl; auto;
  try (eexists; symmetry; apply app_nil_r);
  try (eexists; reflexivity).

Lemma applyHealth_grows c s : grows s (applyHealth c s).
Proof.
  unfold applyHealth. destruct (c_health c); [| apply grows_refl].
  destruct (Qleb _ 0); frame.
Qed.

Lemma addItem_grows s x : grows s (addItem s x).
Proof. unfold addItem. destruct (negb _); frame. Qed.

Lemma addItem_vitals s x : same_vitals s (addItem s x).
Proof. unfold addItem. destruct (negb _); frame. Qed.

Lemma removeItem_grows s x : grows s (removeItem s x).
Proof. unfold removeItem. destruct (includes _ _); frame. Qed.

Lemma removeItem_vitals s x : same_vitals s (removeItem s x).
Proof. unfold removeItem. destruct (includes _ _); frame. Qed.

Lemma addQuest_grows s q : grows s (addQuest s q).
Proof. unfold addQuest. destruct (negb _); frame. Qed.

Lemma addQuest_vitals s q : same_vitals s (addQuest s q).
Proof. unfold addQuest. destruct (negb _); frame. Qed.

Lemma addEffect_grows s e : grows s (addEffect s e).
Proof. unfold addEffect. destruct (negb _); frame. Qed.

Lemma addEffect_vitals s e : same_vitals s (addEffect s e).
Proof. unfold addEffect. destruct (negb _); frame. Qed.

Lemma fold_grows {B} (f : GameState -> B -> GameState) :
  (forall s b, grows s (f s b)) -> forall l s, grows s (fold_left f l s).
Proof.
  intros H. apply fold_left_rel; auto using grows_refl.
  intros a b c; apply grows_trans.
Qed.

Lemma fold_vitals {B} (f : GameState -> B -> GameState) :
  (forall s b, same_vitals s (f s b)) ->
  forall l s, same_vitals s (fold_left f l s).
Proof.
  intros H. apply fold_left_rel; auto using same_vitals_refl.
  intros a b c; apply same_vitals_trans.
Qed.

Lemma applyAddItems_grows c s : grows s (applyAddItems c s).
Proof.
  unfold applyAddItems. destruct (c_addItems c); [| apply grows_refl].
  apply fold_grows, addItem_grows.
Qed.

Lemma applyAddItems_vitals c s : same_vitals s (applyAddItems c s).
Proof.
  unfold applyAddItems. destruct (c_addItems c); [| apply same_vitals_refl].
  apply fold_vitals, addItem_vitals.
Qed.

Lemma applyRemoveItems_grows c s : grows s (applyRemoveItems c s).
Proof.
  unfold applyRemoveItems. destruct (c_removeItems c); [| apply grows_refl].
  apply fold_grows, removeItem_grows.
Qed.

Lemma applyRemoveItems_vitals c s : same_vitals s (applyRemoveItems c s).
Proof.
  unfold applyRemoveItems. destruct (c_removeItems c); [| apply same_vitals_refl].
  apply fold_vitals, removeItem_vitals.
Qed.

Lemma applyNewLocation_grows c s : grows s (applyNewLocation c s).
Proof.
  unfold applyNewLocation. destruct (c_newLocation c); [| apply grows_refl].
  destruct (_ && _); frame.
Qed.

Lemma applyNewLocation_vitals c s : same_vitals s (applyNewLocation c s).
Proof.
  unfold applyNewLocation. destruct (c_newLocation c); [| apply same_vitals_refl].
  destruct (_ && _); frame.
Qed.

Lemma applyAddQuests_grows c s : grows s (applyAddQuests c s).
Proof.
  unfold applyAddQuests. destruct (c_addQuests c); [| apply grows_refl].
  apply fold_grows, addQuest_grows.
Qed.

Lemma applyAddQuests_vitals c s : same_vitals s (applyAddQuests c s).
Proof.
  unfold applyAddQuests. destruct (c_addQuests c); [| apply same_vitals_refl].
  apply fold_vitals, addQuest_vitals.
Qed.

Lemma applyNpcRelationships_grows c s : grows s (applyNpcRelationships c s).
Proof.
  unfold applyNpcRelationships.
  destruct (c_npcRelationships c); [| apply grows_refl].
  apply fold_grows. intros; frame.
Qed.

Lemma applyNpcRelationships_vitals c s :
  same_vitals s (applyNpcRelationships c s).
Proof.
  unfold applyNpcRelationships.
  destruct (c_npcRelationships c); [| apply same_vitals_refl].
  apply fold_vitals. intros; frame.
Qed.

Lemma applyStatusEffects_grows c s : grows s (applyStatusEffects c s).
Proof.
  unfold applyStatusEffects. destruct (c_statusEffects c); [| apply grows_refl].
  eapply grows_trans; [| apply fold_grows, addEffect_grows].
  destruct (statusEffects (player s)); frame.
Qed.

Lemma applyStatusEffects_vitals c s : same_vitals s (applyStatusEffects c s).
Proof.
  unfold applyStatusEffects.
  destruct (c_statusEffects c); [| apply same_vitals_refl].
  eapply same_vitals_trans; [| apply fold_vitals, addEffect_vitals].
  destruct (statusEffects (player s)); frame.
Qed.

Lemma applyExperience_grows c s : grows s (applyExperience c s).
Proof.
  unfold applyExperience. destruct (c_experience c); [| apply grows_refl].
  destruct (negb _); [destruct (Qltb 0 q) |]; frame.
Qed.

Lemma applyExperience_vitals c s : same_vitals s (applyExperience c s).
Proof.
  unfold applyExperience. destruct (c_experience c); [| apply same_vitals_refl].
  destruct (negb _); [destruct (Qltb 0 q) |]; frame.
Qed.

Lemma decrementStatusEffects_grows s : grows s (decrementStatusEffects s).
Proof.
  unfold decrementStatusEffects.
  destruct (statusEffects (player s)) as [[| e l] |]; frame.
Qed.

Lemma decrementStatusEffects_vitals s :
  same_vitals s (decrementStatusEffects s).
Proof.
  unfold decrementStatusEffects.
  destruct (statusEffects (player s)) as [[| e l] |]; frame.
Qed.

Lemma advanceTime_grows s : grows s (advanceTime s).
Proof. unfold advanceTime. simpl. destruct (Qeqb _ 0); frame. Qed.

Lemma levelUp_grows s : grows s (levelUp s).
Proof. unfold levelUp. destruct (Qleb _ _); frame. Qed.

Lemma updateGameState_steps s a n c now :
  updateGameState s a n c now
  = limitHistory (levelUp (beforeLevelUp s a n c now)).
Proof. reflexivity. Qed.

Lemma opening_grows s a n now : grows s (opening s a n now).
Proof.
  unfold opening.
  eapply grows_trans; [apply grows_push |].
  eapply grows_trans; [apply grows_push |].
  frame.
Qed.

Lemma middle_grows c s : grows s (middle c s).
Proof.
  unfold middle.
  repeat (eapply grows_trans;
          [| first [ apply decrementStatusEffects_grows
                   | apply applyExperience_grows | apply applyStatusEffects_grows
                   | apply applyNpcRelationships_grows | apply applyAddQuests_grows
                   | apply applyNewLocation_grows | apply applyRemoveItems_grows
                   | apply applyAddItems_grows ] ]).
  apply grows_refl.
Qed.

Lemma middle_vitals c s : same_vitals s (middle c s).
Proof.
  unfold middle.
  repeat (eapply same_vitals_trans;
          [| first [ apply decrementStatusEffects_vitals
                   | apply applyExperience_vitals | apply applyStatusEffects_vitals
                   | apply applyNpcRelationships_vitals | apply applyAddQuests_vitals
                   | apply applyNewLocation_vitals | apply applyRemoveItems_vitals
                   | apply applyAddItems_vitals ] ]).
  apply same_vitals_refl.
Qed.

Lemma beforeLevelUp_grows s a n c now : grows s (beforeLevelUp s a n c now).
Proof.
  unfold beforeLevelUp.
  eapply grows_trans; [| apply advanceTime_grows].
  eapply grows_trans; [| apply middle_grows].
  eapply grows_trans; [| apply applyHealth_grows].
  apply opening_grows.
Qed.

(** The history cap touches the history alone. *)
Lemma limitHistory_fields s :
  player (limitHistory s) = player s
  /\ gameOver (limitHistory s) = gameOver s
  /\ discoveredLocations (limitHistory s) = discoveredLocations s
  /\ timeElapsed (limitHistory s) = timeElapsed s.
Proof. unfold limitHistory. destruct (Nat.ltb _ _); repeat split. Qed.

(** The reducer never clears [gameOver] and only appends to the discovered
    locations. *)
Lemma updateGameState_monotone s a n c now :
  (gameOver s = true -> gameOver (updateGameState s a n c now) = true)
  /\ (exists l, discoveredLocations (updateGameState s a n c now)
               = discoveredLocations s ++ l)%list.
Proof.
  rewrite updateGameState_steps.
  destruct (limitHistory_fields (levelUp (beforeLevelUp s a n c now)))
    as (_ & G & D & _).
  rewrite G, D.
  destruct (grows_trans (beforeLevelUp_grows s a n c now)
                        (levelUp_grows _)) as (A & _ & B).
  split; assumption.
Qed.

(** Health through the closing steps. *)
Lemma advanceTime_health s :
  (0 <= health (player s) <= 100)%Q ->
  (0 <= health (player (advanceTime s)) <= 100)%Q.
Proof.
  intros H. unfold advanceTime. simpl.
  destruct (Qeqb _ 0); simpl; auto using heal_range.
Qed.

Lemma levelUp_health s :
  (0 <= health (player s) <= 100)%Q ->
  (0 <= health (player (levelUp s)) <= 100)%Q.
Proof.
  intros H. unfold levelUp.
  destruct (Qleb _ _); simpl; auto. lra.
Qed.

Lemma applyHealth_health c s :
  health (player (applyHealth c s))
  = match c_health c with Some h => h | None => health (player s) end.
Proof.
  unfold applyHealth. destruct (c_health c); auto.
  simpl. destruct (Qleb q 0); reflexivity.
Qed.

Lemma applyHealth_death c s h :
  c_health c = Some h -> (h <= 0)%Q -> gameOver (applyHealth c s) = true.
Proof.
  intros E L. unfold applyHealth. rewrite E. simpl.
  apply Qleb_true in L. rewrite L. reflexivity.
Qed.

Lemma updateGameState_health s a n c now :
  (0 <= health (player s) <= 100)%Q -> health_in_range c ->
  (0 <= health (player (updateGameState s a n c now)) <= 100)%Q.
Proof.
  intros Hs Hc. rewrite updateGameState_steps.
  destruct (limitHistory_fields (levelUp (beforeLevelUp s a n c now)))
    as (P & _). rewrite P.
  apply levelUp_health. unfold beforeLevelUp. apply advanceTime_health.
  destruct (middle_vitals c (applyHealth c (opening s a n now))) as (V & _).
  rewrite V, applyHealth_health.
  destruct (c_health c) eqn:E; auto.
Qed.

Lemma updateGameState_death s a n c now h :
  c_health c = Some h -> (h <= 0)%Q ->
  gameOver (updateGameState s a n c now) = true.
Proof.
  intros E L. rewrite updateGameState_steps.
  destruct (limitHistory_fields (levelUp (beforeLevelUp s a n c now)))
    as (_ & G & _). rewrite G.
  unfold beforeLevelUp.
  apply (grows_trans (grows_trans (middle_grows c _) (advanceTime_grows _))
                     (levelUp_grows _)).
  eapply applyHealth_death; eauto.
Qed.

End Frames.

Section Validation.

Lemma bind_Normal {A B} (c : completion A) (f : A -> completion B) (b : B) :
  bind c f = Normal b -> exists a, c = Normal a /\ f a = Normal b.
Proof.
  destruct c; simpl; intros H; [eauto | discriminate].
Qed.

(** Peels the binds of a computation known to return normally. *)
Ltac bind_inv H :=
  repeat (cbv zeta in H;
          let x := fresh "x" in
          let E := fresh "E" in
          apply bind_Normal in H; destruct H as (x & E & H)).

(** The validated health is the clamped number. *)
Lemma validateStateChanges_health changes s ch :
  validateStateChanges changes s = Normal ch -> health_in_range ch.
Proof.
  intros H. unfold validateStateChanges in H. bind_inv H.
  injection H as <-. intros h. simpl.
  destruct x as [v |]; [| discriminate].
  destruct (ToNumber (Some v)); simpl; [| discriminate].
  intros [= <-]. apply clamp_range.
Qed.

Lemma no_changes_health : health_in_range no_changes.
Proof. intros h; discriminate. Qed.

Lemma parseGameResponse_returns raw s :
  exists narrative ch, parseGameResponse raw s = Normal (narrative, ch).
Proof.
  unfold parseGameResponse, try_catch.
  destruct (parseGameResponse_try raw s) as [[n ch] | e]; eauto.
Qed.

Lemma parseGameResponse_health raw s n ch :
  parseGameResponse raw s = Normal (n, ch) -> health_in_range ch.
Proof.
  unfold parseGameResponse, try_catch.
  destruct (parseGameResponse_try raw s) as [[n' ch'] | e] eqn:E.
  - intros [= <- <-]. unfold parseGameResponse_try in E. bind_inv E.
    injection E as <- <-. eapply validateStateChanges_health; eauto.
  - intros [= <- <-]. apply no_changes_health.
Qed.

Lemma validated_health changes narrative s :
  health_in_range (snd (validated changes narrative s)).
Proof.
  unfold validated.
  destruct (validateStateChanges changes s) eqn:E; simpl.
  - eapply validateStateChanges_health; eauto.
  - apply no_changes_health.
Qed.

End Validation.

(* ===================================================================== *)
(** * The claims                                                          *)
(* ===================================================================== *)

Lemma turnPipeline_gameOver s changes a n now :
  gameOver s = true -> gameOver (turnPipeline s changes a n now) = true.
Proof.
  unfold turnPipeline. destruct (validated changes n s) as [n' ch].
  apply updateGameState_monotone.
Qed.

Lemma play_gameOver later :
  forall s, gameOver s = true -> gameOver (play s later) = true.
Proof.
  unfold play. induction later as [| t later IH]; simpl; intros s H; auto.
  apply IH, turnPipeline_gameOver, H.
Qed.

(** C1.  Health clamp and permanent death.  For every state whose health lies
    in [0,100] and every decoded change set, the turn pipeline
    (validateStateChanges, then updateGameState) yields a state whose health
    lies in [0,100]; when the applied (validated) health is at most 0 the
    resulting state has gameOver = true; and once gameOver is true no later
    turn, whatever its change set, yields a state where it is false. *)
Theorem health_clamped_and_death_permanent :
  forall (s : GameState) (changes : json) (action narrative now : string),
    (0 <= health (player s) <= 100)%Q ->
    let s' := turnPipeline s changes action narrative now in
    (0 <= health (player s') <= 100)%Q
    /\ (forall ch h, validateStateChanges changes s = Normal ch ->
          c_health ch = Some h -> (h <= 0)%Q -> gameOver s' = true)
    /\ (gameOver s' = true ->
        forall later : list TurnInput, gameOver (play s' later) = true)
    /\ (forall raw : string,
          exists n s'',
            applyTurn s action raw now = Normal (n, s'')
            /\ (0 <= health (player s'') <= 100)%Q
            /\ (gameOver s = true -> gameOver s'' = true)).
Proof.
  intros s changes action narrative now Hs s'. subst s'.
  split; [| split; [| split]].
  - unfold turnPipeline.
    pose proof (validated_health changes narrative s) as Hc.
    destruct (validated changes narrative s) as [n ch].
    apply updateGameState_health; assumption.
  - intros ch h Hv Hh Hle. unfold turnPipeline, validated. rewrite Hv.
    eapply updateGameState_death; eauto.
  - intros Hover later. apply play_gameOver, Hover.
  - intros raw.
    destruct (parseGameResponse_returns raw s) as (n & ch & E).
    unfold applyTurn. rewrite E. cbn [bind].
    exists n. eexists. split; [reflexivity |]. split.
    + apply updateGameState_health; [assumption |].
      eapply parseGameResponse_health; eauto.
    + apply updateGameState_monotone.
Qed.

(** A fatal turn on a healthy player. *)
Lemma health_clamped_and_death_permanent_witness :
  let s := sample_state 100 0 1 [] in
  let fatal := JObj [("health", JNum (-5))] in
  let s' := turnPipeline s fatal "provoke the dragon" "You burn." "t1" in
  (0 <= health (player s') <= 100)%Q
  /\ (forall ch h, validateStateChanges fatal s = Normal ch ->
        c_health ch = Some h -> (h <= 0)%Q -> gameOver s' = true)
  /\ (gameOver s' = true ->
      forall later : list TurnInput, gameOver (play s' later) = true)
  /\ (forall raw : string,
        exists n s'',
          applyTurn s "provoke the dragon" raw "t1" = Normal (n, s'')
          /\ (0 <= health (player s'') <= 100)%Q
          /\ (gameOver s = true -> gameOver s'' = true)).
Proof.
  apply (health_clamped_and_death_permanent
           (sample_state 100 0 1 []) (JObj [("health", JNum (-5))])
           "provoke the dragon" "You burn." "t1").
  simpl. lra.
Defined.

(** The fatal turn of the witness, computed, and a later turn that sets a
    positive health: the game stays over. *)
Example fatal_turn_then_heal :
  let s := sample_state 100 0 1 [] in
  let s' := turnPipeline s (JObj [("health", JNum (-5))]) "provoke" "n" "t1" in
  let s'' := turnPipeline s' (JObj [("health", JNum 60)]) "drink" "n" "t2" in
  health (player s') = 0%Q /\ gameOver s' = true
  /\ health (player s'') = 60%Q /\ gameOver s'' = true.
Proof. vm_compute. repeat split. Qed.

Lemma level_beforeLevelUp s a n c now :
  level (player (beforeLevelUp s a n c now)) = level (player s).
Proof.
  unfold beforeLevelUp.
  assert (L : forall x, level (player (advanceTime x)) = level (player x)).
  { intros x. unfold advanceTime. simpl. destruct (Qeqb _ 0); reflexivity. }
  rewrite L.
  destruct (middle_vitals c (applyHealth c (opening s a n now))) as (_ & V & _).
  rewrite V. unfold applyHealth.
  destruct (c_health c); [simpl; destruct (Qleb q 0) |]; reflexivity.
Qed.

Lemma currentLevel_beforeLevelUp s a n c now :
  currentLevel (beforeLevelUp s a n c now) = currentLevel s.
Proof. unfold currentLevel. rewrite level_beforeLevelUp. reflexivity. Qed.

(** C2, counterexample.  A level-1 player with no experience is awarded 500:
    the turn ends at level 2 with 400 experience, which still reaches the
    next threshold 100 * 2 (a loop would have gone on to level 3 with 200). *)
Lemma leveling_loop_counterexample :
  let s' := updateGameState (sample_state 100 0 1 []) "train" "You train."
              (only_experience 500) "t1" in
  level (player s') = Some 2%Q
  /\ experience (player s') = 400%Q
  /\ ~ (experience (player s') < 100 * currentLevel s')%Q.
Proof.
  vm_compute. repeat split. intros H. discriminate H.
Qed.

(** C2, amended.  The leveling step acts once per turn.  On whole numbers
    (health, experience, level and elapsed time of the prior state and of
    the state the leveling step receives, the health and the award of the
    change set, and the threshold), with the experience accumulated by the
    turn (that of the state the step receives) at or above
    100 * currentLevel, the level rises by exactly one, exactly
    100 * currentLevel experience is consumed and the remainder carried
    forward, and health is set to 100; below the threshold level,
    experience and health are left as they are.  So level 1 with 95
    experience and a +10 award gives level 2, experience 5, health 100; and
    an award that crosses several thresholds (500 at level 1) still gives a
    single level-up in that turn, with 400 carried forward. *)
Theorem leveling_one_level_per_turn :
  (forall (s : GameState) (action narrative : string) (c : Changes) (now : string),
     let p := beforeLevelUp s action narrative c now in
     let s' := updateGameState s action narrative c now in
     let threshold := (100 * currentLevel s)%Q in
     whole_state s = true ->
     whole_changes c = true ->
     whole_state p = true ->
     whole threshold = true ->
     if Qleb threshold (experience (player p)) then
       level (player s') = Some (currentLevel s + 1)%Q
       /\ experience (player s') = (experience (player p) - threshold)%Q
       /\ health (player s') = 100%Q
     else
       level (player s') = level (player s)
       /\ experience (player s') = experience (player p)
       /\ health (player s') = health (player p))
  /\ (let s' := updateGameState (sample_state 80 95 1 []) "explore" "You explore."
                  (only_experience 10) "t1" in
      level (player s') = Some 2%Q /\ experience (player s') = 5%Q
      /\ health (player s') = 100%Q)
  /\ (let s' := updateGameState (sample_state 80 0 1 []) "train" "You train."
                  (only_experience 500) "t1" in
      level (player s') = Some 2%Q /\ experience (player s') = 400%Q
      /\ health (player s') = 100%Q).
Proof.
  split; [| split; vm_compute; repeat split].
  intros s action narrative c now p s' threshold _ _ _ _.
  subst s'. rewrite updateGameState_steps. fold p.
  destruct (limitHistory_fields (levelUp p)) as (P & _). rewrite P.
  unfold levelUp. subst threshold.
  replace (currentLevel p) with (currentLevel s)
    by (symmetry; apply currentLevel_beforeLevelUp).
  destruct (Qleb (100 * currentLevel s) (experience (player p))); simpl.
  - repeat split.
  - repeat split. apply level_beforeLevelUp.
Qed.

Lemma leveling_one_level_per_turn_witness :
  let s := sample_state 80 95 1 [] in
  let c := only_experience 10 in
  let p := beforeLevelUp s "explore" "You explore." c "t1" in
  let s' := updateGameState s "explore" "You explore." c "t1" in
  (whole_state s = true /\ whole_changes c = true /\ whole_state p = true
   /\ whole (100 * currentLevel s)%Q = true
   /\ Qleb (100 * currentLevel s)%Q (experience (player p)) = true)
  /\ level (player s') = Some (currentLevel s + 1)%Q
  /\ experience (player s') = (experience (player p) - 100 * currentLevel s)%Q
  /\ health (player s') = 100%Q.
Proof.
  split; [repeat split; vm_compute; reflexivity |].
  pose proof (proj1 leveling_one_level_per_turn (sample_state 80 95 1 [])
                "explore" "You explore." (only_experience 10) "t1") as W.
  cbv zeta in W. exact (W eq_refl eq_refl eq_refl eq_refl).
Defined.










Lemma opening_history s a n now :
  gameHistory (opening s a n now)
  = (gameHistory s ++ [entry Action a; entry Narrative n])%list.
Proof.
  unfold opening, push. cbn [gameHistory with_lastAction with_gameHistory].
  rewrite <- app_assoc. reflexivity.
Qed.

Lemma limitHistory_history s :
  exists evicted,
    (gameHistory s = evicted ++ gameHistory (limitHistory s))%list
    /\ (evicted = [] \/ List.length (gameHistory (limitHistory s)) = 50)
    /\ (List.length (gameHistory s) <= 50 -> evicted = [])
    /\ List.length (gameHistory (limitHistory s)) <= 50.
Proof.
  unfold limitHistory. destruct (Nat.ltb_spec 50 (List.length (gameHistory s))).
  - exists (firstn (List.length (gameHistory s) - 50) (gameHistory s)).
    cbn [gameHistory with_gameHistory]. unfold slice_last.
    rewrite firstn_skipn, length_skipn. repeat split; lia.
  - exists []. repeat split; auto.
Qed.

Section HistoryCap.

Lemma notes_refl s : notes s s.
Proof. exists []. split; [symmetry; apply app_nil_r | constructor]. Qed.

Lemma notes_trans a b c : notes a b -> notes b c -> notes a c.
Proof.
  intros (l & E & F) (l' & E' & F'). exists (l ++ l')%list. split.
  - rewrite E', E, app_assoc. reflexivity.
  - apply Forall_app. split; assumption.
Qed.

Lemma notes_push x s s' :
  gameHistory s' = gameHistory (push System x s) -> notes s s'.
Proof.
  intros E. eexists. split; [rewrite E; reflexivity |].
  constructor; [reflexivity | constructor].
Qed.

Lemma notes_same s s' : gameHistory s' = gameHistory s -> notes s s'.
Proof.
  intros E. exists []. split; [rewrite E; symmetry; apply app_nil_r | constructor].
Qed.

(** Closes a [notes] goal about one step once its tests are decided. *)
Ltac note :=
  first [ apply notes_same; reflexivity
        | eapply notes_push; reflexivity ].

Lemma fold_notes B (f : GameState -> B -> GameState) :
  (forall s b, notes s (f s b)) -> forall l s, notes s (fold_left f l s).
Proof.
  intros H l. induction l as [| b l IH]; intros s; [apply notes_refl |].
  simpl. eapply notes_trans; [apply H | apply IH].
Qed.

Lemma applyHealth_notes c s : notes s (applyHealth c s).
Proof.
  unfold applyHealth. destruct (c_health c); [| apply notes_refl].
  cbv zeta. destruct (Qleb _ 0); note.
Qed.

Lemma addItem_notes s x : notes s (addItem s x).
Proof. unfold addItem. destruct (negb _); note. Qed.

Lemma removeItem_notes s x : notes s (removeItem s x).
Proof. unfold removeItem. destruct (includes _ _); note. Qed.

Lemma addQuest_notes s q : notes s (addQuest s q).
Proof. unfold addQuest. destruct (negb _); note. Qed.

Lemma addEffect_notes s e : notes s (addEffect s e).
Proof. unfold addEffect. destruct (negb _); note. Qed.

Lemma applyNewLocation_notes c s : notes s (applyNewLocation c s).
Proof.
  unfold applyNewLocation. destruct (c_newLocation c); [| apply notes_refl].
  cbv zeta. destruct (_ && _); note.
Qed.

Lemma applyNpcRelationships_notes c s : notes s (applyNpcRelationships c s).
Proof.
  unfold applyNpcRelationships. destruct (c_npcRelationships c);
    [| apply notes_refl].
  apply fold_notes. intros x e. note.
Qed.

Lemma applyStatusEffects_notes c s : notes s (applyStatusEffects c s).
Proof.
  unfold applyStatusEffects. destruct (c_statusEffects c); [| apply notes_refl].
  cbv zeta. eapply notes_trans; [| apply fold_notes, addEffect_notes].
  destruct (statusEffects (player s)); note.
Qed.

Lemma applyExperience_notes c s : notes s (applyExperience c s).
Proof.
  unfold applyExperience. destruct (c_experience c); [| apply notes_refl].
  destruct (negb _); [| apply notes_refl].
  cbv zeta. destruct (Qltb 0 _); note.
Qed.

Lemma decrementStatusEffects_notes s : notes s (decrementStatusEffects s).
Proof.
  unfold decrementStatusEffects.
  destruct (statusEffects (player s)) as [[| e l] |]; note.
Qed.

Lemma advanceTime_notes s : notes s (advanceTime s).
Proof. unfold advanceTime. cbv zeta. destruct (Qeqb _ 0); note. Qed.

Lemma levelUp_notes s : notes s (levelUp s).
Proof. unfold levelUp. cbv zeta. destruct (Qleb _ _); note. Qed.

Lemma applyAddItems_notes c s : notes s (applyAddItems c s).
Proof.
  unfold applyAddItems. destruct (c_addItems c); [| apply notes_refl].
  apply fold_notes, addItem_notes.
Qed.

Lemma applyRemoveItems_notes c s : notes s (applyRemoveItems c s).
Proof.
  unfold applyRemoveItems. destruct (c_removeItems c); [| apply notes_refl].
  apply fold_notes, removeItem_notes.
Qed.

Lemma applyAddQuests_notes c s : notes s (applyAddQuests c s).
Proof.
  unfold applyAddQuests. destruct (c_addQuests c); [| apply notes_refl].
  apply fold_notes, addQuest_notes.
Qed.

(** Until the cap is applied a turn appends: the action, the narrative,
    then system entries. *)
Lemma uncapped_history s a n c now :
  exists added,
    gameHistory (levelUp (beforeLevelUp s a n c now))
    = (gameHistory s ++ entry Action a :: entry Narrative n :: added)%list
    /\ Forall (fun e => entry_type e = System) added.
Proof.
  assert (N : notes (opening s a n now) (levelUp (beforeLevelUp s a n c now))).
  { unfold beforeLevelUp, middle.
    repeat (eapply notes_trans;
            [| first [ apply levelUp_notes | apply advanceTime_notes
                     | apply decrementStatusEffects_notes
                     | apply applyExperience_notes | apply applyStatusEffects_notes
                     | apply applyNpcRelationships_notes
                     | apply applyAddQuests_notes
                     | apply applyNewLocation_notes
                     | apply applyRemoveItems_notes
                     | apply applyAddItems_notes
                     | apply applyHealth_notes ] ]).
    apply notes_refl. }
  destruct N as (added & E & F). exists added. split; [| exact F].
  rewrite E, opening_history, <- app_assoc. reflexivity.
Qed.

(** The cap keeps the end of the history. *)
Lemma limitHistory_keeps_end s :
  gameHistory (limitHistory s)
  = skipn (List.length (gameHistory s) - 50) (gameHistory s).
Proof.
  unfold limitHistory.
  destruct (Nat.ltb_spec 50 (List.length (gameHistory s))) as [L | L].
  - reflexivity.
  - replace (List.length (gameHistory s) - 50) with 0 by lia. reflexivity.
Qed.

(** C7.  History cap.  For every state whose history has at most 50
    entries and every turn: the turn appends the action, the narrative and
    then system entries only, in that order; the resulting history is the
    appended history without its oldest entries, as many of them as exceed
    50; so it holds the most recent entries in their order, 50 of them or
    all that there are, and at most the two oldest entries and one for each
    system entry are evicted. *)
Theorem history_capped_most_recent :
  forall (s : GameState) (action narrative : string) (c : Changes) (now : string),
    List.length (gameHistory s) <= 50 ->
    let s' := updateGameState s action narrative c now in
    exists added,
      let appended :=
        (gameHistory s ++ entry Action action :: entry Narrative narrative
                       :: added)%list in
      Forall (fun e => entry_type e = System) added
      /\ gameHistory (levelUp (beforeLevelUp s action narrative c now)) = appended
      /\ gameHistory s' = skipn (List.length appended - 50) appended
      /\ List.length (gameHistory s') = Nat.min 50 (List.length appended)
      /\ List.length appended - 50 <= 2 + List.length added.
Proof.
  intros s action narrative c now Hlen s'. subst s'.
  destruct (uncapped_history s action narrative c now) as (added & E & F).
  exists added. cbv zeta. split; [exact F |]. split; [exact E |].
  rewrite updateGameState_steps, limitHistory_keeps_end, E.
  split; [reflexivity |].
  rewrite length_skipn, !length_app. cbn [List.length]. split; lia.
Qed.

Lemma history_capped_most_recent_witness :
  let old := repeat (entry Narrative "earlier") 49 in
  let s := with_gameHistory old (sample_state 100 0 1 []) in
  let s' := updateGameState s "look" "You look around." (only_experience 10) "t1" in
  exists added,
    let appended :=
      (gameHistory s ++ entry Action "look" :: entry Narrative "You look around."
                     :: added)%list in
    Forall (fun e => entry_type e = System) added
    /\ gameHistory (levelUp (beforeLevelUp s "look" "You look around."
                                           (only_experience 10) "t1")) = appended
    /\ gameHistory s' = skipn (List.length appended - 50) appended
    /\ List.length (gameHistory s') = Nat.min 50 (List.length appended)
    /\ List.length appended - 50 <= 2 + List.length added.
Proof.
  apply (@history_capped_most_recent
           (with_gameHistory (repeat (entry Narrative "earlier") 49)
                         (sample_state 100 0 1 []))
           "look" "You look around." (only_experience 10) "t1").
  simpl. lia.
Defined.

(** The turn of the witness: 49 entries, then the action, the narrative and
    one system entry make 52; the two oldest are evicted and the history ends
    with the three new entries. *)
Example history_cap_evicts :
  let old := repeat (entry Narrative "earlier") 49 in
  let s := with_gameHistory old (sample_state 100 0 1 []) in
  let s' := updateGameState s "look" "You look around." (only_experience 10) "t1" in
  gameHistory s'
  = (repeat (entry Narrative "earlier") 47
     ++ [entry Action "look"; entry Narrative "You look around.";
         entry System "Experience gained: 10"])%list.
Proof. vm_compute. reflexivity. Qed.

End HistoryCap.

Section Retag.
Variable loc : option Location.
Variable la : option (option LastAction).

Ltac fields :=
  cbn [player world currentLocation gameHistory discoveredLocations
       npcRelationships timeElapsed lastAction gameOver other retag
       health inventory quests experience level statusEffects player_other
       with_player with_currentLocation with_gameHistory
       with_discoveredLocations with_npcRelationships with_timeElapsed
       with_lastAction with_gameOver
       with_health with_inventory with_quests with_experience with_level
       with_statusEffects push].

Lemma applyHealth_retag c s :
  applyHealth c (retag loc la s) = retag loc la (applyHealth c s).
Proof.
  unfold applyHealth. destruct (c_health c); [| reflexivity].
  fields. destruct (Qleb q 0); reflexivity.
Qed.

Lemma addItem_retag s x : addItem (retag loc la s) x = retag loc la (addItem s x).
Proof. unfold addItem. fields. destruct (negb _); reflexivity. Qed.

Lemma removeItem_retag s x :
  removeItem (retag loc la s) x = retag loc la (removeItem s x).
Proof. unfold removeItem. fields. destruct (includes _ _); reflexivity. Qed.

Lemma addQuest_retag s q : addQuest (retag loc la s) q = retag loc la (addQuest s q).
Proof. unfold addQuest. fields. destruct (negb _); reflexivity. Qed.

Lemma addEffect_retag s e :
  addEffect (retag loc la s) e = retag loc la (addEffect s e).
Proof. unfold addEffect, active. fields. destruct (negb _); reflexivity. Qed.

Lemma early_retag c s : early c (retag loc la s) = retag loc la (early c s).
Proof.
  unfold early. rewrite applyHealth_retag.
  unfold applyAddItems. destruct (c_addItems c) as [l |].
  - rewrite (fold_left_commute (retag loc la) addItem addItem_retag).
    unfold applyRemoveItems. destruct (c_removeItems c) as [l' |]; auto.
    apply (fold_left_commute (retag loc la) removeItem removeItem_retag).
  - unfold applyRemoveItems. destruct (c_removeItems c) as [l' |]; auto.
    apply (fold_left_commute (retag loc la) removeItem removeItem_retag).
Qed.

Lemma applyAddQuests_retag c s :
  applyAddQuests c (retag loc la s) = retag loc la (applyAddQuests c s).
Proof.
  unfold applyAddQuests. destruct (c_addQuests c); auto.
  apply (fold_left_commute (retag loc la) addQuest addQuest_retag).
Qed.

Lemma applyNpcRelationships_retag c s :
  applyNpcRelationships c (retag loc la s)
  = retag loc la (applyNpcRelationships c s).
Proof.
  unfold applyNpcRelationships. destruct (c_npcRelationships c); auto.
  apply (fold_left_commute (retag loc la)). reflexivity.
Qed.

Lemma applyStatusEffects_retag c s :
  applyStatusEffects c (retag loc la s) = retag loc la (applyStatusEffects c s).
Proof.
  unfold applyStatusEffects. destruct (c_statusEffects c); auto. fields.
  destruct (statusEffects (player s)).
  - apply (fold_left_commute (retag loc la) addEffect addEffect_retag).
  - change (with_player (with_statusEffects (Some [])) (retag loc la s))
      with (retag loc la (with_player (with_statusEffects (Some [])) s)).
    apply (fold_left_commute (retag loc la) addEffect addEffect_retag).
Qed.

Lemma applyExperience_retag c s :
  applyExperience c (retag loc la s) = retag loc la (applyExperience c s).
Proof.
  unfold applyExperience. destruct (c_experience c); auto.
  destruct (negb _); auto. destruct (Qltb 0 q); reflexivity.
Qed.

Lemma decrementStatusEffects_retag s :
  decrementStatusEffects (retag loc la s) = retag loc la (decrementStatusEffects s).
Proof.
  unfold decrementStatusEffects. fields.
  destruct (statusEffects (player s)) as [[| e l] |]; reflexivity.
Qed.

Lemma advanceTime_retag s : advanceTime (retag loc la s) = retag loc la (advanceTime s).
Proof. unfold advanceTime. fields. destruct (Qeqb _ 0); reflexivity. Qed.

Lemma levelUp_retag s : levelUp (retag loc la s) = retag loc la (levelUp s).
Proof.
  unfold levelUp, currentLevel. fields.
  destruct (Qleb _ _); reflexivity.
Qed.

Lemma limitHistory_retag s : limitHistory (retag loc la s) = retag loc la (limitHistory s).
Proof. unfold limitHistory. fields. destruct (Nat.ltb _ _); reflexivity. Qed.

Lemma late_retag c s : late c (retag loc la s) = retag loc la (late c s).
Proof.
  unfold late.
  rewrite applyAddQuests_retag, applyNpcRelationships_retag,
    applyStatusEffects_retag, applyExperience_retag,
    decrementStatusEffects_retag, advanceTime_retag, levelUp_retag,
    limitHistory_retag.
  reflexivity.
Qed.

End Retag.

(** The location change commutes with a change of the last action. *)
Lemma applyNewLocation_retag la c s :
  applyNewLocation c (retag None la s) = retag None la (applyNewLocation c s).
Proof.
  unfold applyNewLocation. destruct (c_newLocation c); auto.
  cbn [discoveredLocations with_currentLocation retag].
  destruct (_ && _); reflexivity.
Qed.

Lemma updateGameState_parts s a n c now :
  updateGameState s a n c now
  = late c (applyNewLocation c (early c (opening s a n now))).
Proof. unfold updateGameState, late, early, opening. reflexivity. Qed.

Lemma updateGameState_without_newLocation s a n c now :
  updateGameState s a n (without_newLocation c) now
  = late c (early c (opening s a n now)).
Proof.
  unfold updateGameState, late, early, opening.
  unfold applyHealth, applyAddItems, applyRemoveItems, applyNewLocation,
    applyAddQuests, applyNpcRelationships, applyStatusEffects, applyExperience.
  cbn [without_newLocation c_health c_addItems c_removeItems c_newLocation
       c_addQuests c_npcRelationships c_experience c_statusEffects].
  reflexivity.
Qed.

(** The clock reading reaches the last action and nothing else. *)
Lemma updateGameState_clock s a n c now :
  updateGameState s a n c now
  = with_lastAction (Some {| la_text := a; la_timestamp := now |})
      (late c (applyNewLocation c
         (early c (push Narrative n (push Action a s))))).
Proof.
  rewrite updateGameState_parts. unfold opening.
  change (with_lastAction ?x ?y) with (retag None (Some x) y).
  rewrite early_retag, applyNewLocation_retag, late_retag. reflexivity.
Qed.

(** The early steps leave the discovered locations alone. *)
Lemma early_discoveredLocations c s :
  discoveredLocations (early c s) = discoveredLocations s.
Proof.
  unfold early, applyRemoveItems, applyAddItems.
  assert (R : forall l x, discoveredLocations (fold_left removeItem l x)
                          = discoveredLocations x).
  { intros l x. apply (fold_left_inv (fun y => discoveredLocations y = discoveredLocations x)); auto.
    intros y b H. unfold removeItem. destruct (includes _ _); auto. }
  assert (A : forall l x, discoveredLocations (fold_left addItem l x)
                          = discoveredLocations x).
  { intros l x. apply (fold_left_inv (fun y => discoveredLocations y = discoveredLocations x)); auto.
    intros y b H. unfold addItem. destruct (negb _); auto. }
  assert (H : discoveredLocations (applyHealth c s) = discoveredLocations s).
  { unfold applyHealth. destruct (c_health c); auto.
    cbn [player with_player health with_health]. destruct (Qleb q 0); reflexivity. }
  destruct (c_removeItems c), (c_addItems c); rewrite ?R, ?A; exact H.
Qed.

(** Travel to a location already discovered only replaces the current
    location. *)
Lemma revisit_is_relocation s a n c now loc :
  c_newLocation c = Some loc ->
  includes (discoveredLocations s) (loc_id loc) = true ->
  updateGameState s a n c now
  = with_currentLocation loc
      (updateGameState s a n (without_newLocation c) now).
Proof.
  intros E I.
  rewrite updateGameState_without_newLocation, updateGameState_parts.
  change (with_currentLocation loc ?y) with (retag (Some loc) None y).
  rewrite <- late_retag. f_equal.
  unfold applyNewLocation. rewrite E.
  cbn [discoveredLocations with_currentLocation].
  rewrite early_discoveredLocations.
  change (discoveredLocations (opening s a n now)) with (discoveredLocations s).
  rewrite I, andb_false_r. reflexivity.
Qed.

Lemma late_discoveredLocations c s :
  discoveredLocations (late c s) = discoveredLocations s.
Proof.
  unfold late.
  destruct (limitHistory_fields
              (levelUp (advanceTime (decrementStatusEffects
                 (applyExperience c (applyStatusEffects c
                    (applyNpcRelationships c (applyAddQuests c s))))))))
    as (_ & _ & D & _).
  rewrite D. clear D.
  assert (L : forall x, discoveredLocations (levelUp x) = discoveredLocations x).
  { intros x. unfold levelUp. destruct (Qleb _ _); reflexivity. }
  assert (T : forall x, discoveredLocations (advanceTime x) = discoveredLocations x).
  { intros x. unfold advanceTime. cbn [timeElapsed with_timeElapsed].
    destruct (Qeqb _ 0); reflexivity. }
  assert (D : forall x, discoveredLocations (decrementStatusEffects x)
                        = discoveredLocations x).
  { intros x. unfold decrementStatusEffects.
    destruct (statusEffects (player x)) as [[| e l] |]; reflexivity. }
  assert (X : forall x, discoveredLocations (applyExperience c x)
                        = discoveredLocations x).
  { intros x. unfold applyExperience. destruct (c_experience c); auto.
    destruct (negb _); auto. destruct (Qltb 0 q); reflexivity. }
  assert (E : forall x, discoveredLocations (applyStatusEffects c x)
                        = discoveredLocations x).
  { intros x. unfold applyStatusEffects. destruct (c_statusEffects c); auto.
    apply (fold_left_inv (fun y => discoveredLocations y = discoveredLocations x)).
    - intros y b H. unfold addEffect. destruct (negb _); auto.
    - destruct (statusEffects (player x)); reflexivity. }
  assert (N : forall x, discoveredLocations (applyNpcRelationships c x)
                        = discoveredLocations x).
  { intros x. unfold applyNpcRelationships. destruct (c_npcRelationships c); auto.
    apply (fold_left_inv (fun y => discoveredLocations y = discoveredLocations x));
      auto. }
  assert (Q : forall x, discoveredLocations (applyAddQuests c x)
                        = discoveredLocations x).
  { intros x. unfold applyAddQuests. destruct (c_addQuests c); auto.
    apply (fold_left_inv (fun y => discoveredLocations y = discoveredLocations x));
      auto.
    intros y b H. unfold addQuest. destruct (negb _); auto. }
  rewrite L, T, D, X, E, N, Q. reflexivity.
Qed.

Lemma turnPipeline_discovered s changes a n now x :
  In x (discoveredLocations s) ->
  In x (discoveredLocations (turnPipeline s changes a n now)).
Proof.
  intros H. unfold turnPipeline. destruct (validated changes n s) as [n' ch].
  destruct (updateGameState_monotone s a n' ch now) as (_ & [l E]).
  rewrite E. apply in_or_app. left. exact H.
Qed.

Lemma play_discovered turns :
  forall s x, In x (discoveredLocations s) ->
              In x (discoveredLocations (play s turns)).
Proof.
  unfold play. induction turns as [| t turns IH]; simpl; intros s x H; auto.
  apply IH, turnPipeline_discovered, H.
Qed.

(** C8.  discoveredLocations is append-only and always contains the starting
    location's id.  Every turn extends the previous list at its end; the
    initial state lists the starting location's id and every play from it
    still does; and a turn whose newLocation has an id already discovered is
    the same turn without newLocation followed by the replacement of
    currentLocation: the id is not appended again, no discovery experience
    is awarded and no discovery entry is logged. *)
Theorem discoveredLocations_append_only :
  (forall (s : GameState) (action narrative : string) (c : Changes) (now : string),
     exists l, discoveredLocations (updateGameState s action narrative c now)
               = (discoveredLocations s ++ l)%list)
  /\ (forall (ws : WorldSettings) (name now : string) (turns : list TurnInput),
        In (loc_id (ws_startingLocation ws))
           (discoveredLocations (play (initializeGameState ws name now) turns)))
  /\ (forall (s : GameState) (action narrative : string) (c : Changes)
             (now : string) (loc : Location),
        c_newLocation c = Some loc ->
        includes (discoveredLocations s) (loc_id loc) = true ->
        let s' := updateGameState s action narrative c now in
        let r := updateGameState s action narrative (without_newLocation c) now in
        s' = with_currentLocation loc r
        /\ discoveredLocations s' = discoveredLocations s
        /\ experience (player s') = experience (player r)
        /\ gameHistory s' = gameHistory r).
Proof.
  split; [| split].
  - intros. apply updateGameState_monotone.
  - intros. apply play_discovered. simpl. left. reflexivity.
  - intros s action narrative c now loc E I s' r. subst s'.
    assert (D : discoveredLocations r = discoveredLocations s).
    { subst r.
      rewrite updateGameState_without_newLocation, late_discoveredLocations,
        early_discoveredLocations.
      reflexivity. }
    rewrite (@revisit_is_relocation s action narrative c now loc E I).
    fold r. clearbody r.
    split; [reflexivity |]. split; [exact D |]. split; reflexivity.
Qed.

Lemma discoveredLocations_append_only_witness :
  let s := sample_state 100 0 1 [] in
  let c := only_newLocation forest_edge in
  let s' := updateGameState s "go back" "You return." c "t1" in
  let r := updateGameState s "go back" "You return." (without_newLocation c) "t1" in
  s' = with_currentLocation forest_edge r
  /\ discoveredLocations s' = discoveredLocations s
  /\ experience (player s') = experience (player r)
  /\ gameHistory s' = gameHistory r.
Proof.
  destruct discoveredLocations_append_only as (_ & _ & H).
  apply (H (sample_state 100 0 1 []) "go back" "You return."
           (only_newLocation forest_edge) "t1" forest_edge); reflexivity.
Defined.

(** A first visit, for contrast: the id is appended, 10 experience is
    awarded and the discovery is logged. *)
Example first_visit :
  let cave := {| loc_id := "dark_cave"; loc_name := "Dark Cave";
                 loc_description := "A cave." |} in
  let s := sample_state 100 0 1 [] in
  let s' := updateGameState s "enter" "You enter." (only_newLocation cave) "t1" in
  discoveredLocations s' = ["forest_edge"; "dark_cave"]
  /\ experience (player s') = 10%Q
  /\ In {| entry_type := System; entry_text := "Discovered new location: Dark Cave" |}
        (gameHistory s').
Proof. vm_compute. repeat split. right. right. left. reflexivity. Qed.

Lemma obj_get_set_other {V} (m : list (string * V)) k k' v :
  k <> k' -> obj_get (obj_set m k' v) k = obj_get m k.
Proof.
  intros N. induction m as [| [k0 v0] m IH]; simpl.
  - destruct (String.eqb_spec k k'); [contradiction | reflexivity].
  - destruct (String.eqb_spec k' k0) as [-> | N0]; simpl.
    + destruct (String.eqb_spec k k0); [contradiction | reflexivity].
    + destruct (String.eqb_spec k k0); auto.
Qed.

Lemma generateEnvironment_draws w r1 r2 :
  match generateEnvironment w r1, generateEnvironment w r2 with
  | Normal _, Normal _ => True
  | Throw e1, Throw e2 => e1 = e2
  | _, _ => False
  end.
Proof.
  unfold generateEnvironment, bind.
  destruct (get w "type"); auto.
  destruct (call_toLowerCase a); auto.
Qed.

Lemma enhanceWorldData_draws w r1 r2 :
  match enhanceWorldData w r1, enhanceWorldData w r2 with
  | Normal (JObj m1), Normal (JObj m2) =>
      forall k, k <> "environment" -> obj_get m1 k = obj_get m2 k
  | Throw e1, Throw e2 => e1 = e2
  | _, _ => False
  end.
Proof.
  unfold enhanceWorldData, bind.
  destruct (generateNearbyLocations w); auto.
  destruct (generateBasicNPCs w); auto.
  pose proof (generateEnvironment_draws w r1 r2) as H.
  destruct (generateEnvironment w r1), (generateEnvironment w r2); auto.
  intros k N.
  rewrite 2 (@obj_get_set_other _ _ k "environment") by assumption.
  reflexivity.
Qed.


(** C6, amended.  Given the same previous state, action text and response
    text, two runs of applyTurn return the same narrative and states that
    agree on everything except lastAction.timestamp, which is the clock
    reading of each run; and two runs of generateWorld on the same model
    reply return worlds that agree on every property except environment,
    the only one built from random draws. *)
Theorem deterministic_up_to_clock_and_draws :
  (forall (s : GameState) (action raw t1 t2 : string),
     exists narrative s1 s2,
       applyTurn s action raw t1 = Normal (narrative, s1)
       /\ applyTurn s action raw t2 = Normal (narrative, s2)
       /\ with_lastAction None s1 = with_lastAction None s2
       /\ lastAction s1 = Some {| la_text := action; la_timestamp := t1 |}
       /\ lastAction s2 = Some {| la_text := action; la_timestamp := t2 |})
  /\ (forall (openai : option string -> completion string)
             (worldType : option string) (r1 r2 : Draws),
        exists m1 m2,
          generateWorld openai worldType r1 = Normal (JObj m1)
          /\ generateWorld openai worldType r2 = Normal (JObj m2)
          /\ forall k, k <> "environment" -> obj_get m1 k = obj_get m2 k).
Proof.
  split.
  - intros s action raw t1 t2.
    destruct (parseGameResponse_returns raw s) as (narrative & ch & E).
    unfold applyTurn. rewrite E. simpl.
    exists narrative. do 2 eexists.
    split; [reflexivity |]. split; [reflexivity |].
    rewrite !updateGameState_clock.
    generalize (late ch (applyNewLocation ch
                  (early ch (push Narrative narrative (push Action action s))))).
    intros x. split; [| split]; reflexivity.
  - intros openai worldType r1 r2.
    unfold generateWorld, try_catch, bind.
    destruct (openai worldType) as [content | e].
    + destruct (parseWorldGeneration content) as [w | e].
      * pose proof (enhanceWorldData_draws w r1 r2) as H.
        destruct (enhanceWorldData w r1) as [[| | | | | m1] | e1],
                 (enhanceWorldData w r2) as [[| | | | | m2] | e2];
          try contradiction; eauto.
        all: unfold getFallbackWorld; eauto.
      * unfold getFallbackWorld; eauto.
    + unfold getFallbackWorld; eauto.
Qed.

Lemma extractAndFixStateChanges_returns text :
  exists m, extractAndFixStateChanges text = Normal (JObj m).
Proof. unfold extractAndFixStateChanges, try_catch. eauto. Qed.

Lemma decodeStateChanges_returns section :
  exists v, decodeStateChanges section = Normal v.
Proof.
  unfold decodeStateChanges, try_catch. destruct section as [text |]; eauto.
  destruct (JSON.parse _); eauto.
  destruct (extractAndFixStateChanges_returns text) as [m E]. eauto.
Qed.

(** C4.  parseGameResponse never throws: for every raw response and state
    it returns a narrative and a change set.  When the state-changes section
    is the malformed JSON {"health": 50, "addItems": [oops} the strict parse
    raises a SyntaxError, the regex fallback decoder recovers health = 50,
    and the call returns the narrative (not the generic error narrative)
    with a change set whose health is 50.  The fallback decoder itself
    always returns an object, and the empty object when no field pattern
    matches. *)
Theorem parseGameResponse_never_throws :
  (forall (raw : string) (s : GameState),
     exists narrative ch, parseGameResponse raw s = Normal (narrative, ch))
  /\ (forall (raw : string) (s : GameState),
        stateChangesSection raw = Some malformed_section ->
        JSON.parse (cleanJson (trim malformed_section)) = Throw SyntaxError
        /\ decodeStateChanges (stateChangesSection raw)
           = Normal (JObj [("health", JNum 50)])
        /\ exists ch,
             parseGameResponse raw s
             = Normal (sanitizeNarrative (extractNarrative raw), ch)
             /\ c_health ch = Some 50%Q)
  /\ (forall text : string,
        exists m, extractAndFixStateChanges text = Normal (JObj m))
  /\ (forall text : string,
        no_field_matches text ->
        extractAndFixStateChanges text = Normal (JObj [])).
Proof.
  split; [| split; [| split]].
  - apply parseGameResponse_returns.
  - intros raw s H.
    assert (D : decodeStateChanges (Some malformed_section)
                = Normal (JObj [("health", JNum 50)]))
      by (vm_compute; reflexivity).
    split; [vm_compute; reflexivity |]. split; [rewrite H; exact D |].
    assert (V : validateStateChanges (JObj [("health", JNum 50)]) s
                = Normal (only_health 50))
      by (vm_compute; reflexivity).
    unfold parseGameResponse, parseGameResponse_try. rewrite H, D.
    cbn [bind]. rewrite V. cbn [bind try_catch].
    exists (only_health 50). split; reflexivity.
  - apply extractAndFixStateChanges_returns.
  - intros text (H1 & H2 & H3 & H4 & H5 & H6 & H7).
    unfold extractAndFixStateChanges, set_number_field, set_array_field,
      set_newLocation, set_npcRelationships, captured.
    rewrite H1, H2, H3, H4, H5, H6, H7. reflexivity.
Qed.

Lemma parseGameResponse_never_throws_witness :
  let s := sample_state 100 0 1 [] in
  JSON.parse (cleanJson (trim malformed_section)) = Throw SyntaxError
  /\ decodeStateChanges (stateChangesSection malformed_response)
     = Normal (JObj [("health", JNum 50)])
  /\ exists ch,
       parseGameResponse malformed_response s
       = Normal (sanitizeNarrative (extractNarrative malformed_response), ch)
       /\ c_health ch = Some 50%Q.
Proof.
  destruct parseGameResponse_never_throws as (_ & H & _).
  apply (H malformed_response (sample_state 100 0 1 [])).
  vm_compute. reflexivity.
Defined.

(** The malformed response of the witness, computed; and a fallback run in
    which nothing matches. *)
Example malformed_response_parsed :
  parseGameResponse malformed_response (sample_state 100 0 1 [])
  = Normal ("You walk.", only_health 50)
  /\ no_field_matches "The model went quiet."
  /\ extractAndFixStateChanges "The model went quiet." = Normal (JObj []).
Proof. vm_compute. repeat split. Qed.

(** A response whose two markers meet: the returned narrative is the JSON
    text of the state-changes section, and the health change is applied. *)
Example empty_narrative_turn :
  let s := sample_state 100 0 1 [] in
  parseGameResponse empty_narrative_response s
  = Normal (dq "{'health': 40}", only_health 40)
  /\ (exists s', applyTurn s "rest" empty_narrative_response "t1"
                 = Normal (dq "{'health': 40}", s')
                 /\ health (player s') = 40%Q).
Proof.
  split; [vm_compute; reflexivity |].
  eexists. split; vm_compute; reflexivity.
Qed.

Section TrailingComma.
Variable close : ascii.
Hypothesis close_not_space : is_space close = false.
Hypothesis close_not_comma : Ascii.eqb close "," = false.

Let P : re := re_trailing_comma close.
Let rep : string := String close EmptyString.
Let R := replace_go no_flags P rep.

Lemma str_length_app (a b : string) : length (a ++ b) = length a + length b.
Proof. induction a; simpl; auto. Qed.

Lemma str_app_assoc (a b c : string) : (a ++ b) ++ c = a ++ b ++ c.
Proof. induction a; simpl; congruence. Qed.

Lemma star_ws_close n :
  forall s prev, length s <= n ->
    star (m no_flags ws) true
         (fun p s' cs' => m no_flags (Lit close) p s' cs' accept) n prev s []
    = option_map (fun r => (r, [])) (after_ws close s).
Proof.
  induction n as [| n IH]; intros s prev L.
  - destruct s; [reflexivity | simpl in L; lia].
  - destruct s as [| c r]; [reflexivity |].
    cbn [star m ws after_ws existsb atom_match xorb orb].
    rewrite orb_false_r.
    destruct (is_space c) eqn:Sp.
    + assert (Lt : Nat.ltb (length r) (length (String c r)) = true)
        by (apply Nat.ltb_lt; simpl; lia).
      rewrite Lt, IH by (simpl in L; lia).
      destruct (after_ws close r); [reflexivity |].
      cbn [option_map]. unfold canon. cbn [ignoreCase no_flags].
      destruct (Ascii.eqb_spec close c) as [-> |]; [congruence | reflexivity].
    + unfold canon. cbn [ignoreCase no_flags].
      destruct (Ascii.eqb close c); reflexivity.
Qed.

Lemma m_trailing prev s :
  m no_flags P prev s [] accept
  = match s with
    | String c r =>
        if Ascii.eqb "," c
        then option_map (fun r => (r, [])) (after_ws close r)
        else None
    | EmptyString => None
    end.
Proof.
  destruct s as [| c r]; [reflexivity |].
  unfold P, re_trailing_comma. cbn [m]. unfold canon. cbn [ignoreCase no_flags].
  destruct (Ascii.eqb "," c); [| reflexivity].
  apply star_ws_close. lia.
Qed.

Lemma R_prev s : forall skip p p', R skip p s = R skip p' s.
Proof.
  induction s as [| c r IH]; intros skip p p'.
  - destruct skip; [| reflexivity].
    unfold R. cbn [replace_go]. rewrite !m_trailing. reflexivity.
  - destruct skip as [| k]; unfold R; cbn [replace_go]; [| reflexivity].
    rewrite !m_trailing. reflexivity.
Qed.

Lemma R_skip u : forall b p p', R (length u) p (u ++ b) = R 0 p' b.
Proof.
  induction u as [| c u IH]; intros b p p'; simpl.
  - apply R_prev.
  - unfold R. cbn [replace_go]. apply IH.
Qed.

Lemma after_ws_app s t :
  after_ws close (s ++ String "," t)
  = option_map (fun r => r ++ String "," t) (after_ws close s).
Proof.
  induction s as [| c r IH]; simpl.
  - rewrite close_not_comma. reflexivity.
  - destruct (is_space c); auto. destruct (Ascii.eqb close c); reflexivity.
Qed.

Lemma after_ws_length s r :
  after_ws close s = Some r -> exists k, length s = S (k + length r).
Proof.
  revert r. induction s as [| c s IH]; simpl; intros r H; [discriminate |].
  destruct (is_space c).
  - destruct (IH r H) as [k E]. exists (S k). lia.
  - destruct (Ascii.eqb close c); [| discriminate].
    injection H as <-. exists 0. lia.
Qed.

Lemma after_ws_spaces w b :
  all_space w = true -> after_ws close (w ++ String close b) = Some b.
Proof.
  induction w as [| c w IH]; simpl; intros H.
  - rewrite close_not_space, Ascii.eqb_refl. reflexivity.
  - apply andb_true_iff in H as [H1 H2]. rewrite H1. auto.
Qed.

Lemma R_occurrence a :
  forall w b skip prev,
    all_space w = true -> skip <= length a ->
    R skip prev (a ++ String "," (w ++ String close b))
    = R skip prev a ++ String close (R 0 None b).
Proof.
  induction a as [| c a IH]; intros w b skip prev W L.
  - assert (skip = 0) by (simpl in L; lia). subst skip.
    unfold R at 1 2. cbn [append replace_go]. rewrite !m_trailing.
    cbn [Ascii.eqb Bool.eqb andb]. rewrite after_ws_spaces by assumption.
    cbn [option_map length].
    replace (S (length (w ++ String close b)) - length b)
      with (S (length (w ++ String close EmptyString))).
    2:{ rewrite !str_length_app. cbn [length]. lia. }
    unfold rep. cbn [append].
    replace (w ++ String close b) with ((w ++ String close EmptyString) ++ b)
      by (rewrite str_app_assoc; reflexivity).
    f_equal. apply R_skip.
  - destruct skip as [| k].
    + unfold R at 1 2. cbn [append replace_go]. rewrite !m_trailing.
      destruct (Ascii.eqb "," c) eqn:Ec.
      * rewrite after_ws_app.
        destruct (after_ws close a) as [r |] eqn:Ea; cbn [option_map].
        -- destruct (after_ws_length _ Ea) as [k E].
           replace (length (String c (a ++ String "," (w ++ String close b)))
                    - length (r ++ String "," (w ++ String close b)))
             with (S (S k))
             by (cbn [length]; rewrite !str_length_app; cbn [length]; lia).
           replace (length (String c a) - length r) with (S (S k))
             by (cbn [length]; lia).
           fold R. rewrite IH by (assumption || lia).
           unfold rep. reflexivity.
        -- fold R. rewrite IH by (assumption || lia). reflexivity.
      * fold R. rewrite IH by (assumption || lia). reflexivity.
    + unfold R at 1 2. cbn [append replace_go]. fold R.
      apply IH; [assumption | simpl in L; lia].
Qed.

Lemma replace_all_occurrence a w b :
  all_space w = true ->
  replace_all no_flags (re_trailing_comma close) (String close EmptyString)
    (a ++ String "," (w ++ String close b))
  = replace_all no_flags (re_trailing_comma close) (String close EmptyString) a
    ++ String close
         (replace_all no_flags (re_trailing_comma close)
            (String close EmptyString) b).
Proof.
  intros W. unfold replace_all. apply (R_occurrence a w b None W). lia.
Qed.

End TrailingComma.

(** C9.  The trailing-comma repair is a blind textual substitution.  Whatever
    text [a] comes before and [b] after, an occurrence of a comma, optional
    whitespace and a closing brace (bracket) is rewritten to the brace
    (bracket), and [a] and [b] are repaired on their own: the position of
    the occurrence, inside a JSON string literal or not, plays no part.  So
    for the valid JSON {"addItems": ["rope, }knife"]} the decoded change set
    holds the item rope}knife where JSON.parse of the original text holds
    rope, }knife; the same happens with a bracket. *)
Theorem trailing_comma_repair_is_blind :
  (forall (close : ascii) (a w b : string),
     close = "}"%char \/ close = "]"%char ->
     all_space w = true ->
     replace_all no_flags (re_trailing_comma close) (String close EmptyString)
       (a ++ String "," (w ++ String close b))
     = replace_all no_flags (re_trailing_comma close) (String close EmptyString) a
       ++ String close
            (replace_all no_flags (re_trailing_comma close)
               (String close EmptyString) b))
  /\ (JSON.parse string_literal_with_brace
      = Normal (JObj [("addItems", JArr [JStr "rope, }knife"])])
      /\ decodeStateChanges (Some string_literal_with_brace)
         = Normal (JObj [("addItems", JArr [JStr "rope}knife"])]))
  /\ (JSON.parse string_literal_with_bracket
      = Normal (JObj [("addItems", JArr [JStr "rope,]knife"])])
      /\ decodeStateChanges (Some string_literal_with_bracket)
         = Normal (JObj [("addItems", JArr [JStr "rope]knife"])]))
  /\ (forall s : GameState,
        exists original decoded,
          bind (JSON.parse string_literal_with_brace)
               (fun v => validateStateChanges v s) = Normal original
          /\ bind (decodeStateChanges (Some string_literal_with_brace))
                  (fun v => validateStateChanges v s) = Normal decoded
          /\ c_addItems original = Some ["rope, }knife"]
          /\ c_addItems decoded = Some ["rope}knife"]
          /\ original <> decoded).
Proof.
  split; [| split; [| split]].
  - intros close a w b [-> | ->] W; apply replace_all_occurrence; auto.
  - split; vm_compute; reflexivity.
  - split; vm_compute; reflexivity.
  - intros s. do 2 eexists.
    split; [vm_compute; reflexivity |].
    split; [vm_compute; reflexivity |].
    split; [reflexivity |]. split; [reflexivity |].
    intros H. apply (f_equal c_addItems) in H. discriminate H.
Qed.

Lemma trailing_comma_repair_is_blind_witness :
  replace_all no_flags (re_trailing_comma "}") "}"
    (dq "{'note': 'a" ++ String "," ("  " ++ String "}" (dq "b'}")))
  = replace_all no_flags (re_trailing_comma "}") "}" (dq "{'note': 'a")
    ++ String "}" (replace_all no_flags (re_trailing_comma "}") "}" (dq "b'}")).
Proof.
  destruct trailing_comma_repair_is_blind as (H & _).
  apply (H "}"%char (dq "{'note': 'a") "  " (dq "b'}")).
  - left. reflexivity.
  - reflexivity.
Defined.

Lemma parseWorldGeneration_unparseable content :
  unparseable content -> parseWorldGeneration content = Normal getFallbackWorld.
Proof.
  unfold unparseable, parseWorldGeneration, try_catch, bind.
  destruct (exec no_flags re_json content) as [jm |]; [| reflexivity].
  intros [e E]. rewrite E. reflexivity.
Qed.

Lemma enhance_fallback rnd :
  enhanceWorldData getFallbackWorld rnd
  = Normal (enhanced_fallback (drawn_environment rnd)).
Proof. reflexivity. Qed.

(** C5, what the code does.  When no JSON object can be parsed from the model
    response, generateWorld returns the fallback world with name Eldoria and
    type fantasy for any requested world type, but not the fixed fallback
    world: parseWorldGeneration swallows the failure and hands the fallback
    world to enhanceWorldData, which overwrites its nearbyLocations and npcs
    with the fantasy tables and its environment with random draws.  Every
    other property is the hard-coded one. *)
Theorem fallback_world_is_enhanced :
  forall (openai : option string -> completion string)
         (worldType : option string) (rnd : Draws) (content : string),
    openai worldType = Normal content ->
    unparseable content ->
    generateWorld openai worldType rnd
    = Normal (enhanced_fallback (drawn_environment rnd))
    /\ generateWorld openai worldType rnd <> Normal getFallbackWorld
    /\ get (enhanced_fallback (drawn_environment rnd)) "name"
       = Normal (Some (JStr "Eldoria"))
    /\ get (enhanced_fallback (drawn_environment rnd)) "type"
       = Normal (Some (JStr "fantasy"))
    /\ (forall k, k <> "nearbyLocations" -> k <> "npcs" -> k <> "environment" ->
          get (enhanced_fallback (drawn_environment rnd)) k
          = get getFallbackWorld k)
    /\ get (enhanced_fallback (drawn_environment rnd)) "nearbyLocations"
       = Normal (Some fantasy_locations)
    /\ get getFallbackWorld "nearbyLocations" <> Normal (Some fantasy_locations)
    /\ get (enhanced_fallback (drawn_environment rnd)) "npcs"
       = Normal (Some fantasy_npcs)
    /\ get getFallbackWorld "npcs" <> Normal (Some fantasy_npcs)
    /\ get (enhanced_fallback (drawn_environment rnd)) "environment"
       = Normal (Some (drawn_environment rnd)).
Proof.
  intros openai worldType rnd content H U.
  assert (G : generateWorld openai worldType rnd
              = Normal (enhanced_fallback (drawn_environment rnd))).
  { unfold generateWorld. rewrite H. cbn [bind].
    rewrite parseWorldGeneration_unparseable by exact U. cbn [bind].
    rewrite enhance_fallback. reflexivity. }
  generalize (drawn_environment rnd) G. intros env G'.
  split; [exact G' |]. rewrite G'. clear G G'.
  split.
  { intros E.
    apply (f_equal (fun r => match r with
                             | Normal w => get w "nearbyLocations"
                             | Throw e => Throw e
                             end)) in E.
    vm_compute in E. discriminate E. }
  split; [reflexivity |]. split; [reflexivity |].
  split.
  { intros k N1 N2 N3. unfold enhanced_fallback, get.
    rewrite !obj_get_set_other by assumption. reflexivity. }
  split; [reflexivity |].
  split; [vm_compute; intros E; discriminate E |].
  split; [reflexivity |].
  split; [vm_compute; intros E; discriminate E |].
  reflexivity.
Qed.

Lemma fallback_world_is_enhanced_witness :
  generateWorld no_json_reply (Some "sci-fi") sample_draws
  = Normal (enhanced_fallback (drawn_environment sample_draws))
  /\ generateWorld no_json_reply (Some "sci-fi") sample_draws
     <> Normal getFallbackWorld.
Proof.
  destruct (@fallback_world_is_enhanced no_json_reply (Some "sci-fi")
              sample_draws "I cannot do that") as (A & B & _).
  - reflexivity.
  - exact I.
  - split; [exact A | exact B].
Defined.

(** The environment of the witness is not the hard-coded one; when the model
    call itself fails, the sibling path returns the fallback world intact. *)
Example fallback_environment_drawn :
  drawn_environment sample_draws
  = JObj [("time", JStr "dawn"); ("weather", JStr "clear"); ("season", JStr "spring")]
  /\ get getFallbackWorld "environment"
     = Normal (Some (JObj [("time", JStr "dusk"); ("weather", JStr "misty");
                           ("season", JStr "autumn")]))
  /\ generateWorld (fun _ => Throw (Error "network")) (Some "sci-fi") sample_draws
     = Normal getFallbackWorld.
Proof. vm_compute. repeat split. Qed.

From Stdlib Require Import Permutation.

(* ===================================================================== *)
(** * The reducer, field by field                                       *)
(* ===================================================================== *)

Import ReducerNotions.

(** Decides the tests of one step of the reducer. *)
Ltac decide_step :=
  repeat match goal with
         | |- context [match ?x with _ => _ end] => destruct x eqn:?
         end.

(** Peels the binds of a computation known to return normally. *)
Ltac peel H :=
  repeat (cbv zeta in H;
          let x := fresh "x" in
          let E := fresh "E" in
          apply bind_Normal in H; destruct H as (x & E & H)).

Section Inventory.

Lemma includes_In l x : includes l x = true <-> In x l.
Proof.
  unfold includes. rewrite existsb_exists. split.
  - intros (y & H & E). apply String.eqb_eq in E. subst. exact H.
  - intros H. exists x. split; [exact H | apply String.eqb_refl].
Qed.

Lemma includes_false l x : includes l x = false <-> ~ In x l.
Proof.
  rewrite <- includes_In. destruct (includes l x); split; congruence.
Qed.

Lemma remove_first_absent x l : ~ In x l -> remove_first x l = l.
Proof.
  induction l as [| y l IH]; simpl; intros H; auto.
  destruct (String.eqb x y) eqn:E.
  - apply String.eqb_eq in E. subst. tauto.
  - f_equal. apply IH. tauto.
Qed.

Lemma remove_first_In x y l : In y (remove_first x l) -> In y l.
Proof.
  induction l as [| z l IH]; simpl; auto.
  destruct (String.eqb x z); simpl; tauto.
Qed.

Lemma remove_first_other x y l : x <> y -> In y l -> In y (remove_first x l).
Proof.
  intros N. induction l as [| z l IH]; simpl; auto.
  destruct (String.eqb x z) eqn:E; simpl.
  - apply String.eqb_eq in E. subst. intros [H | H]; [congruence | exact H].
  - tauto.
Qed.

Lemma remove_first_NoDup x l : NoDup l -> NoDup (remove_first x l).
Proof.
  induction 1 as [| y l N D IH]; simpl; [constructor |].
  destruct (String.eqb x y); auto.
  constructor; auto. intros H. apply N. eapply remove_first_In; eauto.
Qed.

Lemma remove_first_gone x l : NoDup l -> ~ In x (remove_first x l).
Proof.
  induction 1 as [| y l N D IH]; simpl; auto.
  destruct (String.eqb x y) eqn:E.
  - apply String.eqb_eq in E. subst. exact N.
  - apply String.eqb_neq in E. simpl. intros [H | H]; [congruence | tauto].
Qed.

Lemma add_item_NoDup l x : NoDup l -> NoDup (add_item l x).
Proof.
  unfold add_item. destruct (includes l x) eqn:E; auto.
  intros H. apply includes_false in E.
  apply NoDup_app; auto.
  - constructor; [simpl; tauto | constructor].
  - intros y Hy [<- | []]. tauto.
Qed.

Lemma add_item_In l x : In x (add_item l x).
Proof.
  unfold add_item. destruct (includes l x) eqn:E.
  - apply includes_In, E.
  - apply in_or_app. right. now left.
Qed.

Lemma add_item_keeps l x y : In y l -> In y (add_item l x).
Proof.
  unfold add_item. destruct (includes l x); auto.
  intros H. apply in_or_app. now left.
Qed.

End Inventory.

Section InventoryOfTurn.

Lemma applyHealth_inventory c s :
  inventory (player (applyHealth c s)) = inventory (player s).
Proof. unfold applyHealth. decide_step; reflexivity. Qed.

Lemma addItem_inventory s x :
  inventory (player (addItem s x)) = add_item (inventory (player s)) x.
Proof.
  unfold addItem, add_item. destruct (includes (inventory (player s)) x); reflexivity.
Qed.

Lemma removeItem_inventory s x :
  inventory (player (removeItem s x)) = remove_first x (inventory (player s)).
Proof.
  unfold removeItem. destruct (includes (inventory (player s)) x) eqn:E.
  - reflexivity.
  - symmetry. apply remove_first_absent, includes_false, E.
Qed.

Lemma fold_inventory (f : GameState -> string -> GameState)
  (g : list string -> string -> list string) :
  (forall s x, inventory (player (f s x)) = g (inventory (player s)) x) ->
  forall l s,
    inventory (player (fold_left f l s)) = fold_left g l (inventory (player s)).
Proof.
  intros H l. induction l as [| x l IH]; simpl; intros s; auto.
  rewrite IH, H. reflexivity.
Qed.

Lemma applyAddItems_inventory c s :
  inventory (player (applyAddItems c s))
  = fold_left add_item (or_nil (c_addItems c)) (inventory (player s)).
Proof.
  unfold applyAddItems. destruct (c_addItems c); simpl; auto.
  apply fold_inventory, addItem_inventory.
Qed.

Lemma applyRemoveItems_inventory c s :
  inventory (player (applyRemoveItems c s))
  = fold_left (fun l x => remove_first x l) (or_nil (c_removeItems c))
      (inventory (player s)).
Proof.
  unfold applyRemoveItems. destruct (c_removeItems c); simpl; auto.
  apply (fold_inventory removeItem (fun l x => remove_first x l)).
  apply removeItem_inventory.
Qed.

Lemma applyNewLocation_inventory c s :
  inventory (player (applyNewLocation c s)) = inventory (player s).
Proof. unfold applyNewLocation. decide_step; reflexivity. Qed.

Lemma addQuest_inventory s q :
  inventory (player (addQuest s q)) = inventory (player s).
Proof. unfold addQuest. decide_step; reflexivity. Qed.

Lemma applyAddQuests_inventory c s :
  inventory (player (applyAddQuests c s)) = inventory (player s).
Proof.
  unfold applyAddQuests. destruct (c_addQuests c); auto.
  apply (fold_left_inv (fun s' => inventory (player s') = inventory (player s))); auto.
  intros a b H. rewrite addQuest_inventory. exact H.
Qed.

Lemma applyNpcRelationships_inventory c s :
  inventory (player (applyNpcRelationships c s)) = inventory (player s).
Proof.
  unfold applyNpcRelationships. destruct (c_npcRelationships c); auto.
  apply (fold_left_inv (fun s' => inventory (player s') = inventory (player s))); auto.
Qed.

Lemma addEffect_inventory s e :
  inventory (player (addEffect s e)) = inventory (player s).
Proof. unfold addEffect. decide_step; reflexivity. Qed.

Lemma applyStatusEffects_inventory c s :
  inventory (player (applyStatusEffects c s)) = inventory (player s).
Proof.
  unfold applyStatusEffects. destruct (c_statusEffects c); auto.
  apply (fold_left_inv (fun s' => inventory (player s') = inventory (player s))).
  - intros a b H. rewrite addEffect_inventory. exact H.
  - destruct (statusEffects (player s)); reflexivity.
Qed.

Lemma applyExperience_inventory c s :
  inventory (player (applyExperience c s)) = inventory (player s).
Proof. unfold applyExperience. decide_step; reflexivity. Qed.

Lemma decrementStatusEffects_inventory s :
  inventory (player (decrementStatusEffects s)) = inventory (player s).
Proof. unfold decrementStatusEffects. decide_step; reflexivity. Qed.

Lemma advanceTime_inventory s :
  inventory (player (advanceTime s)) = inventory (player s).
Proof. unfold advanceTime. decide_step; reflexivity. Qed.

Lemma levelUp_inventory s :
  inventory (player (levelUp s)) = inventory (player s).
Proof. unfold levelUp. decide_step; reflexivity. Qed.

Lemma limitHistory_inventory s :
  inventory (player (limitHistory s)) = inventory (player s).
Proof. unfold limitHistory. decide_step; reflexivity. Qed.

(** The reducer seen from the inventory. *)
Lemma updateGameState_inventory s a n c now :
  inventory (player (updateGameState s a n c now))
  = inventory_after c (inventory (player s)).
Proof.
  unfold updateGameState, inventory_after.
  rewrite limitHistory_inventory, levelUp_inventory, advanceTime_inventory,
    decrementStatusEffects_inventory, applyExperience_inventory,
    applyStatusEffects_inventory, applyNpcRelationships_inventory,
    applyAddQuests_inventory, applyNewLocation_inventory,
    applyRemoveItems_inventory, applyAddItems_inventory, applyHealth_inventory.
  reflexivity.
Qed.

End InventoryOfTurn.

Section InventoryTheorems.

Lemma fold_add_NoDup xs : forall l, NoDup l -> NoDup (fold_left add_item xs l).
Proof.
  induction xs as [| x xs IH]; simpl; auto using add_item_NoDup.
Qed.

Lemma fold_add_keeps xs : forall l y, In y l -> In y (fold_left add_item xs l).
Proof.
  induction xs as [| x xs IH]; simpl; auto using add_item_keeps.
Qed.

Lemma fold_add_In xs : forall l y, In y xs -> In y (fold_left add_item xs l).
Proof.
  induction xs as [| x xs IH]; simpl; intros l y H; [tauto |].
  destruct H as [<- | H]; auto.
  apply fold_add_keeps, add_item_In.
Qed.

Lemma fold_add_origin xs :
  forall l y, In y (fold_left add_item xs l) -> In y l \/ In y xs.
Proof.
  induction xs as [| x xs IH]; simpl; intros l y H; auto.
  apply IH in H. destruct H as [H | H]; auto.
  unfold add_item in H. destruct (includes l x); auto.
  apply in_app_or in H. simpl in H. tauto.
Qed.

Lemma fold_remove_NoDup rs :
  forall l, NoDup l -> NoDup (fold_left (fun l x => remove_first x l) rs l).
Proof.
  induction rs as [| r rs IH]; simpl; auto using remove_first_NoDup.
Qed.

Lemma fold_remove_In rs :
  forall l y, In y (fold_left (fun l x => remove_first x l) rs l) -> In y l.
Proof.
  induction rs as [| r rs IH]; simpl; intros l y H; auto.
  apply IH in H. eapply remove_first_In; eauto.
Qed.

Lemma fold_remove_other rs :
  forall l y, ~ In y rs -> In y l ->
              In y (fold_left (fun l x => remove_first x l) rs l).
Proof.
  induction rs as [| r rs IH]; simpl; intros l y N H; auto.
  apply IH; [tauto |]. apply remove_first_other; [| exact H].
  intros E. apply N. now left.
Qed.

Lemma fold_remove_gone rs :
  forall l y, NoDup l -> In y rs \/ ~ In y l ->
              ~ In y (fold_left (fun l x => remove_first x l) rs l).
Proof.
  induction rs as [| r rs IH]; simpl; intros l y D H.
  - tauto.
  - apply IH; [apply remove_first_NoDup, D |].
    destruct H as [[-> | H] | H].
    + right. apply remove_first_gone, D.
    + now left.
    + right. intros K. apply H. eapply remove_first_In; eauto.
Qed.

(** X1.  The inventory holds no item twice: a turn keeps it that way, and
    then every item the change set removes is gone after the turn. *)
Theorem inventory_without_duplicates :
  forall (s : GameState) (action narrative : string) (c : Changes) (now : string),
    NoDup (inventory (player s)) ->
    let s' := updateGameState s action narrative c now in
    NoDup (inventory (player s'))
    /\ (forall x, In x (or_nil (c_removeItems c)) -> ~ In x (inventory (player s'))).
Proof.
  intros s a n c now D s'. subst s'. rewrite updateGameState_inventory.
  unfold inventory_after. split.
  - apply fold_remove_NoDup, fold_add_NoDup, D.
  - intros x H. apply fold_remove_gone; [apply fold_add_NoDup, D | now left].
Qed.

Lemma inventory_without_duplicates_witness :
  let c := {| c_health := None; c_addItems := Some ["rope"; "map"];
              c_removeItems := Some ["torch"]; c_newLocation := None;
              c_addQuests := None; c_npcRelationships := None;
              c_experience := None; c_statusEffects := None |} in
  let s' := updateGameState (sample_state 100 0 1 []) "trade" "Done." c "t1" in
  NoDup (inventory (player s'))
  /\ (forall x, In x (or_nil (c_removeItems c)) -> ~ In x (inventory (player s'))).
Proof.
  apply (inventory_without_duplicates (sample_state 100 0 1 []) "trade" "Done."
           {| c_health := None; c_addItems := Some ["rope"; "map"];
              c_removeItems := Some ["torch"]; c_newLocation := None;
              c_addQuests := None; c_npcRelationships := None;
              c_experience := None; c_statusEffects := None |} "t1").
  simpl. repeat constructor; simpl; intuition discriminate.
Defined.

(** X2.  What a turn does to the inventory: an added item is there unless
    the same change set removes it, an item that was there stays unless it
    is removed, and nothing else appears. *)
Theorem inventory_changes_only_as_told :
  forall (s : GameState) (action narrative : string) (c : Changes) (now : string),
    let s' := updateGameState s action narrative c now in
    let added := or_nil (c_addItems c) in
    let removed := or_nil (c_removeItems c) in
    (forall x, In x added -> ~ In x removed -> In x (inventory (player s')))
    /\ (forall x, In x (inventory (player s)) -> ~ In x removed ->
                  In x (inventory (player s')))
    /\ (forall x, In x (inventory (player s')) ->
                  In x (inventory (player s)) \/ In x added).
Proof.
  intros s a n c now s' added removed. subst s' added removed.
  rewrite updateGameState_inventory. unfold inventory_after.
  split; [| split].
  - intros x A R. apply fold_remove_other; auto. apply fold_add_In, A.
  - intros x A R. apply fold_remove_other; auto. apply fold_add_keeps, A.
  - intros x H. apply fold_remove_In in H. apply fold_add_origin, H.
Qed.

End InventoryTheorems.

Section Experience.


Lemma count_snoc {A} (l : list A) (x : A) : (count (l ++ [x]) == count l + 1)%Q.
Proof.
  unfold count. rewrite length_app. simpl.
  rewrite Nat2Z.inj_add, inject_Z_plus. reflexivity.
Qed.

Lemma ledger_applyHealth c s : (ledger (applyHealth c s) == ledger s)%Q.
Proof. unfold applyHealth. decide_step; reflexivity. Qed.

Lemma ledger_fold {B} (f : GameState -> B -> GameState) :
  (forall s x, (ledger (f s x) == ledger s)%Q) ->
  forall l s, (ledger (fold_left f l s) == ledger s)%Q.
Proof.
  intros H l. induction l as [| x l IH]; simpl; intros s; [reflexivity |].
  rewrite IH. apply H.
Qed.

Lemma ledger_applyAddItems c s : (ledger (applyAddItems c s) == ledger s)%Q.
Proof.
  unfold applyAddItems. destruct (c_addItems c); [| reflexivity].
  apply ledger_fold. intros s0 x. unfold addItem. decide_step; reflexivity.
Qed.

Lemma ledger_applyRemoveItems c s : (ledger (applyRemoveItems c s) == ledger s)%Q.
Proof.
  unfold applyRemoveItems. destruct (c_removeItems c); [| reflexivity].
  apply ledger_fold. intros s0 x. unfold removeItem. decide_step; reflexivity.
Qed.

Lemma ledger_applyNewLocation c s : (ledger (applyNewLocation c s) == ledger s)%Q.
Proof.
  unfold applyNewLocation. decide_step; try reflexivity.
  unfold ledger. simpl. rewrite count_snoc. ring.
Qed.

Lemma ledger_applyAddQuests c s : (ledger (applyAddQuests c s) == ledger s)%Q.
Proof.
  unfold applyAddQuests. destruct (c_addQuests c); [| reflexivity].
  apply ledger_fold. intros s0 x. unfold addQuest. decide_step; try reflexivity.
  unfold ledger. simpl. rewrite count_snoc. ring.
Qed.

Lemma ledger_applyNpcRelationships c s :
  (ledger (applyNpcRelationships c s) == ledger s)%Q.
Proof.
  unfold applyNpcRelationships. destruct (c_npcRelationships c); [| reflexivity].
  apply ledger_fold. intros s0 x. reflexivity.
Qed.

Lemma ledger_applyStatusEffects c s :
  (ledger (applyStatusEffects c s) == ledger s)%Q.
Proof.
  unfold applyStatusEffects. destruct (c_statusEffects c); [| reflexivity].
  rewrite ledger_fold.
  - destruct (statusEffects (player s)); reflexivity.
  - intros s0 x. unfold addEffect. decide_step; reflexivity.
Qed.

Lemma ledger_applyExperience c s :
  (ledger (applyExperience c s) == ledger s + award c)%Q.
Proof.
  unfold applyExperience, award. destruct (c_experience c) as [x |].
  - destruct (negb (Qeqb x 0)) eqn:E.
    + destruct (Qltb 0 x); unfold ledger; simpl; ring.
    + apply negb_false_iff, Qeq_bool_eq in E. rewrite E. ring.
  - ring.
Qed.

Lemma ledger_decrementStatusEffects s :
  (ledger (decrementStatusEffects s) == ledger s)%Q.
Proof. unfold decrementStatusEffects. decide_step; reflexivity. Qed.

Lemma ledger_advanceTime s : (ledger (advanceTime s) == ledger s)%Q.
Proof. unfold advanceTime. decide_step; reflexivity. Qed.

Lemma ledger_beforeLevelUp s a n c now :
  (ledger (beforeLevelUp s a n c now) == ledger s + award c)%Q.
Proof.
  unfold beforeLevelUp, middle.
  rewrite ledger_advanceTime, ledger_decrementStatusEffects,
    ledger_applyExperience, ledger_applyStatusEffects,
    ledger_applyNpcRelationships, ledger_applyAddQuests,
    ledger_applyNewLocation, ledger_applyRemoveItems, ledger_applyAddItems,
    ledger_applyHealth.
  reflexivity.
Qed.

Lemma levelUp_cumulative s :
  (cumulativeExperience (levelUp s) == cumulativeExperience s)%Q
  /\ discoveredLocations (levelUp s) = discoveredLocations s
  /\ quests (player (levelUp s)) = quests (player s).
Proof.
  unfold levelUp.
  destruct (Qleb (100 * currentLevel s) (experience (player s)));
    [| repeat split; reflexivity].
  repeat split. unfold cumulativeExperience.
  set (L := currentLevel s).
  match goal with
  | |- context [currentLevel ?t] =>
      change (currentLevel t) with (if Qeqb (L + 1) 0 then 1%Q else (L + 1)%Q)
  end.
  cbn [experience player push with_player with_health with_experience
       with_level with_gameHistory].
  destruct (Qeqb (L + 1) 0) eqn:E.
  - apply Qeq_bool_eq in E.
    assert (H : (50 * L * (L + 1) == 0)%Q) by (rewrite E; ring).
    lra.
  - ring.
Qed.

End Experience.


Section StatusEffects.




















End StatusEffects.

Section Maps.
Context {V : Type}.

Lemma obj_get_set_same (m : list (string * V)) k v :
  obj_get (obj_set m k v) k = Some v.
Proof.
  induction m as [| [k' v'] m IH]; simpl.
  - rewrite String.eqb_refl. reflexivity.
  - destruct (String.eqb k k') eqn:E; simpl; rewrite ?E, ?String.eqb_refl; auto.
Qed.

Lemma obj_get_None (m : list (string * V)) k :
  obj_get m k = None <-> ~ In k (map fst m).
Proof.
  induction m as [| [k' v'] m IH]; simpl; [tauto |].
  destruct (String.eqb k k') eqn:E.
  - apply String.eqb_eq in E. subst. split; [discriminate | tauto].
  - apply String.eqb_neq in E. rewrite IH. split; [intros H [K | K]; congruence || tauto | tauto].
Qed.

Lemma write_all_cons (e : string * V) l r :
  write_all (e :: l) r = write_all l (obj_set r (fst e) (snd e)).
Proof. reflexivity. Qed.

Lemma write_all_other (l : list (string * V)) : forall r k,
  ~ In k (map fst l) -> obj_get (write_all l r) k = obj_get r k.
Proof.
  induction l as [| [k0 v0] l IH]; intros r k N; auto.
  rewrite write_all_cons, IH by (simpl in N; tauto).
  apply obj_get_set_other. intros E. apply N. now left.
Qed.

Lemma write_all_In (l : list (string * V)) : forall r k v,
  NoDup (map fst l) -> In (k, v) l -> obj_get (write_all l r) k = Some v.
Proof.
  induction l as [| [k0 v0] l IH]; intros r k v D H; [destruct H |].
  inversion D as [| ? ? N D']; subst. rewrite write_all_cons.
  destruct H as [H | H].
  - inversion H; subst. rewrite write_all_other by assumption.
    apply obj_get_set_same.
  - apply IH; assumption.
Qed.

End Maps.

Section OwnEntries.
Context {V : Type}.

Lemma insert_index_perm i (e : string * V) ix :
  Permutation (map snd (insert_index i e ix)) (e :: map snd ix).
Proof.
  induction ix as [| [j e'] ix IH]; simpl; auto.
  destruct (i <? j)%Z; simpl; auto.
  rewrite IH. apply perm_swap.
Qed.

Lemma own_entries_perm (m : list (string * V)) : Permutation (own_entries m) m.
Proof.
  unfold own_entries. induction m as [| [k v] m IH]; simpl; auto.
  destruct (split_keys m) as [ix nm].
  destruct (array_index k); simpl.
  - rewrite insert_index_perm. simpl. constructor. exact IH.
  - rewrite <- IH. symmetry. apply Permutation_middle.
Qed.

End OwnEntries.

Section Relationships.

Lemma fold_npcRelationships {B} (f : GameState -> B -> GameState) :
  (forall s x, npcRelationships (f s x) = npcRelationships s) ->
  forall l s, npcRelationships (fold_left f l s) = npcRelationships s.
Proof.
  intros H l. induction l as [| x l IH]; simpl; intros s; auto.
  rewrite IH. apply H.
Qed.

Lemma applyNpcRelationships_written c s :
  npcRelationships (applyNpcRelationships c s)
  = write_all (own_entries (or_nil (c_npcRelationships c))) (npcRelationships s).
Proof.
  unfold applyNpcRelationships, write_all.
  destruct (c_npcRelationships c) as [m |]; [| reflexivity]. simpl.
  generalize (own_entries m). intros l. revert s.
  induction l as [| e l IH]; simpl; intros s; auto.
Qed.

(** The reducer seen from the relationships. *)
Lemma updateGameState_npcRelationships s a n c now :
  npcRelationships (updateGameState s a n c now)
  = write_all (own_entries (or_nil (c_npcRelationships c))) (npcRelationships s).
Proof.
  unfold updateGameState.
  assert (L : forall t, npcRelationships (limitHistory t) = npcRelationships t).
  { intros t. unfold limitHistory. decide_step; reflexivity. }
  assert (U : forall t, npcRelationships (levelUp t) = npcRelationships t).
  { intros t. unfold levelUp. decide_step; reflexivity. }
  assert (T : forall t, npcRelationships (advanceTime t) = npcRelationships t).
  { intros t. unfold advanceTime. decide_step; reflexivity. }
  assert (D : forall t, npcRelationships (decrementStatusEffects t) = npcRelationships t).
  { intros t. unfold decrementStatusEffects. decide_step; reflexivity. }
  assert (X : forall t, npcRelationships (applyExperience c t) = npcRelationships t).
  { intros t. unfold applyExperience. decide_step; reflexivity. }
  assert (E : forall t, npcRelationships (applyStatusEffects c t) = npcRelationships t).
  { intros t. unfold applyStatusEffects. destruct (c_statusEffects c); auto.
    rewrite fold_npcRelationships.
    - destruct (statusEffects (player t)); reflexivity.
    - intros s0 x. unfold addEffect. decide_step; reflexivity. }
  assert (Q : forall t, npcRelationships (applyAddQuests c t) = npcRelationships t).
  { intros t. unfold applyAddQuests. destruct (c_addQuests c); auto.
    apply fold_npcRelationships. intros s0 x. unfold addQuest. decide_step; reflexivity. }
  assert (N : forall t, npcRelationships (applyNewLocation c t) = npcRelationships t).
  { intros t. unfold applyNewLocation. decide_step; reflexivity. }
  assert (R : forall t, npcRelationships (applyRemoveItems c t) = npcRelationships t).
  { intros t. unfold applyRemoveItems. destruct (c_removeItems c); auto.
    apply fold_npcRelationships. intros s0 x. unfold removeItem. decide_step; reflexivity. }
  assert (A : forall t, npcRelationships (applyAddItems c t) = npcRelationships t).
  { intros t. unfold applyAddItems. destruct (c_addItems c); auto.
    apply fold_npcRelationships. intros s0 x. unfold addItem. decide_step; reflexivity. }
  assert (H : forall t, npcRelationships (applyHealth c t) = npcRelationships t).
  { intros t. unfold applyHealth. decide_step; reflexivity. }
  rewrite L, U, T, D, X, E, applyNpcRelationships_written, Q, N, R, A, H.
  reflexivity.
Qed.

(** X4.  Relationships are written as told.  After a turn every NPC of the
    change set has the value the change set gives it, and every other NPC
    the value it had, in whatever order the names are enumerated.  The
    change set names each NPC once, and none under [__proto__], a name an
    assignment does not create. *)
Theorem relationships_written_as_told :
  forall (s : GameState) (action narrative : string) (c : Changes) (now : string),
    NoDup (map fst (or_nil (c_npcRelationships c))) ->
    ~ In "__proto__" (map fst (or_nil (c_npcRelationships c))) ->
    let s' := updateGameState s action narrative c now in
    let told := or_nil (c_npcRelationships c) in
    (forall npc value, In (npc, value) told ->
       obj_get (npcRelationships s') npc = Some value)
    /\ (forall npc, obj_get told npc = None ->
          obj_get (npcRelationships s') npc = obj_get (npcRelationships s) npc).
Proof.
  intros s a n c now D _ s' told. subst s' told.
  rewrite updateGameState_npcRelationships.
  set (m := or_nil (c_npcRelationships c)) in *.
  pose proof (own_entries_perm m) as P. split.
  - intros k v H. apply write_all_In.
    + eapply Permutation_NoDup; [| exact D].
      apply Permutation_map. symmetry. exact P.
    + eapply Permutation_in; [symmetry; exact P | exact H].
  - intros k H. apply write_all_other. apply obj_get_None in H.
    intros K. apply H. eapply Permutation_in; [| exact K].
    apply Permutation_map. exact P.
Qed.

Lemma relationships_written_as_told_witness :
  let c := {| c_health := None; c_addItems := None; c_removeItems := None;
              c_newLocation := None; c_addQuests := None;
              c_npcRelationships := Some [("Thorne", RelNumber 60); ("Mira", RelText "wary")];
              c_experience := None; c_statusEffects := None |} in
  let s' := updateGameState (sample_state 100 0 1 []) "talk" "Done." c "t1" in
  let told := or_nil (c_npcRelationships c) in
  (forall npc value, In (npc, value) told ->
     obj_get (npcRelationships s') npc = Some value)
  /\ (forall npc, obj_get told npc = None ->
        obj_get (npcRelationships s') npc
        = obj_get (npcRelationships (sample_state 100 0 1 [])) npc).
Proof.
  apply (relationships_written_as_told (sample_state 100 0 1 []) "talk" "Done."
           {| c_health := None; c_addItems := None; c_removeItems := None;
              c_newLocation := None; c_addQuests := None;
              c_npcRelationships := Some [("Thorne", RelNumber 60); ("Mira", RelText "wary")];
              c_experience := None; c_statusEffects := None |} "t1").
  - simpl. repeat constructor; simpl; intuition discriminate.
  - simpl. intuition discriminate.
Defined.

End Relationships.

Section WellFormed.

Lemma mapM_Normal {A B} (f : A -> completion B) l ys :
  mapM f l = Normal ys -> Forall2 (fun x y => f x = Normal y) l ys.
Proof.
  revert ys. induction l as [| x l IH]; simpl; intros ys H.
  - injection H as <-. constructor.
  - peel H. injection H as <-. constructor; auto.
Qed.

Lemma obj_set_key_In {V} (m : list (string * V)) k v k' :
  In k' (map fst (obj_set m k v)) -> k' = k \/ In k' (map fst m).
Proof.
  induction m as [| [k0 v0] m IH]; simpl.
  - intros [<- | []]. now left.
  - destruct (String.eqb k k0) eqn:E; simpl.
    + intros [<- | K]; auto.
    + intros [<- | K]; auto. apply IH in K. tauto.
Qed.

Lemma obj_set_keys {V} (m : list (string * V)) k v :
  NoDup (map fst m) -> NoDup (map fst (obj_set m k v)).
Proof.
  induction m as [| [k' v'] m IH]; simpl; intros D.
  - constructor; [simpl; tauto | constructor].
  - inversion D as [| ? ? N D']; subst.
    destruct (String.eqb k k') eqn:E; simpl.
    + apply String.eqb_eq in E. subst. constructor; assumption.
    + constructor; auto. intros K. apply obj_set_key_In in K.
      destruct K as [-> | K]; [| tauto].
      rewrite String.eqb_refl in E. discriminate.
Qed.

Lemma obj_set_In {V} (m : list (string * V)) k v k' v' :
  In (k', v') (obj_set m k v) -> (k', v') = (k, v) \/ In (k', v') m.
Proof.
  induction m as [| [k0 v0] m IH]; simpl.
  - intros [H | []]. left. symmetry. exact H.
  - destruct (String.eqb k k0); simpl.
    + intros [H | H]; [left; symmetry; exact H | tauto].
    + intros [H | H]; [tauto | apply IH in H; tauto].
Qed.

Lemma npc_entries_ok l :
  forall acc,
    NoDup (map fst acc) ->
    (forall k q, In (k, RelNumber q) acc -> (0 <= q <= 100)%Q) ->
    NoDup (map fst (fold_left npc_entry l acc))
    /\ (forall k q, In (k, RelNumber q) (fold_left npc_entry l acc) ->
                    (0 <= q <= 100)%Q).
Proof.
  induction l as [| [npc value] l IH]; simpl; intros acc D R; auto.
  apply IH.
  - destruct value; auto using obj_set_keys.
  - intros k q H. destruct value; eauto; apply obj_set_In in H;
      destruct H as [H | H]; eauto; inversion H; subst.
    apply clamp_range.
Qed.

Lemma duration_or_5_nonzero d : ~ (duration_or_5 d == 0)%Q.
Proof.
  unfold duration_or_5. destruct (ToNumber d) as [q |]; [| lra].
  destruct (Qeqb q 0) eqn:E; [lra |].
  intros H. apply Qeq_bool_iff in H. unfold Qeqb in E. congruence.
Qed.

Lemma effects_normal_nonzero kept es :
  mapM effect_normal kept = Normal es ->
  forall e, In e es -> ~ (se_duration e == 0)%Q.
Proof.
  intros H e K. apply mapM_Normal in H.
  induction H as [| a b l l' F _ IH]; [destruct K |].
  destruct K as [<- | K]; auto.
  unfold effect_normal in F. peel F. injection F as <-. simpl.
  apply duration_or_5_nonzero.
Qed.

Lemma validateStateChanges_well_formed changes s ch :
  validateStateChanges changes s = Normal ch -> well_formed s ch.
Proof.
  intros H. pose proof (validateStateChanges_health _ _ H) as Hh.
  unfold validateStateChanges in H. peel H. injection H as H. subst ch.
  split; [exact Hh |]. simpl.
  assert (N : NoDup (map fst (or_nil
                (if truthy x6 && typeof_object x6
                 then match x6 with
                      | Some v => Some (fold_left npc_entry (Object_entries v) [])
                      | None => None
                      end
                 else None)))
              /\ (forall npc q,
                    In (npc, RelNumber q) (or_nil
                      (if truthy x6 && typeof_object x6
                       then match x6 with
                            | Some v => Some (fold_left npc_entry (Object_entries v) [])
                            | None => None
                            end
                       else None)) -> (0 <= q <= 100)%Q)).
  { destruct (truthy x6 && typeof_object x6);
      [| split; [constructor | intros ? ? []]].
    destruct x6 as [v |]; [| split; [constructor | intros ? ? []]]. simpl.
    apply npc_entries_ok; [constructor | intros ? ? []]. }
  destruct N as [N1 N2].
  split; [| split; [| split; [exact N1 | split; [exact N2 |]]]].
  - intros q. destruct x7 as [v |]; [| discriminate].
    destruct (ToNumber (Some v)); simpl; [| discriminate].
    intros [= <-]. apply Math_max_spec.
  - intros item. destruct (truthy x1); [| simpl; tauto].
    destruct x1 as [[| | | t | l |] |]; simpl; try tauto.
    + destruct (includes (inventory (player s)) (trim t)) eqn:I; simpl; [| tauto].
      intros [<- | []]. apply includes_In, I.
    + intros K. apply filter_In in K. apply includes_In, K.
  - intros e. destruct x8 as [[| | | | l |] |]; try (injection E9 as <-; simpl; tauto).
    peel E9. injection E9 as <-. simpl.
    eapply effects_normal_nonzero; eauto.
Qed.

Lemma no_changes_well_formed s : well_formed s no_changes.
Proof.
  unfold well_formed. simpl.
  split; [discriminate |]. split; [discriminate |]. split; [tauto |].
  split; [constructor |]. split; [intros ? ? [] | intros ? []].
Qed.

Lemma parsed_changes_helper raw s :
  exists narrative ch,
    parseGameResponse raw s = Normal (narrative, ch) /\ well_formed s ch.
Proof.
  unfold parseGameResponse, try_catch.
  destruct (parseGameResponse_try raw s) as [[n ch] | e] eqn:E.
  - exists n, ch. split; [reflexivity |].
    unfold parseGameResponse_try in E. peel E. injection E as <- <-.
    eapply validateStateChanges_well_formed; eauto.
  - exists generic_narrative, no_changes. split; [reflexivity |].
    apply no_changes_well_formed.
Qed.

(** X5.  What reaches the reducer is well formed.  For every raw response,
    parseGameResponse returns a change set whose health lies in [0,100],
    whose experience is not negative, whose removals are all held in the
    current inventory, whose relationships have one entry per NPC with
    numbers in [0,100], and whose status effects have a duration other
    than 0. *)
Theorem parsed_changes_are_well_formed :
  forall (raw : string) (s : GameState),
  exists narrative ch,
    parseGameResponse raw s = Normal (narrative, ch) /\ well_formed s ch.
Proof. exact parsed_changes_helper. Qed.

End WellFormed.

Section Quests.

Lemma fold_quests {B} (f : GameState -> B -> GameState) :
  (forall s x, quests (player (f s x)) = quests (player s)) ->
  forall l s, quests (player (fold_left f l s)) = quests (player s).
Proof.
  intros H l. induction l as [| x l IH]; simpl; intros s; auto.
  rewrite IH. apply H.
Qed.

Lemma addQuest_quests s q :
  quests (player (addQuest s q)) = add_quest (quests (player s)) q.
Proof.
  unfold addQuest, add_quest.
  destruct (existingQuest (quests (player s)) q); reflexivity.
Qed.

Lemma applyAddQuests_quests c s :
  quests (player (applyAddQuests c s)) = quests_after c (quests (player s)).
Proof.
  unfold applyAddQuests, quests_after. destruct (c_addQuests c) as [l |]; auto.
  simpl. revert s. induction l as [| x l IH]; simpl; intros s; auto.
  rewrite IH, addQuest_quests. reflexivity.
Qed.

(** The reducer seen from the quests. *)
Lemma updateGameState_quests s a n c now :
  quests (player (updateGameState s a n c now))
  = quests_after c (quests (player s)).
Proof.
  unfold updateGameState.
  assert (L : forall t, quests (player (limitHistory t)) = quests (player t)).
  { intros t. unfold limitHistory. decide_step; reflexivity. }
  assert (U : forall t, quests (player (levelUp t)) = quests (player t)).
  { intros t. unfold levelUp. decide_step; reflexivity. }
  assert (T : forall t, quests (player (advanceTime t)) = quests (player t)).
  { intros t. unfold advanceTime. decide_step; reflexivity. }
  assert (D : forall t, quests (player (decrementStatusEffects t)) = quests (player t)).
  { intros t. unfold decrementStatusEffects. decide_step; reflexivity. }
  assert (X : forall t, quests (player (applyExperience c t)) = quests (player t)).
  { intros t. unfold applyExperience. decide_step; reflexivity. }
  assert (E : forall t, quests (player (applyStatusEffects c t)) = quests (player t)).
  { intros t. unfold applyStatusEffects. destruct (c_statusEffects c); auto.
    rewrite fold_quests.
    - destruct (statusEffects (player t)); reflexivity.
    - intros s0 x. unfold addEffect. decide_step; reflexivity. }
  assert (P : forall t, quests (player (applyNpcRelationships c t)) = quests (player t)).
  { intros t. unfold applyNpcRelationships. destruct (c_npcRelationships c); auto.
    apply fold_quests. reflexivity. }
  assert (N : forall t, quests (player (applyNewLocation c t)) = quests (player t)).
  { intros t. unfold applyNewLocation. decide_step; reflexivity. }
  assert (R : forall t, quests (player (applyRemoveItems c t)) = quests (player t)).
  { intros t. unfold applyRemoveItems. destruct (c_removeItems c); auto.
    apply fold_quests. intros s0 x. unfold removeItem. decide_step; reflexivity. }
  assert (A : forall t, quests (player (applyAddItems c t)) = quests (player t)).
  { intros t. unfold applyAddItems. destruct (c_addItems c); auto.
    apply fold_quests. intros s0 x. unfold addItem. decide_step; reflexivity. }
  assert (H : forall t, quests (player (applyHealth c t)) = quests (player t)).
  { intros t. unfold applyHealth. decide_step; reflexivity. }
  rewrite L, U, T, D, X, E, P, applyAddQuests_quests, N, R, A, H.
  reflexivity.
Qed.

Lemma existingQuest_spec qs q :
  existingQuest qs q = true <-> exists q', In q' qs /\ same_quest q' q.
Proof.
  unfold existingQuest. destruct q as [t | t d o]; rewrite existsb_exists; split.
  - intros ([t' | t' d' o'] & H & E); [| discriminate].
    apply String.eqb_eq in E. exists (QuestText t'). split; auto.
  - intros ([t' | t' d' o'] & H & E); [| destruct E].
    exists (QuestText t'). split; auto. apply String.eqb_eq, E.
  - intros ([t' | t' d' o'] & H & E); [discriminate |].
    apply String.eqb_eq in E. exists (QuestObject t' d' o'). split; auto.
  - intros ([t' | t' d' o'] & H & E); [destruct E |].
    exists (QuestObject t' d' o'). split; auto. apply String.eqb_eq, E.
Qed.

Lemma add_quest_distinct qs q : distinct_quests qs -> distinct_quests (add_quest qs q).
Proof.
  unfold add_quest. destruct (existingQuest qs q) eqn:E; auto.
  intros D. constructor; auto. intros q' H K.
  assert (X : existingQuest qs q = true) by (apply existingQuest_spec; eauto).
  congruence.
Qed.

Lemma quests_after_extends c qs : exists new, quests_after c qs = (qs ++ new)%list.
Proof.
  unfold quests_after. generalize (or_nil (c_addQuests c)). intros l. revert qs.
  induction l as [| x l IH]; simpl; intros qs.
  - exists []. symmetry. apply app_nil_r.
  - destruct (IH (add_quest qs x)) as [new E]. rewrite E.
    unfold add_quest. destruct (existingQuest qs x); eauto.
    rewrite <- app_assoc. eauto.
Qed.

(** X6.  Quests are only ever added.  After a turn the quest list is the
    old one followed by new quests, so no turn removes or completes a
    quest; and when no two of the old quests are the same (equal strings,
    or objects with equal titles) no two of the new list are. *)
Theorem quests_are_only_added :
  forall (s : GameState) (action narrative : string) (c : Changes) (now : string),
    let s' := updateGameState s action narrative c now in
    (exists new, quests (player s') = (quests (player s) ++ new)%list)
    /\ (distinct_quests (quests (player s)) -> distinct_quests (quests (player s'))).
Proof.
  intros s a n c now s'. subst s'. rewrite updateGameState_quests. split.
  - apply quests_after_extends.
  - unfold quests_after. generalize (or_nil (c_addQuests c)). intros l.
    generalize (quests (player s)). induction l as [| x l IH]; simpl; auto.
    intros qs D. apply IH, add_quest_distinct, D.
Qed.

End Quests.

Section ExperienceNeverLost.

Lemma count_app {A} (l l' : list A) : (count (l ++ l') == count l + count l')%Q.
Proof.
  unfold count. rewrite length_app, Nat2Z.inj_add, inject_Z_plus. reflexivity.
Qed.

Lemma count_nonneg {A} (l : list A) : (0 <= count l)%Q.
Proof.
  unfold count. change 0%Q with (inject_Z 0). rewrite <- Zle_Qle. lia.
Qed.

Lemma updateGameState_cumulative s a n c now :
  let s' := updateGameState s a n c now in
  (cumulativeExperience s'
   == cumulativeExperience s
      + 10 * (count (discoveredLocations s') - count (discoveredLocations s))
      + 15 * (count (quests (player s')) - count (quests (player s)))
      + award c)%Q.
Proof.
  intros s'. subst s'. rewrite updateGameState_steps.
  set (t := beforeLevelUp s a n c now).
  assert (H : (ledger t == ledger s + award c)%Q) by apply ledger_beforeLevelUp.
  assert (L : currentLevel t = currentLevel s) by apply currentLevel_beforeLevelUp.
  destruct (levelUp_cumulative t) as (C & D & K).
  assert (F : cumulativeExperience (limitHistory (levelUp t))
              = cumulativeExperience (levelUp t)
              /\ discoveredLocations (limitHistory (levelUp t))
                 = discoveredLocations (levelUp t)
              /\ quests (player (limitHistory (levelUp t)))
                 = quests (player (levelUp t))).
  { destruct (limitHistory_fields (levelUp t)) as (Pl & _ & Dl & _).
    unfold cumulativeExperience, currentLevel. rewrite Pl, Dl. repeat split. }
  destruct F as (F1 & F2 & F3). rewrite F1, F2, F3, D, K, C.
  unfold cumulativeExperience. rewrite L. unfold ledger in H. lra.
Qed.

Lemma whole_nonneg q : whole q = true -> (0 <= q)%Q.
Proof.
  unfold whole. intros H.
  apply andb_true_iff in H as [H _]. apply andb_true_iff in H as [_ H].
  apply Qle_bool_iff. exact H.
Qed.

(** X7.  A turn never loses experience.  On whole numbers (health,
    experience, level and elapsed time of the prior state and of the state
    the leveling step receives, the health and the award of the change set,
    and the threshold 100 * currentLevel), the experience earned in all
    after the turn is at least what it was: an award is never negative, and
    a level-up pays for the level exactly. *)
Theorem experience_is_never_lost :
  forall (s : GameState) (action narrative : string) (c : Changes) (now : string),
    whole_state s = true ->
    whole_changes c = true ->
    whole_state (beforeLevelUp s action narrative c now) = true ->
    whole (100 * currentLevel s)%Q = true ->
    (cumulativeExperience s
     <= cumulativeExperience (updateGameState s action narrative c now))%Q.
Proof.
  intros s action n ch now _ Wc _ _.
  pose proof (updateGameState_cumulative s action n ch now) as C. cbv zeta in C.
  destruct (updateGameState_monotone s action n ch now) as (_ & [l D]).
  pose proof (updateGameState_quests s action n ch now) as K.
  destruct (quests_after_extends ch (quests (player s))) as [new Q].
  rewrite Q in K. rewrite D, K, !count_app in C.
  pose proof (count_nonneg l). pose proof (count_nonneg new).
  assert (A : (0 <= award ch)%Q).
  { unfold award. unfold whole_changes in Wc.
    apply andb_true_iff in Wc as [_ Wc]. unfold whole_award in Wc.
    destruct (c_experience ch); [apply whole_nonneg; exact Wc | lra]. }
  lra.
Qed.

Lemma experience_is_never_lost_witness :
  let s := sample_state 80 95 1 [] in
  (cumulativeExperience s
   <= cumulativeExperience
        (updateGameState s "explore" "You explore." (only_experience 10) "t1"))%Q.
Proof.
  apply (@experience_is_never_lost (sample_state 80 95 1 []) "explore"
           "You explore." (only_experience 10) "t1");
    vm_compute; reflexivity.
Defined.

End ExperienceNeverLost.

(** X8.  Experience is conserved.  On whole numbers (health, experience,
    level and elapsed time of the prior state and of the state the leveling
    step receives, the health and the award of the change set, and the
    threshold 100 * currentLevel), the experience earned in all after the
    turn is what it was before, plus 10 for each location the turn added to
    the discovered ones, 15 for each quest it added, and the award; a
    level-up only converts experience in hand into a level. *)
Theorem experience_is_conserved :
  forall (s : GameState) (action narrative : string) (c : Changes) (now : string),
    whole_state s = true ->
    whole_changes c = true ->
    whole_state (beforeLevelUp s action narrative c now) = true ->
    whole (100 * currentLevel s)%Q = true ->
    let s' := updateGameState s action narrative c now in
    (cumulativeExperience s'
     == cumulativeExperience s
        + 10 * (count (discoveredLocations s') - count (discoveredLocations s))
        + 15 * (count (quests (player s')) - count (quests (player s)))
        + award c)%Q.
Proof.
  intros s action narrative c now _ _ _ _.
  exact (updateGameState_cumulative s action narrative c now).
Qed.

Lemma experience_is_conserved_witness :
  let s := sample_state 80 95 1 [] in
  let c := eventful_changes in
  let s' := updateGameState s "explore" "You explore." c "t1" in
  (cumulativeExperience s'
   == cumulativeExperience s
      + 10 * (count (discoveredLocations s') - count (discoveredLocations s))
      + 15 * (count (quests (player s')) - count (quests (player s)))
      + award c)%Q.
Proof.
  apply (@experience_is_conserved (sample_state 80 95 1 []) "explore"
           "You explore." eventful_changes "t1");
    vm_compute; reflexivity.
Defined.

(** The turn of the witness discovers a location, takes a quest and crosses
    the threshold: 95 in hand at level 1, then 10 + 15 + 10 more; a level-up,
    with 30 of the 130 carried forward. *)
Example eventful_turn :
  let s' := updateGameState (sample_state 80 95 1 []) "explore" "You explore."
              eventful_changes "t1" in
  level (player s') = Some 2%Q /\ experience (player s') = 30%Q.
Proof. vm_compute. repeat split. Qed.

(* ===================================================================== *)
(** * Trimmed texts and location ids                                    *)
(* ===================================================================== *)

Import TextNotions.

Section Whitespace.

Lemma trimStart_length s : length (trimStart s) <= length s.
Proof.
  induction s as [| c r IH]; simpl; auto.
  destruct (is_space c); simpl; lia.
Qed.

Lemma star_ws_accept n :
  forall s prev, length s <= n ->
    star (m no_flags ws) true accept n prev s [] = Some (trimStart s, []).
Proof.
  induction n as [| n IH]; intros s prev L.
  - destruct s; [reflexivity | simpl in L; lia].
  - destruct s as [| c r]; [reflexivity |].
    cbn [star m ws trimStart existsb atom_match xorb orb].
    rewrite orb_false_r.
    destruct (is_space c) eqn:Sp; [| reflexivity].
    assert (Lt : Nat.ltb (length r) (length (String c r)) = true)
      by (apply Nat.ltb_lt; simpl; lia).
    rewrite Lt, IH by (simpl in L; lia). reflexivity.
Qed.

Lemma m_spaces prev s :
  m no_flags re_spaces prev s [] accept
  = match s with
    | String c r => if is_space c then Some (trimStart r, []) else None
    | EmptyString => None
    end.
Proof.
  destruct s as [| c r]; [reflexivity |].
  unfold re_spaces, Plus. cbn [m ws existsb atom_match xorb orb].
  rewrite orb_false_r. destruct (is_space c); [| reflexivity].
  apply star_ws_accept. lia.
Qed.

Lemma replace_spaces s :
  forall p,
    replace_go no_flags re_spaces "_" 0 p s = collapse_go false s
    /\ replace_go no_flags re_spaces "_" (leading s) p s = collapse_go true s.
Proof.
  induction s as [| c r IH]; intros p.
  - split; reflexivity.
  - unfold leading. cbn [trimStart collapse_go].
    destruct (is_space c) eqn:Sp.
    + pose proof (trimStart_length r) as L.
      replace (length (String c r) - length (trimStart r))
        with (S (leading r)) by (unfold leading; cbn [length]; lia).
      split.
      * cbn [replace_go]. rewrite m_spaces, Sp.
        replace (length (String c r) - length (trimStart r))
          with (S (leading r)) by (unfold leading; cbn [length]; lia).
        cbn [append]. f_equal. apply IH.
      * cbn [replace_go]. apply IH.
    + replace (length (String c r) - length (String c r)) with 0 by lia.
      assert (E : replace_go no_flags re_spaces "_" 0 p (String c r)
                  = String c (collapse_go false r)).
      { cbn [replace_go]. rewrite m_spaces, Sp. f_equal. apply IH. }
      split; exact E.
Qed.

(** The pattern [\s+] replaced by an underscore, without the matcher. *)
Lemma replace_spaces_collapse s :
  replace_all no_flags re_spaces "_" s = collapse_go false s.
Proof. unfold replace_all. apply replace_spaces. Qed.

Lemma collapse_no_space s :
  forall b, string_forallb (fun c => negb (is_space c)) (collapse_go b s) = true.
Proof.
  induction s as [| c r IH]; intros b; simpl; auto.
  destruct (is_space c) eqn:Sp.
  - destruct b; simpl; auto.
  - simpl. rewrite Sp. simpl. auto.
Qed.

Lemma collapse_fixed s :
  string_forallb (fun c => negb (is_space c)) s = true ->
  forall b, collapse_go b s = s.
Proof.
  induction s as [| c r IH]; simpl; intros H b; auto.
  apply andb_true_iff in H as [H1 H2]. apply negb_true_iff in H1.
  rewrite H1. f_equal. auto.
Qed.

Lemma lower_char_idem c : lower_char (lower_char c) = lower_char c.
Proof. destruct c as [[] [] [] [] [] [] [] []]; reflexivity. Qed.

Lemma lower_char_space c : is_space (lower_char c) = is_space c.
Proof. destruct c as [[] [] [] [] [] [] [] []]; reflexivity. Qed.

Lemma toLowerCase_idem s : toLowerCase (toLowerCase s) = toLowerCase s.
Proof.
  unfold toLowerCase. induction s as [| c r IH]; simpl; auto.
  rewrite lower_char_idem, IH. reflexivity.
Qed.

Lemma toLowerCase_collapse s :
  forall b, toLowerCase (collapse_go b (toLowerCase s)) = collapse_go b (toLowerCase s).
Proof.
  unfold toLowerCase. induction s as [| c r IH]; intros b; simpl; auto.
  rewrite lower_char_space. destruct (is_space c).
  - destruct b; simpl; rewrite IH; reflexivity.
  - simpl. rewrite lower_char_idem, IH. reflexivity.
Qed.

Lemma normalize_id_collapse s : normalize_id s = collapse_go false (toLowerCase s).
Proof. unfold normalize_id. apply replace_spaces_collapse. Qed.

Lemma normalize_id_no_space s :
  string_forallb (fun c => negb (is_space c)) (normalize_id s) = true.
Proof. rewrite normalize_id_collapse. apply collapse_no_space. Qed.

Lemma normalize_id_idem s : normalize_id (normalize_id s) = normalize_id s.
Proof.
  rewrite (normalize_id_collapse (normalize_id s)).
  rewrite normalize_id_collapse at 1. rewrite toLowerCase_collapse.
  rewrite <- normalize_id_collapse.
  apply collapse_fixed, normalize_id_no_space.
Qed.

End Whitespace.

Section Trim.

Lemma trimEnd_idem s : trimEnd (trimEnd s) = trimEnd s.
Proof.
  induction s as [| c r IH]; simpl; auto.
  destruct (is_space c && (trimEnd r =? "")) eqn:E; auto.
  simpl. rewrite IH, E. reflexivity.
Qed.

Lemma trimStart_fixed s :
  match s with String c _ => is_space c = false | EmptyString => True end ->
  trimStart s = s.
Proof. destruct s as [| c r]; simpl; auto. intros ->. reflexivity. Qed.

Lemma trimStart_head s :
  match trimStart s with String c _ => is_space c = false | EmptyString => True end.
Proof.
  induction s as [| c r IH]; simpl; auto.
  destruct (is_space c) eqn:E; auto.
Qed.

Lemma trimEnd_head s :
  match s with String c _ => is_space c = false | EmptyString => True end ->
  match trimEnd s with String c _ => is_space c = false | EmptyString => True end.
Proof.
  destruct s as [| c r]; simpl; auto. intros E. rewrite E. simpl. exact E.
Qed.

Lemma trim_idem s : trim (trim s) = trim s.
Proof.
  unfold trim.
  rewrite (trimStart_fixed (trimEnd (trimStart s))).
  - apply trimEnd_idem.
  - apply trimEnd_head, trimStart_head.
Qed.

Lemma sanitizeNarrative_trimmed s : trim (sanitizeNarrative s) = sanitizeNarrative s.
Proof. unfold sanitizeNarrative. apply trim_idem. Qed.

End Trim.

Section TrimmedTexts.

Lemma trimmed_strings_trimmed l x : In x (trimmed_strings l) -> trimmed x.
Proof.
  induction l as [| v l IH]; simpl; [tauto |].
  destruct v; auto. intros [<- | H]; auto. apply trim_idem.
Qed.

Lemma npc_entries_trimmed l :
  forall acc,
    (forall k, In k (map fst acc) -> trimmed k) ->
    forall k, In k (map fst (fold_left npc_entry l acc)) -> trimmed k.
Proof.
  induction l as [| [npc value] l IH]; simpl; intros acc R; auto.
  apply IH. intros k H.
  destruct value; auto; apply obj_set_key_In in H;
    destruct H as [-> | H]; auto; apply trim_idem.
Qed.

Lemma quest_object_trimmed q r : quest_object q = Normal r -> trimmed (questName r).
Proof.
  unfold quest_object. intros H. peel H. injection H as <-. apply trim_idem.
Qed.

Lemma quests_trimmed kept qs :
  mapM quest_normal kept = Normal qs -> forall q, In q qs -> trimmed (questName q).
Proof.
  intros H q K. apply mapM_Normal in H.
  induction H as [| a b l l' F _ IH]; [destruct K |].
  destruct K as [<- | K]; auto.
  unfold quest_normal in F.
  destruct a; try (eapply quest_object_trimmed; eassumption).
  injection F as <-. apply trim_idem.
Qed.

Lemma effects_trimmed kept es :
  mapM effect_normal kept = Normal es -> forall e, In e es -> trimmed (se_name e).
Proof.
  intros H e K. apply mapM_Normal in H.
  induction H as [| a b l l' F _ IH]; [destruct K |].
  destruct K as [<- | K]; auto.
  unfold effect_normal in F. peel F. injection F as <-. apply trim_idem.
Qed.

Lemma validateStateChanges_trimmed changes s ch n :
  validateStateChanges changes s = Normal ch ->
  texts_trimmed (sanitizeNarrative n) ch.
Proof.
  intros H. unfold validateStateChanges in H. peel H.
  injection H as H. subst ch.
  split; [apply sanitizeNarrative_trimmed |]. simpl.
  split; [| split; [| split; [| split; [| split]]]].
  - intros y. destruct (truthy x0); [| simpl; tauto].
    destruct x0 as [[| | | t | l |] |]; simpl; try tauto.
    + intros [<- | []]. apply trim_idem.
    + apply trimmed_strings_trimmed.
  - intros y. destruct (truthy x1); [| simpl; tauto].
    destruct x1 as [[| | | t | l |] |]; simpl; try tauto.
    + destruct (includes _ (trim t)); simpl; [| tauto].
      intros [<- | []]. apply trim_idem.
    + intros K. apply filter_In in K. eapply trimmed_strings_trimmed, K.
  - intros loc L. subst x3.
    destruct (truthy x2); [| discriminate].
    peel E3.
    match type of E3 with
    | (if ?b then _ else _) = _ => destruct b; [| discriminate]
    end.
    injection E3 as <-. split; apply trim_idem.
  - intros q. destruct (truthy x4); [| injection E5 as <-; simpl; tauto].
    destruct x4 as [[| | | t | l | mm] |]; try (injection E5 as <-; simpl; tauto).
    + injection E5 as <-. intros [<- | []]. apply trim_idem.
    + peel E5. injection E5 as <-. simpl. eapply quests_trimmed; eauto.
    + peel E5.
      match type of E5 with
      | (if ?b then _ else _) = _ =>
          destruct b; [| injection E5 as <-; simpl; tauto]
      end.
      peel E5. injection E5 as <-. intros [<- | []].
      eapply quest_object_trimmed; eauto.
  - intros npc. destruct (truthy x6 && typeof_object x6); [| simpl; tauto].
    destruct x6 as [v |]; [| simpl; tauto]. simpl.
    apply npc_entries_trimmed. intros ? [].
  - intros e. destruct x8 as [[| | | | l |] |]; try (injection E9 as <-; simpl; tauto).
    peel E9. injection E9 as <-. simpl. eapply effects_trimmed; eauto.
Qed.

End TrimmedTexts.

Section ParsedTexts.

(** X9.  The texts of a parsed response are trimmed.  Whatever the model
    answers, the narrative parseGameResponse returns and the items, location
    name and description, quest names, NPC names and status-effect names of
    the change set have no whitespace at either end. *)
Theorem parsed_texts_are_trimmed :
  forall (raw : string) (s : GameState),
  exists narrative ch,
    parseGameResponse raw s = Normal (narrative, ch) /\ texts_trimmed narrative ch.
Proof.
  intros raw s.
  unfold parseGameResponse, try_catch.
  destruct (parseGameResponse_try raw s) as [[n ch] | e] eqn:E.
  - exists n, ch. split; [reflexivity |].
    unfold parseGameResponse_try in E. peel E. injection E as <- <-.
    eapply validateStateChanges_trimmed; eauto.
  - exists generic_narrative, no_changes. split; [reflexivity |].
    unfold texts_trimmed. simpl.
    split; [vm_compute; reflexivity |].
    split; [tauto |]. split; [tauto |]. split; [discriminate |].
    split; [tauto |]. split; tauto.
Qed.

Lemma validateStateChanges_location changes s ch loc :
  validateStateChanges changes s = Normal ch ->
  c_newLocation ch = Some loc ->
  exists id, loc_id loc = normalize_id id.
Proof.
  intros H L. unfold validateStateChanges in H. peel H.
  injection H as H. subst ch. simpl in L. subst x3.
  destruct (truthy x2); [| discriminate].
  peel E3.
  match type of E3 with
  | (if ?b then _ else _) = _ => destruct b; [| discriminate]
  end.
  injection E3 as <-. simpl. eauto.
Qed.

(** X10.  Location ids are in normal form.  The normalisation of an id
    (lower case, each run of whitespace replaced by one underscore) is the
    whitespace collapse of the lower-case text; its result holds no
    whitespace and is a fixed point of the normalisation.  The id of every
    location that parseGameResponse lets through is such a result. *)
Theorem location_ids_are_normal :
  (forall t : string,
     normalize_id t = collapse_go false (toLowerCase t)
     /\ string_forallb (fun c => negb (is_space c)) (normalize_id t) = true
     /\ normalize_id (normalize_id t) = normalize_id t)
  /\ (forall (raw : string) (s : GameState) (narrative : string) (ch : Changes)
             (loc : Location),
        parseGameResponse raw s = Normal (narrative, ch) ->
        c_newLocation ch = Some loc ->
        exists t, loc_id loc = normalize_id t).
Proof.
  split.
  - intros t. split; [apply normalize_id_collapse |].
    split; [apply normalize_id_no_space | apply normalize_id_idem].
  - intros raw s n ch loc H L.
    unfold parseGameResponse, try_catch in H.
    destruct (parseGameResponse_try raw s) as [[n' ch'] | e] eqn:T.
    + injection H as <- <-. unfold parseGameResponse_try in T. peel T.
      injection T as <- <-. eapply validateStateChanges_location; eauto.
    + injection H as <- <-. discriminate.
Qed.

(** A location whose id is written with capitals and two spaces. *)
Example location_id_normalised :
  let raw := "NARRATIVE: You walk." ++ newline ++ "STATE_CHANGES: "
             ++ dq "{'newLocation': {'id': 'Old  Mill', 'name': 'Old Mill', 'description': 'A mill.'}}" in
  exists n ch,
    parseGameResponse raw (sample_state 100 0 1 []) = Normal (n, ch)
    /\ option_map loc_id (c_newLocation ch) = Some "old_mill".
Proof. eexists. eexists. split; vm_compute; reflexivity. Qed.

End ParsedTexts.

(* ===================================================================== *)
(** * The markers of a response                                         *)
(* ===================================================================== *)

Import SplitNotions.

Section Engine.
Variable fl : flags.
Hypothesis case_sensitive : ignoreCase fl = false.

Lemma canon_id c : canon fl c = c.
Proof. unfold canon. rewrite case_sensitive. reflexivity. Qed.

Lemma ascii_dec_eqb {A} a b (x y : A) :
  (if ascii_dec a b then x else y) = (if Ascii.eqb a b then x else y).
Proof.
  destruct (ascii_dec a b) as [-> | N].
  - rewrite Ascii.eqb_refl. reflexivity.
  - apply Ascii.eqb_neq in N. rewrite N. reflexivity.
Qed.

(** A literal text matches when it is a prefix of the subject. *)
Lemma m_Str lit :
  forall prev s cs k,
    lit <> "" ->
    m fl (Str lit) prev s cs k
    = if prefix lit s then k (last_char prev lit) (drop (length lit) s) cs
      else None.
Proof.
  induction lit as [| c lit IH]; intros prev s cs k N; [congruence |].
  destruct lit as [| c' lit'].
  - destruct s as [| x s']; [reflexivity |].
    cbn [Str m prefix last_char drop length].
    rewrite !canon_id, ascii_dec_eqb.
    destruct (Ascii.eqb_spec c x) as [-> | ]; [| reflexivity].
    destruct s'; reflexivity.
  - destruct s as [| x s']; [reflexivity |].
    cbn [Str m]. cbn [prefix last_char drop length].
    rewrite !canon_id, ascii_dec_eqb.
    destruct (Ascii.eqb_spec c x) as [-> | ]; [| reflexivity].
    rewrite IH by discriminate. reflexivity.
Qed.

Hypothesis dot_all : dotAll fl = true.

Lemma m_Dot_all prev c r cs k :
  m fl Dot prev (String c r) cs k = k (Some c) r cs.
Proof. cbn [m]. rewrite dot_all. reflexivity. Qed.

(** A lazy [.*?] under the [s] flag stops at the first suffix its
    continuation accepts. *)
Lemma star_lazy_dot k n :
  forall s prev cs, length s <= n ->
    star (m fl Dot) false k n prev s cs = first_success k prev s cs.
Proof.
  induction n as [| n IH]; intros s prev cs L.
  - destruct s; [| simpl in L; lia]. simpl. destruct (k prev "" cs); reflexivity.
  - cbn [star]. destruct s as [| c r]; cbn [first_success].
    + destruct (k prev "" cs); reflexivity.
    + destruct (k prev (String c r) cs); [reflexivity |].
      rewrite m_Dot_all.
      assert (Lt : Nat.ltb (length r) (length (String c r)) = true)
        by (apply Nat.ltb_lt; simpl; lia).
      rewrite Lt. apply IH. simpl in L. lia.
Qed.

(** A greedy [.*] under the [s] flag runs to the end when its continuation
    accepts there. *)
Lemma star_greedy_dot (f : string -> caps -> string * caps) n :
  forall s prev cs, length s <= n ->
    star (m fl Dot) true (fun _ s' cs' => Some (f s' cs')) n prev s cs
    = Some (f "" cs).
Proof.
  induction n as [| n IH]; intros s prev cs L.
  - destruct s; [reflexivity | simpl in L; lia].
  - cbn [star]. destruct s as [| c r]; [reflexivity |].
    rewrite m_Dot_all.
    assert (Lt : Nat.ltb (length r) (length (String c r)) = true)
      by (apply Nat.ltb_lt; simpl; lia).
    rewrite Lt, IH by (simpl in L; lia). reflexivity.
Qed.

End Engine.

Section Split.

Lemma prefix_app lit r : prefix lit (lit ++ r) = true.
Proof.
  induction lit as [| c lit IH]; simpl.
  - destruct r; reflexivity.
  - destruct (ascii_dec c c); [exact IH | congruence].
Qed.

Lemma drop_app lit r : drop (length lit) (lit ++ r) = r.
Proof. induction lit as [| c lit IH]; simpl; auto. Qed.

Lemma drop_0 s : drop 0 s = s.
Proof. destruct s; reflexivity. Qed.

Lemma take_all s : take (length s) s = s.
Proof. induction s as [| c r IH]; simpl; congruence. Qed.

Lemma drop_length n s : length (drop n s) = length s - n.
Proof.
  revert s. induction n as [| n IH]; intros s.
  - rewrite drop_0. lia.
  - destruct s as [| c r]; simpl; auto.
Qed.

Lemma drop_drop n k s : drop n (drop k s) = drop (k + n) s.
Proof.
  revert s. induction k as [| k IH]; intros s.
  - rewrite drop_0. reflexivity.
  - destruct s as [| c r]; simpl; auto. destruct n; reflexivity.
Qed.

Lemma indexOf_from_bounds k t :
  forall j i, indexOf_from j k t = Some i -> j <= i <= j + length t.
Proof.
  induction t as [| c r IH]; cbn [indexOf_from length]; intros j i H.
  - destruct (prefix k ""); [injection H as <-; lia | discriminate].
  - destruct (prefix k (String c r)); [injection H as <-; lia |].
    apply IH in H. lia.
Qed.

Lemma indexOf_from_shift k t a :
  forall j, indexOf_from (a + j) k t = option_map (Nat.add a) (indexOf_from j k t).
Proof.
  induction t as [| c r IH]; cbn [indexOf_from]; intros j.
  - destruct (prefix k ""); reflexivity.
  - destruct (prefix k (String c r)); [reflexivity |].
    rewrite <- IH. f_equal. lia.
Qed.

(** The look-ahead [(?=STATE_CHANGES:|$)]. *)
Lemma m_lookahead prev s cs :
  m flag_s (Ahead (Alt (Str changes_marker) Eol)) prev s cs accept
  = if prefix changes_marker s || (s =? "") then Some (s, cs) else None.
Proof.
  cbn [m]. rewrite (@m_Str flag_s eq_refl) by discriminate.
  destruct (prefix changes_marker s); [reflexivity |].
  destruct s; reflexivity.
Qed.

Lemma first_success_found (g : string -> caps -> caps) t :
  forall j i prev cs,
    indexOf_from j changes_marker t = Some i ->
    first_success
      (fun _ s' cs' =>
         if prefix changes_marker s' || (s' =? "") then Some (s', g s' cs') else None)
      prev t cs
    = Some (drop (i - j) t, g (drop (i - j) t) cs).
Proof.
  induction t as [| c r IH]; intros j i prev cs H; cbn [indexOf_from] in H.
  - discriminate H.
  - cbn [first_success]. destruct (prefix changes_marker (String c r)) eqn:P.
    + injection H as <-. rewrite Nat.sub_diag. reflexivity.
    + cbn [orb String.eqb].
      pose proof (indexOf_from_bounds _ _ _ H) as B.
      rewrite (IH (S j) i) by exact H.
      replace (i - j) with (S (i - S j)) by lia. reflexivity.
Qed.

Lemma first_success_end (g : string -> caps -> caps) t :
  forall j prev cs,
    indexOf_from j changes_marker t = None ->
    first_success
      (fun _ s' cs' =>
         if prefix changes_marker s' || (s' =? "") then Some (s', g s' cs') else None)
      prev t cs
    = Some ("", g "" cs).
Proof.
  induction t as [| c r IH]; intros j prev cs H; cbn [indexOf_from] in H.
  - reflexivity.
  - cbn [first_success]. destruct (prefix changes_marker (String c r)); [discriminate |].
    cbn [orb String.eqb]. eapply IH; eauto.
Qed.

Lemma first_success_ext (k1 k2 : cont) :
  (forall p s cs, k1 p s cs = k2 p s cs) ->
  forall s p cs, first_success k1 p s cs = first_success k2 p s cs.
Proof.
  intros E s. induction s as [| c r IH]; intros p cs; cbn [first_success];
    rewrite E; [reflexivity |].
  destruct (k2 p (String c r) cs); auto.
Qed.

(** The narrative pattern on a response that starts with its marker. *)
Lemma m_narrative rest :
  m flag_s re_narrative None ("NARRATIVE:" ++ rest) [] accept
  = first_success
      (fun _ s' cs' =>
         if prefix changes_marker s' || (s' =? "")
         then Some (s', (1, take (length rest - length s') rest) :: cs')
         else None)
      (Some ":"%char) rest [].
Proof.
  unfold re_narrative. cbn [m].
  rewrite (@m_Str flag_s eq_refl) by discriminate.
  rewrite prefix_app, drop_app. cbn [last_char].
  rewrite (@star_lazy_dot flag_s eq_refl) by lia.
  apply first_success_ext. intros p s cs. apply m_lookahead.
Qed.

(** The state-changes pattern at the head of a text. *)
Lemma m_stateChanges prev t :
  m flag_s re_stateChanges prev t [] accept
  = if prefix changes_marker t then Some ("", [(1, drop 14 t)]) else None.
Proof.
  unfold re_stateChanges, changes_marker.
  change (m flag_s (Str "STATE_CHANGES:" +++ Group 1 (Star true Dot))%re prev t
            [] accept)
    with (m flag_s (Str "STATE_CHANGES:") prev t []
            (fun p s' cs' =>
               star (m flag_s Dot) true
                 (fun _ s'' cs'' =>
                    Some (s'', (1, take (length s' - length s'') s') :: cs''))
                 (length s') p s' cs')).
  rewrite (@m_Str flag_s eq_refl) by discriminate.
  destruct (prefix "STATE_CHANGES:" t); [| reflexivity].
  cbn [length last_char].
  rewrite (@star_greedy_dot flag_s eq_refl
             (fun s' cs' => (s', (1, take (length (drop 14 t) - length s') (drop 14 t)) :: cs')))
    by lia.
  cbn [length]. rewrite Nat.sub_0_r, take_all. reflexivity.
Qed.

Lemma search_stateChanges t :
  forall j prev,
    search flag_s re_stateChanges j prev t
    = match indexOf_from j changes_marker t with
      | Some i =>
          Some {| index := i; matched := drop (i - j) t;
                  groups := [(1, drop 14 (drop (i - j) t))] |}
      | None => None
      end.
Proof.
  induction t as [| c r IH]; intros j prev; cbn [search indexOf_from];
    rewrite m_stateChanges.
  - reflexivity.
  - destruct (prefix changes_marker (String c r)) eqn:P.
    + rewrite Nat.sub_diag. cbn [drop length]. rewrite Nat.sub_0_r.
      change (S (length r)) with (length (String c r)). rewrite take_all.
      reflexivity.
    + rewrite IH. destruct (indexOf_from (S j) changes_marker r) as [i |] eqn:E; auto.
      pose proof (indexOf_from_bounds _ _ _ E) as B.
      replace (i - j) with (S (i - S j)) by lia. reflexivity.
Qed.

End Split.

Section SplitTheorem.

Lemma prefix_cons_ne a b k s : a <> b -> prefix (String a k) (String b s) = false.
Proof. intros N. simpl. destruct (ascii_dec a b); [contradiction | reflexivity]. Qed.

Lemma indexOf_after_narrative rest :
  indexOf_from 0 changes_marker ("NARRATIVE:" ++ rest)
  = option_map (Nat.add 10) (indexOf rest changes_marker).
Proof.
  unfold indexOf, changes_marker.
  repeat (cbn [append indexOf_from];
          rewrite prefix_cons_ne by (intro; discriminate)).
  cbn [append]. apply (indexOf_from_shift changes_marker rest 10 0).
Qed.

Lemma search_head fl r i prev s :
  search fl r i prev s
  = match m fl r prev s [] accept with
    | Some (rest, cs) =>
        Some {| index := i; matched := take (length s - length rest) s;
                groups := cs |}
    | None =>
        match s with
        | EmptyString => None
        | String c s' => search fl r (S i) (Some c) s'
        end
    end.
Proof. destruct s; reflexivity. Qed.

Lemma take_nonempty i s : 0 < i -> i <= length s -> nonempty (take i s) = true.
Proof.
  destruct i as [| i]; [lia |]. destruct s as [| c r]; simpl; [lia | reflexivity].
Qed.

Lemma extractNarrative_marked rest i :
  indexOf rest changes_marker = Some i -> 0 < i ->
  extractNarrative ("NARRATIVE:" ++ rest) = trim (take i rest).
Proof.
  intros H P. unfold extractNarrative, captured, exec.
  rewrite search_head, m_narrative.
  pose proof (@first_success_found
                (fun s' cs' => (1, take (length rest - length s') rest) :: cs')
                rest 0 i (Some ":"%char) [] H) as F.
  cbv beta in F.
  match goal with
  | |- context [first_success ?k ?p ?t ?c] =>
      replace (first_success k p t c)
        with (Some (drop (i - 0) rest,
                    [(1, take (length rest - length (drop (i - 0) rest)) rest)]))
        by (symmetry; exact F)
  end.
  clear F.
  pose proof (indexOf_from_bounds _ _ _ H) as B.
  unfold group. cbn [groups cap_get Nat.eqb].
  rewrite Nat.sub_0_r, drop_length.
  replace (length rest - (length rest - i)) with i by lia.
  rewrite take_nonempty by lia. reflexivity.
Qed.

Lemma stateChangesSection_marked rest i :
  indexOf rest changes_marker = Some i ->
  stateChangesSection ("NARRATIVE:" ++ rest)
  = let tail := drop (i + 14) rest in
    if nonempty tail then Some tail else None.
Proof.
  intros H. unfold stateChangesSection, captured, exec.
  rewrite search_stateChanges, indexOf_after_narrative, H.
  cbn [option_map]. unfold group. cbn [groups cap_get Nat.eqb].
  rewrite Nat.sub_0_r.
  replace (drop (10 + i) ("NARRATIVE:" ++ rest)) with (drop i rest)
    by reflexivity.
  rewrite drop_drop. reflexivity.
Qed.

(** X11.  A response in the documented format is split at its markers.  When
    the response starts with NARRATIVE: and STATE_CHANGES: first occurs
    [i] > 0 characters later, the narrative is the trimmed text between
    the markers and the state-changes section is all that follows the
    second marker; when that section parses and validates,
    parseGameResponse returns the sanitized narrative with the validated
    change set. *)
Theorem marked_response_is_split :
  forall (rest : string) (i : nat),
    indexOf rest changes_marker = Some i ->
    0 < i ->
    let raw := "NARRATIVE:" ++ rest in
    let tail := drop (i + 14) rest in
    extractNarrative raw = trim (take i rest)
    /\ stateChangesSection raw = (if nonempty tail then Some tail else None)
    /\ (forall (s : GameState) (changes : json) (ch : Changes),
          nonempty tail = true ->
          JSON.parse (cleanJson (trim tail)) = Normal changes ->
          validateStateChanges changes s = Normal ch ->
          parseGameResponse raw s
          = Normal (sanitizeNarrative (trim (take i rest)), ch)).
Proof.
  intros rest i H P raw tail.
  pose proof (@extractNarrative_marked rest i H P) as N.
  pose proof (@stateChangesSection_marked rest i H) as C. cbv zeta in C.
  fold raw in N, C. fold tail in C.
  split; [exact N |]. split; [exact C |].
  intros s changes ch T J V.
  unfold parseGameResponse, parseGameResponse_try.
  rewrite C, N, T. cbn [decodeStateChanges]. rewrite J.
  cbn [try_catch bind]. rewrite V. reflexivity.
Qed.

Lemma marked_response_is_split_witness :
  let rest := " You walk." ++ newline ++ "STATE_CHANGES: " ++ dq "{'health': 90}" in
  let raw := "NARRATIVE:" ++ rest in
  let tail := drop (11 + 14) rest in
  extractNarrative raw = trim (take 11 rest)
  /\ stateChangesSection raw = (if nonempty tail then Some tail else None)
  /\ (forall (s : GameState) (changes : json) (ch : Changes),
        nonempty tail = true ->
        JSON.parse (cleanJson (trim tail)) = Normal changes ->
        validateStateChanges changes s = Normal ch ->
        parseGameResponse raw s
        = Normal (sanitizeNarrative (trim (take 11 rest)), ch)).
Proof.
  apply (@marked_response_is_split
           (" You walk." ++ newline ++ "STATE_CHANGES: " ++ dq "{'health': 90}") 11).
  - vm_compute. reflexivity.
  - lia.
Defined.

End SplitTheorem.

Section NarrativeOnly.

Lemma extractNarrative_unmarked rest :
  indexOf rest changes_marker = None -> rest <> "" ->
  extractNarrative ("NARRATIVE:" ++ rest) = trim rest.
Proof.
  intros H P. unfold extractNarrative, captured, exec.
  rewrite search_head, m_narrative.
  pose proof (@first_success_end
                (fun s' cs' => (1, take (length rest - length s') rest) :: cs')
                rest 0 (Some ":"%char) [] H) as F.
  cbv beta in F.
  match goal with
  | |- context [first_success ?k ?p ?t ?c] =>
      replace (first_success k p t c)
        with (Some ("", [(1, take (length rest - length "") rest)]))
        by (symmetry; exact F)
  end.
  clear F. unfold group. cbn [groups cap_get Nat.eqb length].
  rewrite Nat.sub_0_r, take_all.
  destruct rest; [congruence | reflexivity].
Qed.

Lemma stateChangesSection_unmarked rest :
  indexOf rest changes_marker = None ->
  stateChangesSection ("NARRATIVE:" ++ rest) = None.
Proof.
  intros H. unfold stateChangesSection, captured, exec.
  rewrite search_stateChanges, indexOf_after_narrative, H. reflexivity.
Qed.

(** X12.  A response with a narrative only.  When the response starts with
    NARRATIVE: and STATE_CHANGES: occurs nowhere after it, the narrative is
    all the text after the marker, trimmed and sanitized, and the change
    set is empty. *)
Theorem narrative_only_response :
  forall (rest : string) (s : GameState),
    indexOf rest changes_marker = None ->
    rest <> "" ->
    parseGameResponse ("NARRATIVE:" ++ rest) s
    = Normal (sanitizeNarrative (trim rest), no_changes).
Proof.
  intros rest s H P.
  unfold parseGameResponse, parseGameResponse_try.
  rewrite (@stateChangesSection_unmarked rest H),
    (@extractNarrative_unmarked rest H P).
  reflexivity.
Qed.

Lemma narrative_only_response_witness :
  parseGameResponse ("NARRATIVE:" ++ " The door is locked.") (sample_state 100 0 1 [])
  = Normal (sanitizeNarrative (trim " The door is locked."), no_changes).
Proof.
  apply (@narrative_only_response " The door is locked." (sample_state 100 0 1 [])).
  - vm_compute. reflexivity.
  - discriminate.
Defined.

End NarrativeOnly.

Section Sanitize.










End Sanitize.

Section Fallback.








End Fallback.

(* ===================================================================== *)
(** * Action types and game statistics                                  *)
(* ===================================================================== *)

Import Handlers.

Section ActionType.

Lemma prefix_app_l k s b : prefix k s = true -> prefix k (s ++ b) = true.
Proof.
  revert s. induction k as [| c k IH]; intros s H.
  - destruct (s ++ b); reflexivity.
  - destruct s as [| x s]; [discriminate |]. simpl in *.
    destruct (ascii_dec c x); [auto | discriminate].
Qed.

Lemma str_includes_from n s k :
  (match indexOf_from n k s with Some _ => true | None => false end)
  = str_includes s k.
Proof.
  unfold str_includes, indexOf.
  replace n with (n + 0) by lia. rewrite indexOf_from_shift.
  destruct (indexOf_from 0 k s); reflexivity.
Qed.

Lemma str_includes_cons c s k :
  str_includes (String c s) k = prefix k (String c s) || str_includes s k.
Proof.
  unfold str_includes at 1. unfold indexOf. cbn [indexOf_from].
  destruct (prefix k (String c s)); [reflexivity |].
  apply str_includes_from.
Qed.

Lemma str_includes_app_l s b k :
  str_includes s k = true -> str_includes (s ++ b) k = true.
Proof.
  induction s as [| c r IH]; cbn [append].
  - unfold str_includes, indexOf. cbn [indexOf_from].
    destruct (prefix k "") eqn:P; [| discriminate]. intros _.
    apply (@prefix_app_l k "" b) in P. cbn [append] in P.
    destruct b; cbn [indexOf_from]; rewrite P; reflexivity.
  - rewrite !str_includes_cons. intros H. apply orb_true_iff in H.
    apply orb_true_iff. destruct H as [P | H]; [left | right; auto].
    apply (@prefix_app_l k (String c r) b) in P. exact P.
Qed.

Lemma str_includes_app_r a s k :
  str_includes s k = true -> str_includes (a ++ s) k = true.
Proof.
  induction a as [| c r IH]; cbn [append]; auto.
  intros H. rewrite str_includes_cons. apply orb_true_iff. right. auto.
Qed.

Lemma toLowerCase_app a b : toLowerCase (a ++ b) = toLowerCase a ++ toLowerCase b.
Proof. unfold toLowerCase. induction a; simpl; congruence. Qed.

End ActionType.

Section ActionTypeTheorem.

Lemma keyword_test_embedded a b c k1 k2 k3 :
  keyword_test b k1 k2 k3 = true -> keyword_test (a ++ b ++ c) k1 k2 k3 = true.
Proof.
  unfold keyword_test. intros H.
  repeat (apply orb_true_iff in H; destruct H as [H | H]);
    apply (@str_includes_app_l b c) in H;
    apply (@str_includes_app_r a (b ++ c)) in H;
    rewrite H; rewrite ?orb_true_r; reflexivity.
Qed.

(** getActionType makes its six tests on the lower-case text. *)
Lemma getActionType_tests action :
  getActionType action
  = let x := toLowerCase action in
    decide_type (keyword_test x "attack" "fight" "kill")
                (keyword_test x "talk" "speak" "ask")
                (keyword_test x "take" "grab" "pick up")
                (keyword_test x "go" "move" "walk")
                (keyword_test x "look" "examine" "inspect")
                (keyword_test x "use" "activate" "open").
Proof. reflexivity. Qed.

(** A test that succeeds earlier decides an earlier type. *)
Lemma decide_type_monotone t1 t2 t3 t4 t5 t6 u1 u2 u3 u4 u5 u6 :
  (t1 = true -> u1 = true) -> (t2 = true -> u2 = true) ->
  (t3 = true -> u3 = true) -> (t4 = true -> u4 = true) ->
  (t5 = true -> u5 = true) -> (t6 = true -> u6 = true) ->
  rank (decide_type u1 u2 u3 u4 u5 u6) <= rank (decide_type t1 t2 t3 t4 t5 t6).
Proof.
  intros H1 H2 H3 H4 H5 H6.
  destruct u1; [apply Nat.le_0_l |].
  destruct t1; [discriminate (H1 eq_refl) |]. clear H1.
  destruct u2; [destruct t2, t3, t4, t5, t6; vm_compute; lia |].
  destruct t2; [discriminate (H2 eq_refl) |]. clear H2.
  destruct u3; [destruct t3, t4, t5, t6; vm_compute; lia |].
  destruct t3; [discriminate (H3 eq_refl) |]. clear H3.
  destruct u4; [destruct t4, t5, t6; vm_compute; lia |].
  destruct t4; [discriminate (H4 eq_refl) |]. clear H4.
  destruct u5; [destruct t5, t6; vm_compute; lia |].
  destruct t5; [discriminate (H5 eq_refl) |]. clear H5.
  destruct u6; [destruct t6; vm_compute; lia |].
  destruct t6; [discriminate (H6 eq_refl) |].
  apply Nat.le_refl.
Qed.

(** X13.  Keywords are found anywhere, in the order of the tests.  Putting
    text before and after an action never moves its type down the order
    combat, dialogue, item, movement, observation, interaction, other: a
    keyword of an earlier test, once in the text, decides whatever else
    the text holds. *)
Theorem action_type_of_embedded_text :
  forall a b c : string,
    rank (getActionType (a ++ b ++ c)) <= rank (getActionType b).
Proof.
  intros a b c. rewrite !getActionType_tests. cbv zeta.
  rewrite !toLowerCase_app.
  apply decide_type_monotone; apply keyword_test_embedded.
Qed.

End ActionTypeTheorem.

Section Stats.

Lemma updateGameState_timeElapsed s a n c now :
  timeElapsed (updateGameState s a n c now) = (timeElapsed s + 1)%Q.
Proof.
  rewrite updateGameState_steps.
  destruct (limitHistory_fields (levelUp (beforeLevelUp s a n c now)))
    as (_ & _ & _ & T).
  rewrite T. clear T.
  assert (U : forall t, timeElapsed (levelUp t) = timeElapsed t).
  { intros t. unfold levelUp. destruct (Qleb _ _); reflexivity. }
  rewrite U. unfold beforeLevelUp.
  assert (A : forall t, timeElapsed (advanceTime t) = (timeElapsed t + 1)%Q).
  { intros t. unfold advanceTime. cbv zeta.
    destruct (Qeqb _ 0); reflexivity. }
  rewrite A.
  destruct (middle_vitals c (applyHealth c (opening s a n now))) as (_ & _ & M).
  rewrite M.
  assert (H : forall t, timeElapsed (applyHealth c t) = timeElapsed t).
  { intros t. unfold applyHealth. destruct (c_health c); [| reflexivity].
    cbv zeta. destruct (Qleb _ 0); reflexivity. }
  rewrite H. reflexivity.
Qed.

Lemma updateGameState_history_cap s a n c now :
  List.length (gameHistory (updateGameState s a n c now)) <= 50.
Proof.
  rewrite updateGameState_steps.
  destruct (limitHistory_history (levelUp (beforeLevelUp s a n c now)))
    as (_ & _ & _ & _ & H).
  exact H.
Qed.

Lemma filter_length_le {A} (p : A -> bool) l :
  List.length (filter p l) <= List.length l.
Proof. induction l as [| x l IH]; simpl; [| destruct (p x); simpl]; lia. Qed.

Lemma play_snoc s turns t :
  play s (turns ++ [t])
  = turnPipeline (play s turns) (t_changes t) (t_action t) (t_narrative t) (t_now t).
Proof. unfold play. rewrite fold_left_app. reflexivity. Qed.

Lemma play_timeElapsed turns :
  forall s, (timeElapsed (play s turns)
             == timeElapsed s + inject_Z (Z.of_nat (List.length turns)))%Q.
Proof.
  induction turns as [| t turns IH]; intros s.
  - simpl. change (inject_Z 0) with 0%Q. ring.
  - change (play s (t :: turns))
      with (play (turnPipeline s (t_changes t) (t_action t) (t_narrative t)
                    (t_now t)) turns).
    rewrite IH. unfold turnPipeline.
    destruct (validated (t_changes t) (t_narrative t) s) as [n ch].
    rewrite updateGameState_timeElapsed.
    cbn [List.length]. rewrite Nat2Z.inj_succ, <- Z.add_1_r, inject_Z_plus.
    change (inject_Z 1) with 1%Q. ring.
Qed.

(** X14.  The statistics count the actions still in the history, not the
    actions taken.  After any run of at least one turn the statistics
    report at most 50 actions; and when the elapsed time is a whole number
    before the run and after it, the time they report has advanced by one
    unit for each turn. *)
Theorem stats_actions_are_capped :
  forall (s : GameState) (turns : list TurnInput) (last : TurnInput),
    let stats := gameStats (play s (turns ++ [last])) in
    let elapsed :=
      (timeElapsed s + inject_Z (Z.of_nat (List.length turns)) + 1)%Q in
    st_actionsTaken stats <= 50
    /\ (whole (timeElapsed s) = true ->
        whole elapsed = true ->
        (st_timeElapsed stats == elapsed)%Q).
Proof.
  intros s turns last stats elapsed. subst stats elapsed. split.
  - rewrite play_snoc. unfold gameStats. cbn [st_actionsTaken].
    unfold turnPipeline.
    destruct (validated _ _ _) as [n ch].
    eapply Nat.le_trans; [apply filter_length_le |].
    apply updateGameState_history_cap.
  - intros _ _.
    unfold gameStats. cbn [st_timeElapsed]. rewrite play_timeElapsed.
    rewrite length_app. cbn [List.length].
    rewrite Nat2Z.inj_add, inject_Z_plus. change (inject_Z (Z.of_nat 1)) with 1%Q.
    ring.
Qed.

Lemma stats_actions_are_capped_witness :
  let s := sample_state 100 0 1 [] in
  let turns := [quiet_turn "look"; quiet_turn "wait"] in
  let stats := gameStats (play s (turns ++ [quiet_turn "rest"])) in
  (whole (timeElapsed s) = true /\ whole (timeElapsed s + 2 + 1)%Q = true)
  /\ st_actionsTaken stats <= 50
  /\ (st_timeElapsed stats == timeElapsed s + 2 + 1)%Q.
Proof.
  split; [split; vm_compute; reflexivity |].
  destruct (@stats_actions_are_capped (sample_state 100 0 1 [])
              [quiet_turn "look"; quiet_turn "wait"] (quiet_turn "rest"))
    as [A T].
  split; [exact A |].
  apply T; vm_compute; reflexivity.
Defined.

(** The run of the witness: three actions in the history, three units of
    time. *)
Example three_quiet_turns :
  let stats := gameStats (play (sample_state 100 0 1 [])
                            [quiet_turn "look"; quiet_turn "wait";
                             quiet_turn "rest"]) in
  st_actionsTaken stats = 3 /\ (st_timeElapsed stats == 3)%Q.
Proof. vm_compute. split; reflexivity. Qed.

End Stats.

(* ===================================================================== *)
(** * World data                                                        *)
(* ===================================================================== *)

Import WorldNotions.

Section StrictWorld.
Import WorldResponse.

Lemma get_truthy v k x :
  get v k = Normal x -> truthy x = true -> has v k = true.
Proof.
  destruct v; simpl; intros H T; try (injection H as <-; discriminate T);
    try discriminate H.
  injection H as <-. exact T.
Qed.

Lemma get_opt_truthy v k x :
  get_opt v k = Normal x -> truthy x = true ->
  exists loc, v = Some loc /\ has loc k = true.
Proof.
  destruct v as [loc |]; simpl; [| discriminate].
  intros H T. exists loc. split; [reflexivity |]. eapply get_truthy; eauto.
Qed.

(** X15.  The strict world parser is all or nothing.  Whatever the text,
    parseWorldGeneration of the response parser returns a world that has a
    type, a name, an intro text and a starting location with id, name and
    description; it is either the object parsed from the braces of the
    text, untouched, or the fixed fallback world. *)
Theorem strict_world_parse_is_all_or_nothing :
  forall raw : string,
  exists w,
    WorldResponse.parseWorldGeneration raw = Normal w
    /\ usable w = true
    /\ (w = fallbackWorld
        \/ exists jsonMatch,
             exec no_flags re_json raw = Some jsonMatch
             /\ JSON.parse (matched jsonMatch) = Normal w).
Proof.
  intros raw. unfold WorldResponse.parseWorldGeneration.
  match goal with
  | |- context [try_catch ?body _] => destruct body as [w | e] eqn:B
  end; cbn [try_catch].
  2:{ exists fallbackWorld. split; [reflexivity |]. split; [reflexivity | now left]. }
  exists w. split; [reflexivity |].
  destruct (exec no_flags re_json raw) as [mr |]; [| discriminate].
  peel B.
  destruct (negb (truthy x0) || negb (truthy x1) || negb (truthy x2)
            || negb (truthy x3)) eqn:C; [discriminate |].
  peel B.
  destruct (negb (truthy x4) || negb (truthy x5) || negb (truthy x6)) eqn:D;
    [discriminate |].
  injection B as <-.
  repeat (apply orb_false_iff in C; destruct C as [C ?]).
  repeat (apply orb_false_iff in D; destruct D as [D ?]).
  repeat match goal with
         | H : negb _ = false |- _ => apply negb_false_iff in H
         end.
  split; [| right; eauto].
  unfold usable.
  rewrite (get_truthy _ _ E0), (get_truthy _ _ E1), (get_truthy _ _ E3) by assumption.
  cbn [andb].
  destruct x; simpl in E2; try (injection E2 as <-; discriminate);
    try discriminate.
  injection E2 as <-.
  destruct (get_opt_truthy _ _ E4) as (loc & L & I); [assumption |].
  rewrite L. rewrite I.
  rewrite L in E5, E6. cbn [get_opt] in E5, E6.
  rewrite (get_truthy _ _ E5), (get_truthy _ _ E6) by assumption.
  reflexivity.
Qed.

End StrictWorld.

Section GeneratedWorld.

Lemma default_prop_other k k' d m :
  k <> k' -> obj_get (default_prop k' d m) k = obj_get m k.
Proof.
  intros N. unfold default_prop. destruct (truthy (obj_get m k')); auto.
  apply obj_get_set_other, N.
Qed.

Lemma default_prop_truthy k d m :
  truthy (Some d) = true -> truthy (obj_get (default_prop k d m) k) = true.
Proof.
  intros T. unfold default_prop. destruct (truthy (obj_get m k)) eqn:E; auto.
  rewrite obj_get_set_same. exact T.
Qed.

Lemma default_list_other k k' d m :
  k <> k' -> obj_get (default_list k' d m) k = obj_get m k.
Proof.
  intros N. unfold default_list. destruct (missing_list (obj_get m k')); auto.
  apply obj_get_set_other, N.
Qed.

Lemma default_list_filled k d m :
  filled (Some d) = true -> filled (obj_get (default_list k d m) k) = true.
Proof.
  intros T. unfold default_list. destruct (missing_list (obj_get m k)) eqn:E.
  - rewrite obj_get_set_same. exact T.
  - destruct (obj_get m k) as [[| | | | [| x l] |] |]; try discriminate E.
    reflexivity.
Qed.

Lemma collapse_nonempty s b :
  s <> "" -> b = false -> collapse_go b s <> "".
Proof.
  intros N ->. destruct s as [| c r]; [congruence |]. simpl.
  destruct (is_space c); discriminate.
Qed.

Lemma toLowerCase_nonempty s : s <> "" -> toLowerCase s <> "".
Proof. destruct s; [congruence | discriminate]. Qed.

Lemma validate_startingLocation_ok loc loc' :
  truthy (Some loc) = true ->
  validate_startingLocation loc = Normal loc' ->
  startingLocation_ok (Some loc') = true.
Proof.
  intros T H. unfold validate_startingLocation in H. peel H.
  injection H as <-.
  destruct loc as [| b | q | t | l | m]; try discriminate T.
  - (* a truthy boolean *)
    simpl in *. injection E as <-. simpl in E0. injection E0 as <-.
    simpl in E1, E2. injection E1 as <-. injection E2 as <-. exact T.
  - simpl in *. injection E as <-. simpl in E0. injection E0 as <-.
    simpl in E1, E2. injection E1 as <-. injection E2 as <-. exact T.
  - simpl in *. injection E as <-. simpl in E0. injection E0 as <-.
    simpl in E1, E2. injection E1 as <-. injection E2 as <-. exact T.
  - simpl in *. injection E as <-. simpl in E0. injection E0 as <-.
    simpl in E1, E2. injection E1 as <-. injection E2 as <-. reflexivity.
  - (* an object *)
    cbn [get] in E. injection E as <-.
    assert (exists id l0,
              x0 = JObj l0
              /\ obj_get l0 "id" = Some (JStr id) /\ id <> ""
              /\ string_forallb (fun c => negb (is_space c)) id = true)
      as (id & l0 & -> & I & N & W).
    { destruct (truthy (obj_get m "id")) eqn:Ti.
      - peel E0. injection E0 as <-.
        unfold call_toLowerCase in E.
        destruct (obj_get m "id") as [[| | | t | |] |]; try discriminate E.
        injection E as <-.
        exists (replace_all no_flags (Plus ws) "_" (toLowerCase t)), (obj_set m "id"
                  (JStr (replace_all no_flags (Plus ws) "_" (toLowerCase t)))).
        split; [reflexivity |]. split; [apply obj_get_set_same |].
        change (Plus ws) with re_spaces. rewrite replace_spaces_collapse.
        split; [| apply collapse_no_space].
        apply collapse_nonempty; [| reflexivity].
        apply toLowerCase_nonempty. intros ->. discriminate Ti.
      - injection E0 as <-. exists "starting_point", (obj_set m "id" (JStr "starting_point")).
        split; [reflexivity |]. split; [apply obj_get_set_same |].
        split; [discriminate | reflexivity]. }
    cbn [get] in E1. injection E1 as <-.
    set (l1 := if truthy (obj_get l0 "name") then JObj l0
               else set_prop (JObj l0) "name" (JStr "Starting Point")) in *.
    assert (exists m1, l1 = JObj m1 /\ obj_get m1 "id" = Some (JStr id)
                       /\ truthy (obj_get m1 "name") = true)
      as (m1 & L1 & I1 & N1).
    { subst l1. destruct (truthy (obj_get l0 "name")) eqn:Tn.
      - exists l0. auto.
      - exists (obj_set l0 "name" (JStr "Starting Point")).
        split; [reflexivity |].
        rewrite obj_get_set_other by discriminate. rewrite obj_get_set_same. auto. }
    rewrite L1 in *. cbn [get] in E2. injection E2 as <-.
    destruct (truthy (obj_get m1 "description")) eqn:Td.
    + unfold startingLocation_ok. rewrite I1, N1, Td, W.
      destruct (String.eqb_spec id ""); [contradiction | reflexivity].
    + unfold startingLocation_ok, set_prop.
      rewrite !obj_get_set_other by discriminate. rewrite obj_get_set_same, I1, N1, W.
      destruct (String.eqb_spec id ""); [contradiction | reflexivity].
Qed.

Lemma validateWorldData_validated w v :
  validateWorldData w = Normal v -> exists m, v = JObj m /\ validated_world m.
Proof.
  intros H. unfold validateWorldData in H. peel H. injection H as <-.
  eexists. split; [reflexivity |].
  set (m3 := default_prop "description"
               (JStr "A mysterious world awaiting exploration.")
               (default_prop "name" (JStr "Unnamed Realm")
                  (default_prop "type" (JStr "fantasy") (spread w)))) in *.
  assert (A3 : truthy (obj_get m3 "type") = true
               /\ truthy (obj_get m3 "name") = true
               /\ truthy (obj_get m3 "description") = true).
  { subst m3. repeat split.
    - rewrite !default_prop_other by discriminate.
      apply default_prop_truthy. reflexivity.
    - rewrite !default_prop_other by discriminate.
      apply default_prop_truthy. reflexivity.
    - apply default_prop_truthy. reflexivity. }
  destruct A3 as (T3 & N3 & D3).
  assert (A4 : truthy (obj_get x "type") = true
               /\ truthy (obj_get x "name") = true
               /\ truthy (obj_get x "description") = true
               /\ startingLocation_ok (obj_get x "startingLocation") = true
               /\ obj_get x "introText" = obj_get m3 "introText").
  { assert (S : forall loc',
               startingLocation_ok (Some loc') = true ->
               let x := obj_set m3 "startingLocation" loc' in
               truthy (obj_get x "type") = true
               /\ truthy (obj_get x "name") = true
               /\ truthy (obj_get x "description") = true
               /\ startingLocation_ok (obj_get x "startingLocation") = true
               /\ obj_get x "introText" = obj_get m3 "introText").
    { intros loc' O. cbv zeta.
      rewrite (@obj_get_set_other _ m3 "type" "startingLocation") by discriminate.
      rewrite (@obj_get_set_other _ m3 "name" "startingLocation") by discriminate.
      rewrite (@obj_get_set_other _ m3 "description" "startingLocation") by discriminate.
      rewrite (@obj_get_set_other _ m3 "introText" "startingLocation") by discriminate.
      rewrite obj_get_set_same. auto. }
    destruct (obj_get m3 "startingLocation") as [loc |] eqn:L.
    - destruct (truthy (Some loc)) eqn:Tl.
      + peel E. injection E as <-. apply S.
        eapply validate_startingLocation_ok; eauto.
      + injection E as <-. apply S. reflexivity.
    - injection E as <-. apply S. reflexivity. }
  destruct A4 as (T4 & N4 & D4 & S4 & I4).
  assert (A5 : truthy (obj_get x0 "type") = true
               /\ truthy (obj_get x0 "name") = true
               /\ truthy (obj_get x0 "description") = true
               /\ startingLocation_ok (obj_get x0 "startingLocation") = true
               /\ truthy (obj_get x0 "introText") = true).
  { destruct (truthy (obj_get x "introText")) eqn:Ti.
    - injection E0 as <-. repeat split; auto.
    - peel E0. injection E0 as <-.
      rewrite (@obj_get_set_other _ x "type" "introText") by discriminate.
      rewrite (@obj_get_set_other _ x "name" "introText") by discriminate.
      rewrite (@obj_get_set_other _ x "description" "introText") by discriminate.
      rewrite (@obj_get_set_other _ x "startingLocation" "introText") by discriminate.
      rewrite obj_get_set_same.
      repeat split; auto. }
  destruct A5 as (T5 & N5 & D5 & S5 & I5).
  unfold validated_world.
  repeat match goal with
         | |- context [obj_get (default_list ?k' ?d ?m) ?k] =>
             rewrite (@default_list_other k k' d m) by discriminate
         end.
  split; [exact T5 |]. split; [exact N5 |]. split; [exact D5 |].
  split; [exact I5 |]. split; [exact S5 |].
  split; [| split]; apply default_list_filled; reflexivity.
Qed.

Lemma pick_unit options r :
  unit_interval r -> options <> [] ->
  exists x, pick options r = Some (JStr x) /\ In x options.
Proof.
  intros [R0 R1] N. unfold pick.
  set (n := Z.of_nat (List.length options)).
  assert (Pn : (0 < n)%Z).
  { subst n. destruct options; [congruence | simpl; lia]. }
  assert (Qn : (0 < inject_Z n)%Q).
  { change 0%Q with (inject_Z 0). rewrite <- Zlt_Qlt. exact Pn. }
  set (i := Qfloor (r * inject_Z n)).
  assert (I0 : (0 <= i)%Z).
  { subst i. change 0%Z with (Qfloor 0). apply Qfloor_resp_le. nra. }
  assert (I1 : (i < n)%Z).
  { subst i. rewrite Zlt_Qlt.
    eapply Qle_lt_trans; [apply Qfloor_le |]. nra. }
  destruct (i <? 0)%Z eqn:E; [apply Z.ltb_lt in E; lia |].
  destruct (nth_error options (Z.to_nat i)) as [x |] eqn:X.
  - exists x. split; [reflexivity |]. eapply nth_error_In; eauto.
  - apply nth_error_None in X. subst n. lia.
Qed.

Lemma weather_tables key :
  let options := lookup_or_fantasy weatherSets fantasy_weather key in
  options <> [] /\ forall x, In x options -> x <> "".
Proof.
  unfold lookup_or_fantasy, weatherSets. cbn [obj_get].
  repeat match goal with
         | |- context [String.eqb key ?k] => destruct (String.eqb key k)
         end;
    (split; [discriminate |]);
    intros x H; cbn [In fantasy_weather] in H;
    repeat (destruct H as [<- | H]; [discriminate |]); destruct H.
Qed.

Lemma location_tables key :
  filled (Some (lookup_or_fantasy locationSets fantasy_locations key)) = true.
Proof.
  unfold lookup_or_fantasy, locationSets. cbn [obj_get].
  repeat match goal with
         | |- context [String.eqb key ?k] => destruct (String.eqb key k)
         end; reflexivity.
Qed.

Lemma npc_tables key :
  filled (Some (lookup_or_fantasy npcSets fantasy_npcs key)) = true.
Proof.
  unfold lookup_or_fantasy, npcSets. cbn [obj_get].
  repeat match goal with
         | |- context [String.eqb key ?k] => destruct (String.eqb key k)
         end; reflexivity.
Qed.

Lemma is_text_pick options r :
  unit_interval r -> options <> [] -> (forall x, In x options -> x <> "") ->
  exists x, pick options r = Some (JStr x) /\ is_text (Some (JStr x)) = true.
Proof.
  intros U N T. destruct (pick_unit U N) as (x & P & I).
  exists x. split; [exact P |]. simpl.
  destruct (String.eqb_spec x ""); [| reflexivity].
  exfalso. eapply T; eauto.
Qed.

Lemma enhanceWorldData_complete m rnd w :
  validated_world m ->
  unit_interval (r_time rnd) -> unit_interval (r_weather rnd) ->
  unit_interval (r_season rnd) ->
  enhanceWorldData (JObj m) rnd = Normal w ->
  complete_world w = true.
Proof.
  intros (T & N & D & I & S & P & F & K) Ut Uw Us H.
  unfold enhanceWorldData in H. peel H. injection H as <-.
  unfold generateNearbyLocations in E. peel E. injection E as <-.
  unfold generateBasicNPCs in E0. peel E0. injection E0 as <-.
  unfold generateEnvironment in E1. peel E1. injection E1 as <-.
  cbn [get] in E2, E, E0. injection E2 as <-. injection E as <-. injection E0 as <-.
  unfold call_toLowerCase in *.
  destruct (obj_get m "type") as [[| | | t | |] |] eqn:Ty; try discriminate.
  injection E3 as <-. injection E4 as <-. injection E5 as <-.
  destruct (@is_text_pick timeOptions (r_time rnd) Ut) as (a & Pa & Ta);
    [discriminate | |].
  { intros x H. cbn [In timeOptions] in H.
    repeat (destruct H as [<- | H]; [discriminate |]). destruct H. }
  destruct (weather_tables (toLowerCase t)) as [Wn Wt]. cbv zeta in Wn, Wt.
  destruct (@is_text_pick _ (r_weather rnd) Uw Wn Wt) as (b & Pb & Tb).
  destruct (@is_text_pick ["spring"; "summer"; "autumn"; "winter"]
              (r_season rnd) Us) as (c & Pc & Tc); [discriminate | |].
  { intros x H. cbn [In] in H.
    repeat (destruct H as [<- | H]; [discriminate |]). destruct H. }
  rewrite Pa, Pb, Pc.
  set (env := object_of [("time", Some (JStr a)); ("weather", Some (JStr b));
                         ("season", Some (JStr c))]).
  assert (Ea : obj_get env "time" = Some (JStr a)) by reflexivity.
  assert (Eb : obj_get env "weather" = Some (JStr b)) by reflexivity.
  assert (Ec : obj_get env "season" = Some (JStr c)) by reflexivity.
  clearbody env.
  unfold complete_world, spread.
  repeat match goal with
         | |- context [obj_get (obj_set ?m0 ?k' ?v) ?k] =>
             rewrite (@obj_get_set_other _ m0 k k' v) by discriminate
         end.
  rewrite !obj_get_set_same.
  rewrite Ty, N, D, I, S, P, F, K, location_tables, npc_tables.
  assert (Tt : is_text (Some (JStr t)) = true).
  { simpl in T |- *. exact T. }
  rewrite Tt, Ea, Eb, Ec, Ta, Tb, Tc. reflexivity.
Qed.

Lemma parseWorldGeneration_validated content wd :
  parseWorldGeneration content = Normal wd ->
  exists m, wd = JObj m /\ validated_world m.
Proof.
  unfold parseWorldGeneration.
  match goal with
  | |- context [try_catch ?body _] => destruct body as [w | e] eqn:B
  end; cbn [try_catch]; intros [= <-].
  - destruct (exec no_flags re_json content); [| discriminate].
    apply bind_Normal in B. destruct B as (x & _ & B).
    eapply validateWorldData_validated; eauto.
  - eexists. split; [reflexivity |]. repeat split.
Qed.

(** X16.  The world generator always delivers a complete world.  Whatever the
    model call does (a failure, or an answer of any text that holds no
    backslash and neither [constructor] nor [__proto__] in any letter
    case) and for random draws between 0 and 1, generateWorld returns a
    world with a textual type, a name, a description, an intro text, plot
    hooks, factions, key items, nearby locations, NPCs and an environment
    with time, weather and season; a starting location that is a plain
    object has a non-empty id without whitespace, a name and a
    description. *)
Theorem generated_world_is_complete :
  forall (openai : option string -> completion string)
         (worldType : option string) (rnd : Draws),
    (forall content, openai worldType = Normal content ->
                     plain_reply content = true) ->
    unit_interval (r_time rnd) ->
    unit_interval (r_weather rnd) ->
    unit_interval (r_season rnd) ->
    exists w,
      generateWorld openai worldType rnd = Normal w /\ complete_world w = true.
Proof.
  intros openai worldType rnd _.
  intros Ut Uw Us. unfold generateWorld.
  match goal with
  | |- context [try_catch ?body _] => destruct body as [w | e] eqn:B
  end; cbn [try_catch].
  - exists w. split; [reflexivity |].
    apply bind_Normal in B. destruct B as (content & _ & B).
    apply bind_Normal in B. destruct B as (wd & P & B).
    destruct (parseWorldGeneration_validated _ P) as (m & -> & V).
    eapply enhanceWorldData_complete; eauto.
  - exists getFallbackWorld. split; reflexivity.
Qed.

Lemma generated_world_is_complete_witness :
  exists w,
    generateWorld world_reply (Some "sci-fi") sample_draws = Normal w
    /\ complete_world w = true.
Proof.
  apply (@generated_world_is_complete world_reply (Some "sci-fi") sample_draws).
  - intros content [= <-]. vm_compute. reflexivity.
  - unfold unit_interval; simpl; lra.
  - unfold unit_interval; simpl; lra.
  - unfold unit_interval; simpl; lra.
Defined.

(** The world of the witness: the type of the answer selects the sci-fi
    tables. *)
Example world_of_reply :
  exists m,
    generateWorld world_reply (Some "sci-fi") sample_draws = Normal (JObj m)
    /\ obj_get m "type" = Some (JStr "Sci-Fi")
    /\ obj_get m "name" = Some (JStr "Kepler Station")
    /\ obj_get m "nearbyLocations"
       = Some (lookup_or_fantasy locationSets fantasy_locations "sci-fi").
Proof. eexists. repeat split; vm_compute; reflexivity. Qed.

(** A starting location that is not an object passes validation as it is:
    the world then has no starting id. *)
Example starting_location_text :
  exists m,
    generateWorld
      (fun _ => Normal (dq "{'type': 'fantasy', 'startingLocation': 'the docks'}"))
      None sample_draws = Normal (JObj m)
    /\ obj_get m "startingLocation" = Some (JStr "the docks").
Proof. eexists. split; vm_compute; reflexivity. Qed.

End GeneratedWorld.

(* ===================================================================== *)
(** * The deep clone of JSON data                                       *)
(* ===================================================================== *)

From Stdlib Require Import DecimalPos DecimalFacts.
Import JSON JsonText JsonNotions.

Section Numbers.

Lemma take_digits_acc d :
  forall rest acc n,
    take_digits (NilEmpty.string_of_uint d ++ rest) (Zpos acc) n
    = take_digits rest (Zpos (Pos.of_uint_acc d acc)) (n + Decimal.nb_digits d).
Proof.
  induction d; intros rest acc n; cbn [NilEmpty.string_of_uint append
    Pos.of_uint_acc Decimal.nb_digits];
    [ rewrite Nat.add_0_r; reflexivity | .. ];
    cbn [take_digits]; change (is_digit _) with true; cbv iota;
    rewrite <- Nat.add_succ_comm;
    match goal with
    | |- take_digits _ ?a _ = take_digits _ (Zpos (Pos.of_uint_acc _ ?b)) _ =>
        replace a with (Zpos b)
          by (match goal with
              | |- context [digit_val ?c] =>
                  let v := eval vm_compute in (digit_val c) in
                  change (digit_val c) with v
              end; lia)
    end; apply IHd.
Qed.

Lemma take_digits_uint d :
  forall rest n,
    take_digits (NilEmpty.string_of_uint d ++ rest) 0 n
    = take_digits rest (Z.of_N (Pos.of_uint d)) (n + Decimal.nb_digits d).
Proof.
  induction d; intros rest n;
    cbn [NilEmpty.string_of_uint append Pos.of_uint Decimal.nb_digits];
    [ rewrite Nat.add_0_r; reflexivity | .. ];
    cbn [take_digits]; change (is_digit _) with true; cbv iota;
    rewrite <- Nat.add_succ_comm.
  - apply IHd.
  - apply (take_digits_acc d rest 1 (S n)).
  - apply (take_digits_acc d rest 2 (S n)).
  - apply (take_digits_acc d rest 3 (S n)).
  - apply (take_digits_acc d rest 4 (S n)).
  - apply (take_digits_acc d rest 5 (S n)).
  - apply (take_digits_acc d rest 6 (S n)).
  - apply (take_digits_acc d rest 7 (S n)).
  - apply (take_digits_acc d rest 8 (S n)).
  - apply (take_digits_acc d rest 9 (S n)).
Qed.

Lemma nzhead_head d :
  match Decimal.nzhead d with Decimal.D0 _ => False | _ => True end.
Proof. induction d; simpl; auto. Qed.

(** The decimal form of a positive number starts with a digit other
    than 0. *)
Lemma to_uint_head p :
  match Pos.to_uint p with
  | Decimal.Nil | Decimal.D0 _ => False
  | _ => True
  end.
Proof.
  pose proof (Unsigned.to_of (Pos.to_uint p)) as H.
  rewrite Unsigned.of_to in H. cbn [N.to_uint] in H.
  pose proof (Unsigned.to_uint_nonzero p) as Z.
  pose proof (Unsigned.to_uint_nonnil p) as N.
  destruct (Pos.to_uint p) as [| d | d | d | d | d | d | d | d | d | d]; auto.
  unfold Decimal.unorm in H. cbn [Decimal.nzhead] in H.
  pose proof (nzhead_head d) as K.
  destruct (Decimal.nzhead d); try discriminate H; auto.
Qed.

Lemma str_app_nil s : s ++ "" = s.
Proof. induction s; simpl; congruence. Qed.

Lemma integer_value z :
  ((inject_Z z + inject_Z 0 * pow10 (- Z.of_nat 0)) * pow10 0)%Q = inject_Z z.
Proof.
  unfold Qmult, Qplus, inject_Z, pow10. cbn. f_equal. lia.
Qed.

(** The JSON number grammar reads the decimal form of a positive number. *)
Lemma number_digits p :
  number (NilEmpty.string_of_uint (Pos.to_uint p)) = Some (inject_Z (Zpos p)).
Proof.
  pose proof (take_digits_uint (Pos.to_uint p) "" 0) as T.
  rewrite str_app_nil, Unsigned.of_to in T. cbn [take_digits Z.of_N Nat.add] in T.
  pose proof (to_uint_head p) as H.
  unfold number.
  destruct (Pos.to_uint p) as [| d | d | d | d | d | d | d | d | d | d];
    try contradiction;
    cbn [NilEmpty.string_of_uint] in *; cbv iota beta;
    rewrite T; cbn [Decimal.nb_digits];
    destruct (Decimal.nb_digits d); cbv iota beta;
    cbn [take String.eqb Ascii.eqb Bool.eqb negb opt_exponent];
    rewrite integer_value; reflexivity.
Qed.

Lemma number_of_Z z : number (Z_toString z) = Some (inject_Z z).
Proof.
  destruct z as [| p | p].
  - reflexivity.
  - unfold Z_toString. cbn [Z.to_int NilZero.string_of_int].
    pose proof (to_uint_head p) as H. unfold NilZero.string_of_uint.
    destruct (Pos.to_uint p) eqn:E; try contradiction; rewrite <- E;
      apply number_digits.
  - unfold Z_toString. cbn [Z.to_int NilZero.string_of_int].
    pose proof (to_uint_head p) as H.
    pose proof (take_digits_uint (Pos.to_uint p) "" 0) as T.
    rewrite str_app_nil, Unsigned.of_to in T.
    cbn [take_digits Z.of_N Nat.add] in T.
    assert (S : NilZero.string_of_uint (Pos.to_uint p)
                = NilEmpty.string_of_uint (Pos.to_uint p)).
    { unfold NilZero.string_of_uint.
      destruct (Pos.to_uint p); [contradiction | reflexivity ..]. }
    rewrite S. unfold number. cbv iota beta. rewrite T.
    destruct (Pos.to_uint p) as [| d | d | d | d | d | d | d | d | d | d];
      try contradiction;
      cbn [NilEmpty.string_of_uint Decimal.nb_digits];
      destruct (Decimal.nb_digits d); cbv iota beta;
      cbn [take String.eqb Ascii.eqb Bool.eqb negb opt_exponent];
      rewrite integer_value; reflexivity.
Qed.

End Numbers.


Section Lexing.

Lemma word_char_between c :
  word_char c = true -> lex_between c = Some (InWord [c], []).
Proof.
  destruct c as [[] [] [] [] [] [] [] []]; try discriminate; reflexivity.
Qed.

Lemma lex_word_chars w :
  forall acc rest,
    string_forallb word_char w = true ->
    lex (InWord acc) (w ++ rest) = lex (InWord (rev (list_ascii_of_string w) ++ acc)) rest.
Proof.
  induction w as [| c w IH]; intros acc rest H; [reflexivity |].
  simpl in H. apply andb_true_iff in H as [C H].
  cbn [append lex list_ascii_of_string rev]. rewrite C, IH by exact H.
  rewrite <- app_assoc. reflexivity.
Qed.

Lemma lex_word_end acc rest :
  delimited rest = true ->
  lex (InWord acc) rest = option_map (cons (TWord (rev_string acc))) (lex Between rest).
Proof.
  destruct rest as [| c r]; [reflexivity |]. cbn [delimited].
  intros D.
  destruct (Ascii.eqb_spec c ",");
    [subst; cbn [lex]; simpl; destruct (lex Between r); reflexivity |].
  destruct (Ascii.eqb_spec c "]");
    [subst; cbn [lex]; simpl; destruct (lex Between r); reflexivity |].
  destruct (Ascii.eqb_spec c "}");
    [subst; cbn [lex]; simpl; destruct (lex Between r); reflexivity |].
  discriminate D.
Qed.

Lemma rev_string_rev w c :
  rev_string (rev (list_ascii_of_string w) ++ [c]) = String c w.
Proof.
  unfold rev_string. rewrite rev_app_distr, rev_involutive. simpl.
  rewrite string_of_list_ascii_of_string. reflexivity.
Qed.

(** A word followed by a delimiter is one token. *)
Lemma lex_word c w rest :
  string_forallb word_char (String c w) = true ->
  delimited rest = true ->
  lex Between (String c w ++ rest)
  = option_map (cons (TWord (String c w))) (lex Between rest).
Proof.
  intros H D. pose proof H as H'. simpl in H'.
  apply andb_true_iff in H' as [C W].
  cbn [append lex]. rewrite (word_char_between _ C). cbn [option_map app].
  rewrite lex_word_chars by exact W. rewrite lex_word_end by exact D.
  rewrite rev_string_rev.
  destruct (lex Between rest); reflexivity.
Qed.

Lemma lex_quote_char c :
  forall acc r, lex (InStr acc) (quote_char c ++ r) = lex (InStr (c :: acc)) r.
Proof.
  destruct c as [[] [] [] [] [] [] [] []]; intros acc r; reflexivity.
Qed.

Lemma str_app_assoc' (a b c : string) : (a ++ b) ++ c = a ++ b ++ c.
Proof. induction a; simpl; congruence. Qed.

Lemma lex_quote_body s :
  forall acc r,
    lex (InStr acc) (quote_body s ++ r)
    = lex (InStr (rev (list_ascii_of_string s) ++ acc)) r.
Proof.
  induction s as [| c s IH]; intros acc r; [reflexivity |].
  cbn [quote_body list_ascii_of_string rev].
  rewrite str_app_assoc', lex_quote_char, IH, <- app_assoc. reflexivity.
Qed.

(** A quoted string is one token, whatever follows. *)
Lemma lex_string s rest :
  lex Between (quoteJSONString s ++ rest)
  = option_map (cons (TStr s)) (lex Between rest).
Proof.
  unfold quoteJSONString. cbn [append lex].
  change (lex_between quote) with (Some (InStr [], @nil token)). cbn [option_map app].
  rewrite str_app_assoc', lex_quote_body. cbn [append lex].
  change (Ascii.eqb quote quote) with true. cbv iota.
  unfold rev_string. rewrite List.app_nil_r, rev_involutive,
    string_of_list_ascii_of_string.
  destruct (lex Between rest); reflexivity.
Qed.

End Lexing.

Section Reading.

Lemma option_map_app A (a b : list A) x :
  option_map (app a) (option_map (app b) x) = option_map (app (a ++ b)) x.
Proof. destruct x; simpl; [rewrite app_assoc |]; reflexivity. Qed.

Lemma option_map_cons A (a : A) x : option_map (cons a) x = option_map (app [a]) x.
Proof. reflexivity. Qed.

Lemma option_map_nil A (x : option (list A)) : option_map (app []) x = x.
Proof. destruct x; reflexivity. Qed.

Lemma digits_word d :
  string_forallb word_char (NilEmpty.string_of_uint d) = true.
Proof. induction d; simpl; auto. Qed.

Lemma Z_toString_word z :
  exists c w, Z_toString z = String c w
              /\ string_forallb word_char (String c w) = true.
Proof.
  unfold Z_toString.
  assert (U : forall d, exists c w,
             NilZero.string_of_uint d = String c w
             /\ string_forallb word_char (String c w) = true).
  { intros d. unfold NilZero.string_of_uint.
    destruct d; try (eexists _, _; split; [reflexivity |];
                     cbn [NilEmpty.string_of_uint string_forallb];
                     rewrite ?digits_word; reflexivity). }
  destruct z as [| p | p]; cbn [Z.to_int NilZero.string_of_int].
  - apply U.
  - apply U.
  - eexists _, _. split; [reflexivity |].
    destruct (U (Pos.to_uint p)) as (c & w & -> & H).
    cbn [string_forallb] in *. rewrite H. reflexivity.
Qed.

Lemma safe_integer_text q :
  safe_integer q = true ->
  Number_toString q = Z_toString (Qnum q) /\ inject_Z (Qnum q) = q.
Proof.
  unfold safe_integer. intros H. apply andb_true_iff in H as [D _].
  apply Pos.eqb_eq in D. destruct q as [n d]. cbn [Qnum Qden] in *. subst d.
  split; [| reflexivity].
  unfold Number_toString.
  assert (R : Qred (Qmake n 1) = Qmake n 1).
  { unfold Qred. pose proof (Z.ggcd_correct_divisors n 1) as C.
    pose proof (Z.ggcd_gcd n 1) as G. rewrite Z.gcd_1_r in G.
    destruct (Z.ggcd n 1) as (g & a & b). cbn [fst snd] in *. subst g.
    destruct C as [Ca Cb].
    replace b with 1%Z by lia. replace a with n by lia. reflexivity. }
  rewrite R. reflexivity.
Qed.

Lemma lex_punct c t r :
  lex_between c = Some (Between, [t]) ->
  lex Between (String c r) = option_map (app [t]) (lex Between r).
Proof. intros H. cbn [lex]. rewrite H. reflexivity. Qed.

(** The induction principle of values, with the elements of an array and
    the values of an object. *)
Lemma json_induction (P : json -> Prop) :
  P JNull -> (forall b, P (JBool b)) -> (forall q, P (JNum q)) ->
  (forall s, P (JStr s)) ->
  (forall l, Forall P l -> P (JArr l)) ->
  (forall m, Forall (fun kv => P (snd kv)) m -> P (JObj m)) ->
  forall v, P v.
Proof.
  intros Hn Hb Hq Hs Ha Ho.
  fix IH 1. intros [| b | q | s | l | m].
  - exact Hn.
  - exact (Hb b).
  - exact (Hq q).
  - exact (Hs s).
  - apply Ha. revert l. fix IHl 1. intros [| x l]; constructor;
      [apply IH | apply IHl].
  - apply Ho. revert m. fix IHm 1. intros [| [k x] m]; constructor;
      [apply IH | apply IHm].
Qed.

Lemma split_keys_plain V (m : list (string * V)) :
  forallb (fun k => match array_index k with None => true | Some _ => false end)
          (map fst m) = true ->
  split_keys m = ([], m).
Proof.
  induction m as [| [k v] m IH]; [reflexivity |].
  cbn [map fst forallb split_keys]. intros H.
  apply andb_true_iff in H as [K H]. rewrite (IH H).
  destruct (array_index k); [discriminate K | reflexivity].
Qed.

Lemma own_entries_plain V (m : list (string * V)) :
  forallb (fun k => match array_index k with None => true | Some _ => false end)
          (map fst m) = true ->
  own_entries m = m.
Proof. intros H. unfold own_entries. rewrite (split_keys_plain _ H). reflexivity. Qed.

Lemma delimited_cons c r :
  (Ascii.eqb c "," || Ascii.eqb c "]" || Ascii.eqb c "}") = true ->
  delimited (String c r) = true.
Proof. auto. Qed.

Lemma lex_list (f : json -> string) (g : json -> list token) l :
  Forall (fun v => plain v = true ->
            forall rest, delimited rest = true ->
              lex Between (f v ++ rest) = option_map (app (g v)) (lex Between rest)) l ->
  forallb plain l = true ->
  forall rest, delimited rest = true ->
    lex Between (join "," (map f l) ++ rest)
    = option_map (app (sep_tokens (map g l))) (lex Between rest).
Proof.
  induction 1 as [| x l Hx Hl IH]; intros P rest D.
  - cbn. rewrite option_map_nil. reflexivity.
  - cbn [forallb] in P. apply andb_true_iff in P as [Px Pl].
    destruct l as [| y l'].
    + cbn [map join sep_tokens]. apply Hx; assumption.
    + change (join "," (map f (x :: y :: l')))
        with (f x ++ "," ++ join "," (map f (y :: l'))).
      change (sep_tokens (map g (x :: y :: l')))
        with (g x ++ TComma :: sep_tokens (map g (y :: l')))%list.
      rewrite !str_app_assoc'. rewrite (Hx Px) by reflexivity.
      cbn [append]. rewrite (@lex_punct "," TComma) by reflexivity.
      rewrite (IH Pl rest D), !option_map_app, <- ?List.app_assoc. reflexivity.
Qed.

Lemma lex_value v : lexes v.
Proof.
  induction v as [| b | q | s | l IH | m IH] using json_induction;
    intros P rest D.
  - apply (@lex_word "n" "ull"); [reflexivity | exact D].
  - destruct b.
    + apply (@lex_word "t" "rue"); [reflexivity | exact D].
    + apply (@lex_word "f" "alse"); [reflexivity | exact D].
  - cbn [plain] in P. destruct (safe_integer_text _ P) as [T _].
    cbn [stringify tokens]. rewrite T.
    destruct (Z_toString_word (Qnum q)) as (c & w & -> & W).
    rewrite (lex_word _ _ _ W D). reflexivity.
  - cbn [stringify tokens]. rewrite lex_string. reflexivity.
  - cbn [stringify tokens plain] in *.
    rewrite !str_app_assoc'. cbn [append].
    rewrite (@lex_punct "[" TLBrack) by reflexivity.
    rewrite (lex_list stringify tokens IH P) by reflexivity.
    cbn [append]. rewrite (@lex_punct "]" TRBrack) by reflexivity.
    rewrite !option_map_app, <- ?List.app_assoc. reflexivity.
  - cbn [plain] in P. apply andb_true_iff in P as [K P].
    unfold plain_keys in K. apply andb_true_iff in K as [_ K].
    cbn [stringify tokens].
    rewrite own_entries_plain by (rewrite map_map; exact K).
    rewrite map_map.
    rewrite !str_app_assoc'. cbn [append].
    rewrite (@lex_punct "{" TLBrace) by reflexivity.
    set (f := fun kv : string * json => member (fst kv, stringify (snd kv))).
    set (g := fun kv : string * json => TStr (fst kv) :: TColon :: tokens (snd kv)).
    assert (L : forall rest', delimited rest' = true ->
              lex Between (join "," (map f m) ++ rest')
              = option_map (app (sep_tokens (map g m))) (lex Between rest')).
    { clear D rest. induction IH as [| [k x] m' Hx Hm IHm]; intros rest D.
      - cbn. rewrite option_map_nil. reflexivity.
      - cbn [forallb snd map fst] in P, K.
        apply andb_true_iff in P as [Px Pm].
        apply andb_true_iff in K as [_ Km].
        assert (M : forall r, delimited r = true ->
                  lex Between (f (k, x) ++ r)
                  = option_map (app (g (k, x))) (lex Between r)).
        { intros r Dr. unfold f, g, member. cbn [fst snd] in *.
          rewrite !str_app_assoc', lex_string. cbn [append].
          rewrite (@lex_punct ":" TColon) by reflexivity.
          rewrite (Hx Px r Dr), option_map_cons, !option_map_app.
          reflexivity. }
        destruct m' as [| y m''].
        + cbn [map join sep_tokens]. apply M, D.
        + change (join "," (map f ((k, x) :: y :: m'')))
            with (f (k, x) ++ "," ++ join "," (map f (y :: m''))).
          change (sep_tokens (map g ((k, x) :: y :: m'')))
            with (g (k, x) ++ TComma :: sep_tokens (map g (y :: m'')))%list.
          rewrite !str_app_assoc', M by reflexivity.
          cbn [append]. rewrite (@lex_punct "," TComma) by reflexivity.
          rewrite (IHm Km Pm rest D), !option_map_app, <- ?List.app_assoc. reflexivity. }
    rewrite L by reflexivity.
    cbn [append]. rewrite (@lex_punct "}" TRBrace) by reflexivity.
    rewrite !option_map_app, <- ?List.app_assoc. reflexivity.
Qed.

End Reading.

Section Parsing.

Lemma word_value_integer z : word_value (Z_toString z) = Some (JNum (inject_Z z)).
Proof.
  unfold word_value. rewrite number_of_Z.
  destruct z as [| p | p]; [reflexivity | |];
    unfold Z_toString; cbn [Z.to_int NilZero.string_of_int];
    pose proof (to_uint_head p) as H; unfold NilZero.string_of_uint;
    destruct (Pos.to_uint p); try contradiction; reflexivity.
Qed.

(** A value read as the first element of an array. *)
Lemma run_first_element v st ts :
  run ValueOrClose st (tokens v ++ ts) = run Value (FArr [] :: st) (tokens v ++ ts).
Proof. destruct v; reflexivity. Qed.

Lemma existsb_eqb_In k l :
  existsb (String.eqb k) l = false -> ~ In k l.
Proof.
  induction l as [| x l IH]; simpl; [tauto |].
  intros H [E | I].
  - subst. rewrite String.eqb_refl in H. discriminate.
  - apply orb_false_iff in H as [_ H]. exact (IH H I).
Qed.

(** Creating a property under a key that the object does not have puts it
    last. *)
Lemma obj_set_fresh V (m : list (string * V)) k v :
  ~ In k (map fst m) -> obj_set m k v = (m ++ [(k, v)])%list.
Proof.
  induction m as [| [k' v'] m IH]; [reflexivity |].
  cbn [map fst In obj_set app]. intros N.
  destruct (String.eqb_spec k k') as [-> | _]; [tauto |].
  rewrite IH by tauto. reflexivity.
Qed.

Lemma run_elements l :
  Forall parses l -> forallb plain l = true ->
  forall x, parses x -> plain x = true ->
  forall done st ts,
    run Value (FArr done :: st)
        (sep_tokens (map tokens (x :: l)) ++ TRBrack :: ts)
    = run (After (JArr (done ++ x :: l))) st ts.
Proof.
  induction 1 as [| y l Hy Hl IH]; intros P x Hx Px done st ts.
  - cbn [map sep_tokens]. rewrite (Hx Px). reflexivity.
  - cbn [forallb] in P. apply andb_true_iff in P as [Py Pl].
    change (sep_tokens (map tokens (x :: y :: l)))
      with (tokens x ++ TComma :: sep_tokens (map tokens (y :: l)))%list.
    rewrite <- List.app_assoc, (Hx Px). cbn [app run step].
    rewrite (IH Pl y Hy Py), <- List.app_assoc. reflexivity.
Qed.

Lemma run_members m :
  Forall (fun kv => parses (snd kv)) m ->
  forallb (fun kv => plain (snd kv)) m = true ->
  forall k x, parses x -> plain x = true ->
  distinct (k :: map fst m) = true ->
  forall done, (forall k', In k' (k :: map fst m) -> ~ In k' (map fst done)) ->
  forall st ts,
    run (Colon done k) st
        (TColon :: tokens x
           ++ match m with
              | [] => []
              | _ => TComma
                     :: sep_tokens
                          (map (fun kv => TStr (fst kv) :: TColon :: tokens (snd kv)) m)
              end ++ TRBrace :: ts)
    = run (After (JObj (done ++ (k, x) :: m))) st ts.
Proof.
  induction 1 as [| [k' y] m Hy Hm IH]; intros P k x Hx Px K done F st ts.
  - cbn [run step app]. rewrite (Hx Px). cbn [app run step]. unfold close_obj.
    rewrite obj_set_fresh by (apply F; left; reflexivity). reflexivity.
  - cbn [forallb snd] in P, Hy. apply andb_true_iff in P as [Py Pm].
    cbn [distinct map fst] in K. apply andb_true_iff in K as [Kk K'].
    apply negb_true_iff, existsb_eqb_In in Kk.
    cbn [run step]. rewrite (Hx Px).
    cbn [app run step]. unfold close_obj.
    rewrite obj_set_fresh by (apply F; left; reflexivity).
    assert (F' : forall k0, In k0 (k' :: map fst m)
                   -> ~ In k0 (map fst (done ++ [(k, x)]))).
    { intros k0 I. rewrite map_app, in_app_iff. cbn [map fst In].
      intros [I' | [E | []]].
      - exact (F k0 (or_intror I) I').
      - subst k0. exact (Kk I). }
    pose proof (IH Pm k' y Hy Py K' (done ++ [(k, x)])%list F' st ts) as R.
    rewrite <- List.app_assoc in R. cbn [app] in R. rewrite <- R. clear R.
    destruct m as [| z m']; [reflexivity |].
    change (sep_tokens (map (fun kv : string * json =>
                               TStr (fst kv) :: TColon :: tokens (snd kv))
                            ((k', y) :: z :: m')))
      with ((TStr k' :: TColon :: tokens y)
              ++ TComma :: sep_tokens
                   (map (fun kv : string * json =>
                           TStr (fst kv) :: TColon :: tokens (snd kv))
                        (z :: m')))%list.
    cbn [app run step]. rewrite <- !List.app_assoc. reflexivity.
Qed.

Lemma run_value v : parses v.
Proof.
  induction v as [| b | q | s | l IH | m IH] using json_induction;
    intros P st ts.
  - reflexivity.
  - destruct b; reflexivity.
  - cbn [plain] in P. destruct (safe_integer_text _ P) as [T V].
    cbn [tokens stringify app run step start_value].
    rewrite T, word_value_integer, V. reflexivity.
  - reflexivity.
  - cbn [plain] in P. destruct IH as [| x l Hx Hl]; [reflexivity |].
    cbn [forallb] in P. apply andb_true_iff in P as [Px Pl].
    cbn [tokens]. rewrite <- !List.app_comm_cons. cbn [run step start_value].
    rewrite <- List.app_assoc. cbn [app].
    destruct l as [| y l'].
    + cbn [map sep_tokens]. rewrite run_first_element, (Hx Px). reflexivity.
    + change (sep_tokens (map tokens (x :: y :: l')))
        with (tokens x ++ TComma :: sep_tokens (map tokens (y :: l')))%list.
      rewrite <- List.app_assoc, run_first_element, List.app_assoc.
      exact (run_elements Hl Pl Hx Px [] st ts).
  - cbn [plain] in P. apply andb_true_iff in P as [K P].
    unfold plain_keys in K. apply andb_true_iff in K as [K _].
    destruct IH as [| [k x] m Hx Hm]; [reflexivity |].
    cbn [forallb snd] in P, Hx. apply andb_true_iff in P as [Px Pm].
    cbn [tokens]. rewrite <- !List.app_comm_cons. cbn [run step start_value].
    rewrite <- List.app_assoc. cbn [app].
    pose proof (@run_members m Hm Pm k x Hx Px K [] (fun _ _ I => I) st ts) as R.
    cbn [app] in R. rewrite <- R. clear R.
    cbn [run step]. destruct m as [| z m'].
    + cbn [map sep_tokens fst snd app]. rewrite <- ?List.app_assoc. reflexivity.
    + change (sep_tokens (map (fun kv : string * json =>
                                 TStr (fst kv) :: TColon :: tokens (snd kv))
                              ((k, x) :: z :: m')))
        with ((TStr k :: TColon :: tokens x)
                ++ TComma :: sep_tokens
                     (map (fun kv : string * json =>
                             TStr (fst kv) :: TColon :: tokens (snd kv))
                          (z :: m')))%list.
      cbn [app run step]. rewrite <- !List.app_assoc. reflexivity.
Qed.

End Parsing.

(** X17.  The deep clone is the identity on plain data.  For JSON data whose
    numbers are safe integers and whose object keys are distinct and are
    no array indices, [JSON.parse(JSON.stringify(v))] returns normally,
    with the data itself: strings come back character for character,
    escapes included, and members in their order. *)
Theorem clone_is_identity (v : json) :
  plain v = true -> clone v = Normal v.
Proof.
  intros P. unfold clone, parse.
  pose proof (@lex_value v P "" eq_refl) as L. rewrite str_app_nil in L.
  rewrite L. cbn [lex option_map].
  rewrite (@run_value v P [] []). reflexivity.
Qed.

Lemma clone_is_identity_witness :
  clone (JObj [("player", JObj [("health", JNum 100); ("inventory", JArr [JStr "map"; JStr "rope"])]);
               ("lastAction", JNull);
               ("note", JStr (String quote "a\b"))])
  = Normal (JObj [("player", JObj [("health", JNum 100); ("inventory", JArr [JStr "map"; JStr "rope"])]);
                  ("lastAction", JNull);
                  ("note", JStr (String quote "a\b"))]).
Proof. apply clone_is_identity. reflexivity. Defined.

(* ===================================================================== *)
(** * The player controller on its in-memory store                      *)
(* ===================================================================== *)

Import PlayerStore.

Section PlayerMaps.

Lemma obj_get_In V (m : list (string * V)) k v :
  obj_get m k = Some v -> In (k, v) m.
Proof.
  induction m as [| [k' v'] m IH]; simpl; [discriminate |].
  destruct (String.eqb_spec k k') as [-> | _].
  - intros [= ->]. now left.
  - intros H. right. auto.
Qed.

Lemma write_all_keys V (l : list (string * V)) :
  forall r, NoDup (map fst r) -> NoDup (map fst (write_all l r)).
Proof.
  induction l as [| e l IH]; intros r D; [exact D |].
  rewrite write_all_cons. apply IH, obj_set_keys, D.
Qed.

Lemma own_entries_keys V (m : list (string * V)) :
  NoDup (map fst m) -> NoDup (map fst (own_entries m)).
Proof.
  intros D. eapply Permutation_NoDup; [| exact D].
  apply Permutation_map. symmetry. apply own_entries_perm.
Qed.

(** A lookup in [{ ...target, ...source }]. *)
Lemma assign_get target source k :
  NoDup (map fst source) ->
  obj_get (assign target source) k
  = match obj_get source k with
    | Some v => Some v
    | None => obj_get target k
    end.
Proof.
  intros D. unfold assign.
  destruct (obj_get source k) as [v |] eqn:E.
  - apply write_all_In; [apply own_entries_keys, D |].
    eapply Permutation_in; [symmetry; apply own_entries_perm |].
    apply obj_get_In, E.
  - apply write_all_other. apply obj_get_None in E. intros K. apply E.
    eapply Permutation_in; [| exact K].
    apply Permutation_map, own_entries_perm.
Qed.

Lemma assign_keys target source :
  NoDup (map fst target) -> NoDup (map fst (assign target source)).
Proof. apply write_all_keys. Qed.

Lemma copy_get p k :
  NoDup (map fst p) -> obj_get (assign [] p) k = obj_get p k.
Proof.
  intros D. rewrite assign_get by exact D. destruct (obj_get p k); reflexivity.
Qed.

Lemma same_key_string id k : same_key (JStr id) k = true -> k = JStr id.
Proof.
  destruct k; simpl; try discriminate. intros H.
  apply String.eqb_eq in H. congruence.
Qed.

Lemma Map_get_set_same m id v :
  Map_get (Map_set m (JStr id) v) (JStr id) = Some v.
Proof.
  induction m as [| [k p] m IH]; cbn [Map_get Map_set].
  - simpl. rewrite String.eqb_refl. reflexivity.
  - destruct (same_key (JStr id) k) eqn:E; cbn [Map_get]; rewrite E; auto.
Qed.

Lemma Map_get_set_other m id id' v :
  id' <> id ->
  Map_get (Map_set m (JStr id) v) (JStr id') = Map_get m (JStr id').
Proof.
  intros N. induction m as [| [k p] m IH]; cbn [Map_get Map_set].
  - simpl. destruct (String.eqb_spec id' id); [contradiction | reflexivity].
  - destruct (same_key (JStr id) k) eqn:E; cbn [Map_get].
    + apply same_key_string in E. subst k. simpl.
      destruct (String.eqb_spec id' id); [contradiction | reflexivity].
    + rewrite IH. reflexivity.
Qed.

Lemma Map_get_In m k p : Map_get m k = Some p -> exists key, In (key, p) m.
Proof.
  induction m as [| [k' p'] m IH]; simpl; [discriminate |].
  destruct (same_key k k').
  - intros [= ->]. eauto.
  - intros H. destruct (IH H) as [key I]. eauto.
Qed.

Lemma Map_set_In m k v key p :
  In (key, p) (Map_set m k v) -> p = v \/ In (key, p) m.
Proof.
  induction m as [| [k' p'] m IH]; simpl.
  - intros [[= _ <-] | []]. now left.
  - destruct (same_key k k'); simpl.
    + intros [[= _ <-] | H]; auto.
    + intros [H | H]; auto. destruct (IH H); auto.
Qed.

Lemma Map_set_sound m k v : sound m -> sound_profile v -> sound (Map_set m k v).
Proof.
  intros S G key p I. apply Map_set_In in I. destruct I as [-> | I]; eauto.
Qed.

End PlayerMaps.

Section PlayerHandlers.

Lemma sound_profile_nil : sound_profile [].
Proof.
  split; [constructor |]. split; [reflexivity | discriminate].
Qed.

Lemma sound_existing m k :
  sound m ->
  sound_profile match Map_get m k with Some p => p | None => [] end.
Proof.
  intros S. destruct (Map_get m k) as [p |] eqn:E; [| apply sound_profile_nil].
  destruct (@Map_get_In m k p E) as [key I]. eauto.
Qed.

(** A successful [updatePlayerProfile]: the player data and the profile
    stored. *)
Lemma updatePlayerProfile_stores req_body now created m id :
  obj_get req_body "playerId" = Some id -> truthy (Some id) = true ->
  exists playerData,
    NoDup (map fst playerData)
    /\ obj_get playerData "playerId" = Some id
    /\ obj_get playerData "name"
       = Some (or_else (obj_get req_body "name") (JStr "Adventurer"))
    /\ obj_get playerData "lastActive" = Some (JStr now)
    /\ obj_get playerData "createdAt" = None
    /\ obj_get playerData "achievements" = None
    /\ obj_get playerData "statistics" = None
    /\ let existingProfile :=
         match Map_get m id with Some p => p | None => [] end in
       let player :=
         obj_set (assign (assign [] existingProfile) playerData) "createdAt"
                 (or_else (obj_get existingProfile "createdAt") (JStr created)) in
       updatePlayerProfile req_body now created m
       = (respond 200 [("success", JBool true);
                       ("message", JStr "Player profile updated");
                       ("player", JObj player)],
          Map_set m id player).
Proof.
  intros H T. unfold updatePlayerProfile. rewrite H, T. cbn [negb].
  destruct (obj_get req_body "email") as [e |];
    [destruct (truthy (Some e)) |];
    (destruct (obj_get req_body "preferences") as [p |];
     [destruct (truthy (Some p) && typeof_object (Some p)) |]);
    eexists; (split; [| split; [| split; [| split; [| split; [| split;
      [| split; [| reflexivity]]]]]]]);
    try reflexivity;
    cbn; repeat constructor; cbn; intuition discriminate.
Qed.

Lemma updatePlayerProfile_sound req_body now created m :
  sound m -> sound (snd (updatePlayerProfile req_body now created m)).
Proof.
  intros S.
  destruct (obj_get req_body "playerId") as [id |] eqn:H;
    [| unfold updatePlayerProfile; rewrite H; exact S].
  destruct (truthy (Some id)) eqn:T;
    [| unfold updatePlayerProfile; rewrite H, T; exact S].
  destruct (@updatePlayerProfile_stores req_body now created m id H T)
    as (pd & D & _ & _ & _ & _ & A & St & E).
  cbv zeta in E. rewrite E. cbn [snd].
  pose proof (@sound_existing m id S) as (De & Ae & Se).
  set (existing := match Map_get m id with Some p => p | None => [] end) in *.
  apply Map_set_sound; [exact S |].
  split; [| split].
  - apply obj_set_keys, assign_keys, assign_keys. constructor.
  - rewrite (@obj_get_set_other _ _ "achievements" "createdAt") by discriminate.
    rewrite assign_get, A, copy_get by assumption. exact Ae.
  - intros s. rewrite (@obj_get_set_other _ _ "statistics" "createdAt") by discriminate.
    rewrite assign_get, St, copy_get by assumption. apply Se.
Qed.

Lemma updatePreferences_sound playerId req_body now m :
  sound m -> sound (snd (updatePreferences playerId req_body now m)).
Proof.
  intros S. unfold updatePreferences.
  destruct (String.eqb playerId ""); [exact S |].
  destruct (obj_get req_body "preferences") as [p |]; [| exact S].
  destruct (negb (truthy (Some p)) || negb (typeof_object (Some p))); [exact S |].
  destruct (Map_get m (JStr playerId)) as [existing |] eqn:E; [| exact S].
  cbn [snd]. apply Map_set_sound; [exact S |].
  destruct (@Map_get_In m (JStr playerId) existing E) as [key I].
  destruct (S key existing I) as (De & Ae & Se).
  split; [| split].
  - apply obj_set_keys, obj_set_keys, assign_keys. constructor.
  - rewrite (@obj_get_set_other _ _ "achievements" "lastActive") by discriminate.
    rewrite (@obj_get_set_other _ _ "achievements" "preferences") by discriminate.
    rewrite copy_get by assumption. exact Ae.
  - intros s.
    rewrite (@obj_get_set_other _ _ "statistics" "lastActive") by discriminate.
    rewrite (@obj_get_set_other _ _ "statistics" "preferences") by discriminate.
    rewrite copy_get by assumption. apply Se.
Qed.

Lemma fold_add_statistic_keys entries :
  forall newStats,
    NoDup (map fst newStats) ->
    NoDup (map fst (fold_left add_statistic entries newStats)).
Proof.
  induction entries as [| e l IH]; intros s D; [exact D |].
  cbn [fold_left]. apply IH. unfold add_statistic. apply obj_set_keys, D.
Qed.

Lemma copy_keys v : NoDup (map fst (copy v)).
Proof. unfold copy. apply assign_keys. constructor. Qed.

Lemma updateStatistics_sound playerId req_body now m :
  sound m -> sound (snd (updateStatistics playerId req_body now m)).
Proof.
  intros S. unfold updateStatistics.
  destruct (String.eqb playerId ""); [exact S |].
  destruct (obj_get req_body "statistics") as [s |]; [| exact S].
  destruct (negb (truthy (Some s)) || negb (typeof_object (Some s))); [exact S |].
  destruct (numbers (Object_entries s)) as [key | entries]; [exact S |].
  destruct (Map_get m (JStr playerId)) as [existing |] eqn:E; [| exact S].
  cbn [snd]. apply Map_set_sound; [exact S |].
  destruct (@Map_get_In m (JStr playerId) existing E) as [key I].
  destruct (S key existing I) as (De & Ae & Se).
  split; [| split].
  - apply obj_set_keys, obj_set_keys, assign_keys. constructor.
  - rewrite (@obj_get_set_other _ _ "achievements" "lastActive") by discriminate.
    rewrite (@obj_get_set_other _ _ "achievements" "statistics") by discriminate.
    rewrite copy_get by assumption. exact Ae.
  - intros s0.
    rewrite (@obj_get_set_other _ _ "statistics" "lastActive") by discriminate.
    rewrite obj_get_set_same. intros [= <-].
    eexists. split; [reflexivity |].
    apply fold_add_statistic_keys, copy_keys.
Qed.

Lemma serve_sound r m : sound m -> sound (snd (serve r m)).
Proof.
  intros S. destruct r; cbn [serve snd]; auto.
  - apply updatePlayerProfile_sound, S.
  - apply updatePreferences_sound, S.
  - apply updateStatistics_sound, S.
Qed.

Lemma served_sound requests : sound (served requests).
Proof.
  unfold served.
  assert (G : forall m, sound m ->
                sound (fold_left (fun m r => snd (serve r m)) requests m)).
  { induction requests as [| r l IH]; intros m S; [exact S |].
    cbn [fold_left]. apply IH, serve_sound, S. }
  apply G. intros key p [].
Qed.

End PlayerHandlers.

Section PlayerTheorems.

Lemma same_key_string_l id k : same_key k (JStr id) = true -> k = JStr id.
Proof.
  destruct k; simpl; try discriminate. intros H.
  apply String.eqb_eq in H. congruence.
Qed.

(** A lookup under a string id after a write under any key. *)
Lemma Map_get_set m k v id :
  Map_get (Map_set m k v) (JStr id)
  = if same_key (JStr id) k then Some v else Map_get m (JStr id).
Proof.
  induction m as [| [k0 p0] m IH]; cbn [Map_get Map_set]; [reflexivity |].
  destruct (same_key k k0) eqn:E; cbn [Map_get].
  - destruct (same_key (JStr id) k0) eqn:F.
    + apply same_key_string in F. subst k0.
      apply same_key_string_l in E. subst k. simpl.
      rewrite String.eqb_refl. reflexivity.
    + destruct (same_key (JStr id) k) eqn:G; [| reflexivity].
      apply same_key_string in G. subst k.
      destruct k0; simpl in E, F; congruence.
  - destruct (same_key (JStr id) k0) eqn:F; [| exact IH].
    destruct (same_key (JStr id) k) eqn:G; [| reflexivity].
    apply same_key_string in F, G. subst. simpl in E.
    rewrite String.eqb_refl in E. discriminate.
Qed.

(** X18.  A profile that is saved is the profile that is returned.  For a
    request whose playerId is a non-empty string, updatePlayerProfile
    answers 200 with the player it stores, and getPlayerProfile then answers
    200 with that same player; the player has the playerId, the name of
    the request or [Adventurer] when the request has none (whatever name
    was stored before), and the time of the request as lastActive; the
    profiles under other ids are as they were. *)
Theorem profile_is_stored_and_returned :
  forall (playerProfiles : Profiles) (req_body : props) (now created id : string),
    obj_get req_body "playerId" = Some (JStr id) ->
    id <> "" ->
    exists player,
      updatePlayerProfile req_body now created playerProfiles
      = (respond 200 [("success", JBool true);
                      ("message", JStr "Player profile updated");
                      ("player", JObj player)],
         Map_set playerProfiles (JStr id) player)
      /\ getPlayerProfile id (Map_set playerProfiles (JStr id) player)
         = respond 200 [("player", JObj player)]
      /\ obj_get player "playerId" = Some (JStr id)
      /\ obj_get player "name"
         = Some (or_else (obj_get req_body "name") (JStr "Adventurer"))
      /\ obj_get player "lastActive" = Some (JStr now)
      /\ (forall id', id' <> id ->
            Map_get (Map_set playerProfiles (JStr id) player) (JStr id')
            = Map_get playerProfiles (JStr id')).
Proof.
  intros m req_body now created id H N.
  assert (T : truthy (Some (JStr id)) = true).
  { simpl. destruct (String.eqb_spec id ""); [contradiction | reflexivity]. }
  destruct (@updatePlayerProfile_stores req_body now created m (JStr id) H T)
    as (pd & D & I & Nm & L & _ & _ & _ & E).
  cbv zeta in E. eexists. split; [exact E |].
  split; [| split; [| split; [| split]]].
  - unfold getPlayerProfile.
    destruct (String.eqb_spec id ""); [contradiction |].
    rewrite Map_get_set_same. reflexivity.
  - rewrite (@obj_get_set_other _ _ "playerId" "createdAt") by discriminate.
    rewrite assign_get, I by exact D. reflexivity.
  - rewrite (@obj_get_set_other _ _ "name" "createdAt") by discriminate.
    rewrite assign_get, Nm by exact D. reflexivity.
  - rewrite (@obj_get_set_other _ _ "lastActive" "createdAt") by discriminate.
    rewrite assign_get, L by exact D. reflexivity.
  - intros id' N'. apply Map_get_set_other, N'.
Qed.

Lemma profile_is_stored_and_returned_witness :
  exists player,
    updatePlayerProfile [("playerId", JStr "p1"); ("email", JStr "a@b.c")]
                        "t2" "t2"
                        [(JStr "p1", [("playerId", JStr "p1"); ("name", JStr "Ann");
                                      ("lastActive", JStr "t1");
                                      ("createdAt", JStr "t1")])]
    = (respond 200 [("success", JBool true);
                    ("message", JStr "Player profile updated");
                    ("player", JObj player)],
       Map_set [(JStr "p1", [("playerId", JStr "p1"); ("name", JStr "Ann");
                             ("lastActive", JStr "t1");
                             ("createdAt", JStr "t1")])]
               (JStr "p1") player)
    /\ getPlayerProfile "p1"
         (Map_set [(JStr "p1", [("playerId", JStr "p1"); ("name", JStr "Ann");
                                ("lastActive", JStr "t1");
                                ("createdAt", JStr "t1")])]
                  (JStr "p1") player)
       = respond 200 [("player", JObj player)]
    /\ obj_get player "playerId" = Some (JStr "p1")
    /\ obj_get player "name"
       = Some (or_else (obj_get [("playerId", JStr "p1"); ("email", JStr "a@b.c")] "name")
                       (JStr "Adventurer"))
    /\ obj_get player "lastActive" = Some (JStr "t2")
    /\ (forall id', id' <> "p1" ->
          Map_get (Map_set [(JStr "p1", [("playerId", JStr "p1"); ("name", JStr "Ann");
                                         ("lastActive", JStr "t1");
                                         ("createdAt", JStr "t1")])]
                           (JStr "p1") player) (JStr id')
          = Map_get [(JStr "p1", [("playerId", JStr "p1"); ("name", JStr "Ann");
                                  ("lastActive", JStr "t1");
                                  ("createdAt", JStr "t1")])] (JStr id')).
Proof.
  apply (@profile_is_stored_and_returned
           [(JStr "p1", [("playerId", JStr "p1"); ("name", JStr "Ann");
                         ("lastActive", JStr "t1"); ("createdAt", JStr "t1")])]
           [("playerId", JStr "p1"); ("email", JStr "a@b.c")] "t2" "t2" "p1").
  - reflexivity.
  - discriminate.
Defined.

(** X19.  The creation time of a profile is never changed.  In any store the
    controller has built from the empty one, a profile with a creation time
    keeps it through every request: a profile update, a change of
    preferences, an update of statistics, under its id or another. *)
Theorem createdAt_is_kept :
  forall (requests : list Request) (r : Request) (id : string) (p : props)
         (c : json),
    Map_get (served requests) (JStr id) = Some p ->
    obj_get p "createdAt" = Some c ->
    truthy (Some c) = true ->
    exists p',
      Map_get (snd (serve r (served requests))) (JStr id) = Some p'
      /\ obj_get p' "createdAt" = Some c.
Proof.
  intros requests r id p c G C T.
  pose proof (served_sound requests) as S.
  set (m := served requests) in *.
  destruct (@Map_get_In m (JStr id) p G) as [key I].
  destruct (S key p I) as (D & _ & _).
  destruct r as [b now created | id0 | id0 b now | id0 | id0 b now];
    cbn [serve snd]; eauto.
  - destruct (obj_get b "playerId") as [k |] eqn:H;
      [| unfold updatePlayerProfile; rewrite H; eauto].
    destruct (truthy (Some k)) eqn:Tk;
      [| unfold updatePlayerProfile; rewrite H, Tk; eauto].
    destruct (@updatePlayerProfile_stores b now created m k H Tk)
      as (pd & Dp & _ & _ & _ & Cp & _ & _ & E).
    cbv zeta in E. rewrite E. cbn [snd]. rewrite Map_get_set.
    destruct (same_key (JStr id) k) eqn:K; [| eauto].
    apply same_key_string in K. subst k. rewrite G.
    eexists. split; [reflexivity |].
    rewrite obj_get_set_same, C. unfold or_else. rewrite T. reflexivity.
  - unfold updatePreferences.
    destruct (String.eqb id0 ""); [eauto |].
    destruct (obj_get b "preferences") as [q |]; [| eauto].
    destruct (negb (truthy (Some q)) || negb (typeof_object (Some q))); [eauto |].
    destruct (Map_get m (JStr id0)) as [existing |] eqn:E; [| eauto].
    cbn [snd]. rewrite Map_get_set.
    destruct (same_key (JStr id) (JStr id0)) eqn:K; [| eauto].
    apply same_key_string in K. injection K as ->.
    rewrite G in E. injection E as <-.
    eexists. split; [reflexivity |].
    rewrite (@obj_get_set_other _ _ "createdAt" "lastActive") by discriminate.
    rewrite (@obj_get_set_other _ _ "createdAt" "preferences") by discriminate.
    rewrite copy_get by exact D. exact C.
  - unfold updateStatistics.
    destruct (String.eqb id0 ""); [eauto |].
    destruct (obj_get b "statistics") as [q |]; [| eauto].
    destruct (negb (truthy (Some q)) || negb (typeof_object (Some q))); [eauto |].
    destruct (numbers (Object_entries q)) as [bad | entries]; [eauto |].
    destruct (Map_get m (JStr id0)) as [existing |] eqn:E; [| eauto].
    cbn [snd]. rewrite Map_get_set.
    destruct (same_key (JStr id) (JStr id0)) eqn:K; [| eauto].
    apply same_key_string in K. injection K as ->.
    rewrite G in E. injection E as <-.
    eexists. split; [reflexivity |].
    rewrite (@obj_get_set_other _ _ "createdAt" "lastActive") by discriminate.
    rewrite (@obj_get_set_other _ _ "createdAt" "statistics") by discriminate.
    rewrite copy_get by exact D. exact C.
Qed.

Lemma createdAt_is_kept_witness :
  exists p',
    Map_get (snd (serve (UpdatePlayerProfile [("playerId", JStr "p1")] "t2" "t2")
                        (served [UpdatePlayerProfile
                                   [("playerId", JStr "p1"); ("name", JStr "Ann")]
                                   "t1" "t1"])))
            (JStr "p1") = Some p'
    /\ obj_get p' "createdAt" = Some (JStr "t1").
Proof.
  apply (@createdAt_is_kept
           [UpdatePlayerProfile [("playerId", JStr "p1"); ("name", JStr "Ann")]
                                "t1" "t1"]
           (UpdatePlayerProfile [("playerId", JStr "p1")] "t2" "t2")
           "p1"
           [("playerId", JStr "p1"); ("name", JStr "Ann");
            ("lastActive", JStr "t1"); ("createdAt", JStr "t1")]
           (JStr "t1")); reflexivity.
Defined.

(** X20.  Without the database no achievement is ever reported.  Whatever
    requests the controller has served since it started with its empty
    store, getAchievements answers that the id is missing, that the player
    is not found, or an empty list of achievements with a total of 0. *)
Theorem no_achievements_in_memory :
  forall (requests : list Request) (playerId : string),
    let reply := getAchievements playerId (served requests) in
    reply = missing_player_id
    \/ reply = player_not_found
    \/ reply = respond 200 [("playerId", JStr playerId);
                            ("achievements", JArr []);
                            ("totalAchievements", JNum 0)].
Proof.
  intros requests playerId reply. subst reply.
  pose proof (served_sound requests) as S.
  unfold getAchievements.
  destruct (String.eqb playerId ""); [now left |].
  destruct (Map_get (served requests) (JStr playerId)) as [p |] eqn:G;
    [| right; now left].
  destruct (@Map_get_In _ _ _ G) as [key I].
  destruct (S key p I) as (_ & A & _).
  right. right. rewrite A. reflexivity.
Qed.

End PlayerTheorems.

Section PlayerStatistics.









End PlayerStatistics.
